(** * FoxBlogBackend: the flat-list-to-tree materializer of [blog/views.py]

    A shallow embedding of [list_to_tree], [find_parent] and of the
    date-bucketing loop of [TreeHoleViewSet.list_treeholes_all], together
    with the properties the specification states about them; and of the
    other list-processing code of the file, [PostViewSet.list_archive_dates],
    [PostViewSet.list_archive] and [format_comments], with properties read
    off the code.

    The Python code works on a list of dicts and mutates both the list and
    the dicts.  The embedding keeps that: dicts live in a store and are named
    by their location, the list variables ([list], [tree] and every
    ['children'] value) hold locations, and every statement of the source
    becomes a store transformer.  The nested value a caller (or the JSON
    renderer) sees is read back from the store by [view]. *)

From stdpp Require Import base gmap list strings sorting.
From Stdlib Require Import ZArith Lia Ascii.

(** * The program *)

(** ** Rows and dicts *)

(** A naive timestamp ([USE_TZ = False] in [settings/common.py]). *)
Record datetime : Type := DateTime {
  year : Z; month : Z; day : Z; hour : Z; minute : Z; second : Z
}.

(** One element of [TreeHole.objects.all().values()]: a dict with the
    columns of the model, [parent_id] being [None] for SQL NULL.  (A comment
    row has more columns of the kind of [content]; [list_to_tree] reads
    ['id'] and ['parent_id'] only.) *)
Record row : Type := Row {
  id : Z;
  content : string;
  created_time : datetime;
  modified_time : datetime;
  parent_id : option Z
}.

#[global] Instance datetime_eq_dec : EqDecision datetime.
Proof. solve_decision. Defined.

#[global] Instance row_eq_dec : EqDecision row.
Proof. solve_decision. Defined.

(** Locations of dict objects in the store. *)
Abbreviation loc := nat (only parsing).

(** A dict object: the columns it was created with and, once the key has
    been set, the list held under ['children']. *)
Record dict : Type := Dict {
  fields : row;
  children : option (list loc)
}.

(** The store: the dict at location [l] is the [l]-th element. *)
Abbreviation heap := (list dict) (only parsing).

(** ** Outcomes *)

(** What a run can raise. *)
Inductive exn : Type :=
  | ValueError      (* list.remove(x): x not in list *)
  | BadReference.   (* a location outside the store *)

(** A run either returns, raises, or is cut off by the step budget. *)
Inductive outcome (A : Type) : Type :=
  | Done (a : A)
  | Raised (e : exn)
  | OutOfFuel.

Arguments Done {A} a.
Arguments Raised {A} e.
Arguments OutOfFuel {A}.

#[global] Instance outcome_ret : MRet outcome := λ A a, Done a.
#[global] Instance outcome_bind : MBind outcome := λ A B k m,
  match m with
  | Done a => k a
  | Raised e => Raised e
  | OutOfFuel => OutOfFuel
  end.
#[global] Instance outcome_fmap : FMap outcome := λ A B g m,
  match m with
  | Done a => Done (g a)
  | Raised e => Raised e
  | OutOfFuel => OutOfFuel
  end.

(** Read the dict at a location. *)
Definition deref (h : heap) (l : loc) : outcome dict :=
  match h !! l with
  | Some d => Done d
  | None => Raised BadReference
  end.

(** ** Python primitives used by the source *)

(** [not v] for a value that is [None] or an int. *)
Definition falsy (v : option Z) : bool :=
  match v with
  | None => true
  | Some z => bool_decide (z = 0%Z)
  end.

(** [a == b] on two dicts, as [list.remove] evaluates it: identical objects
    are equal; otherwise the keys and values are compared, the ['children']
    lists element by element. *)
Fixpoint dict_eqb (fuel : nat) (h : heap) (a b : loc) : outcome bool :=
  if bool_decide (a = b) then Done true
  else
    match fuel with
    | O => OutOfFuel
    | S fuel' =>
        da ← deref h a;
        db ← deref h b;
        if bool_decide (fields da = fields db) then
          match children da, children db with
          | None, None => Done true
          | Some ca, Some cb =>
              if bool_decide (length ca = length cb) then
                (fix all2 (xs ys : list loc) {struct xs} : outcome bool :=
                   match xs, ys with
                   | x :: xs', y :: ys' =>
                       e ← dict_eqb fuel' h x y;
                       if e : bool then all2 xs' ys' else Done false
                   | _, _ => Done true
                   end) ca cb
              else Done false
          | _, _ => Done false
          end
        else Done false
    end.

(** [list.remove(item)]: drop the first element equal to [item]. *)
Fixpoint list_remove (fuel : nat) (h : heap) (item : loc) (lst : list loc)
  : outcome (list loc) :=
  match lst with
  | [] => Raised ValueError
  | y :: lst' =>
      e ← dict_eqb fuel h y item;
      if e : bool then Done lst'
      else lst'' ← list_remove fuel h item lst'; Done (y :: lst'')
  end.

(** ** [find_parent] *)

(** [p_item.get('id') == item.get('parent_id')] *)
Definition id_matches (p_item item : dict) : bool :=
  bool_decide (Some (id (fields p_item)) = parent_id (fields item)).

(** Depth-first search of the forest rooted at [tree] for the first dict
    whose id is the parent id of [item]; [None] when the loop falls through.
    [fuel] bounds the recursion depth. *)
Fixpoint find_parent (fuel : nat) (h : heap) (tree : list loc) (item : dict)
  : outcome (option loc) :=
  match fuel with
  | O => OutOfFuel
  | S fuel' =>
      (fix each (ps : list loc) : outcome (option loc) :=
         match ps with
         | [] => Done None
         | p :: ps' =>
             p_item ← deref h p;
             if id_matches p_item item then Done (Some p)
             else
               match children p_item with
               | Some cs =>
                   result ← find_parent fuel' h cs item;
                   match result with
                   | Some q => Done (Some q)
                   | None => each ps'
                   end
               | None => each ps'
               end
         end) tree
  end.

(** ** [list_to_tree] *)

(** The first loop: [for item in list[:]], moving the roots to [tree]. *)
Fixpoint roots_loop (fuel : nat) (h : heap) (snapshot tree lst : list loc)
  : outcome (list loc * list loc) :=
  match snapshot with
  | [] => Done (tree, lst)
  | item :: rest =>
      d ← deref h item;
      if falsy (parent_id (fields d)) then
        lst' ← list_remove fuel h item lst;
        roots_loop fuel h rest (tree ++ [item]) lst'
      else roots_loop fuel h rest tree lst
  end.

(** [parent_node['children'].append(item)], after the key has been
    initialised to [[]] when absent. *)
Definition append_child (p_item : dict) (item : loc) : dict :=
  {| fields := fields p_item;
     children := Some (default [] (children p_item) ++ [item]) |}.

(** The body of the [while]: one [for item in list[:]] pass. *)
Fixpoint attach_loop (fuel : nat) (tree snapshot : list loc)
    (h : heap) (lst : list loc) : outcome (heap * list loc) :=
  match snapshot with
  | [] => Done (h, lst)
  | item :: rest =>
      d ← deref h item;
      parent_node ← find_parent fuel h tree d;
      match parent_node with
      | None => attach_loop fuel tree rest h lst
      | Some p =>
          p_item ← deref h p;
          let h' := <[p := append_child p_item item]> h in
          lst' ← list_remove fuel h' item lst;
          attach_loop fuel tree rest h' lst'
      end
  end.

(** [while len(list) > 0]; [passes] bounds the number of iterations and
    [fuel] the depth of the recursions inside one iteration. *)
Fixpoint while_loop (passes fuel : nat) (tree : list loc)
    (h : heap) (lst : list loc) : outcome (heap * list loc) :=
  match lst with
  | [] => Done (h, lst)
  | _ :: _ =>
      match passes with
      | O => OutOfFuel
      | S passes' =>
          '(h', lst') ← attach_loop fuel tree lst h lst;
          while_loop passes' fuel tree h' lst'
      end
  end.

(** The final store, the final content of the argument list and the
    returned [tree]. *)
Record final : Type := Final {
  store : heap;
  remaining : list loc;
  returned : list loc
}.

(** The body of [list_to_tree(list)], run on the store [h] with the
    argument [list] holding the locations [lst]. *)
Definition list_to_tree_run (fuel : nat) (h : heap) (lst : list loc)
  : outcome final :=
  '(tree, lst1) ← roots_loop fuel h lst [] lst;
  '(h', lst2) ← while_loop fuel fuel tree h lst1;
  Done (Final h' lst2 tree).

(** ** The value a caller sees *)

(** A dict with its ['children'] expanded: [None] when the key is absent. *)
#[warnings="-register-all"]
Inductive node : Type :=
  Node (r : row) (cs : option (list node)).

(** The columns of a node and its ['children']. *)
Definition node_fields (n : node) : row := let '(Node r _) := n in r.
Definition node_children (n : node) : option (list node) :=
  let '(Node _ cs) := n in cs.

(** Read the nested value of a list of dicts out of the store. *)
Fixpoint view (fuel : nat) (h : heap) (ls : list loc) : outcome (list node) :=
  match fuel with
  | O => OutOfFuel
  | S fuel' =>
      (fix each (ls : list loc) : outcome (list node) :=
         match ls with
         | [] => Done []
         | l :: ls' =>
             d ← deref h l;
             cs ← match children d with
                  | None => Done None
                  | Some c => Some <$> view fuel' h c
                  end;
             ns ← each ls';
             Done (Node (fields d) cs :: ns)
         end) ls
  end.

(** [list(queryset.values())]: a fresh dict per row, no ['children'] key. *)
Definition alloc (rows : list row) : heap :=
  (λ r, {| fields := r; children := None |}) <$> rows.

(** The list built from the rows: its [i]-th element is the [i]-th dict. *)
Definition fresh_list (rows : list row) : list loc :=
  seq 0 (length rows).

(** [list_to_tree(list(queryset.values()))]: the call on fresh dicts, and
    the nested value of what it returns. *)
Definition list_to_tree (fuel : nat) (rows : list row) : outcome (list node) :=
  out ← list_to_tree_run fuel (alloc rows) (fresh_list rows);
  view fuel (store out) (returned out).

(** ** The date-bucketed listing of [TreeHoleViewSet.list_treeholes_all] *)

(** A [datetime.date]. *)
Record date : Type := Date { d_year : Z; d_month : Z; d_day : Z }.

#[global] Instance date_eq_dec : EqDecision date.
Proof. solve_decision. Defined.

(** Decimal digits, and numbers padded with zeros to two and four digits,
    as [%m], [%d], [%H], [%M] and [%S] print the fields of a timestamp and
    as [isoformat] prints a year (a year is between 1 and 9999). *)
Definition digit (n : Z) : ascii :=
  ascii_of_nat (48 + Z.to_nat (n `mod` 10)).
Definition pad2 (n : Z) : string :=
  String (digit (n / 10)) (String (digit n) EmptyString).
Definition pad4 (n : Z) : string :=
  String (digit (n / 1000)) (String (digit (n / 100)) (pad2 n)).

(** [date.isoformat()], which is what [DateField().to_representation]
    returns: ["YYYY-MM-DD"], the year padded to four digits. *)
Definition isoformat (d : date) : string :=
  pad4 (d_year d) +:+ "-" +:+ pad2 (d_month d) +:+ "-" +:+ pad2 (d_day d).

(** [%Y] of [strftime], which CPython hands to the C library: the year in
    decimal without padding, so that a year below 1000 has fewer than four
    digits (year 999 prints as ["999"], year 12 as ["12"]). *)
Definition strftime_Y (y : Z) : string :=
  if decide (1000 ≤ y)%Z then pad4 y
  else if decide (100 ≤ y)%Z then String (digit (y / 100)) (pad2 y)
  else if decide (10 ≤ y)%Z then pad2 y
  else String (digit y) EmptyString.

(** [t.strftime('%Y-%m')] and [t.strftime('%Y-%m-%d %H:%M:%S')]. *)
Definition strftime_Ym (t : datetime) : string :=
  strftime_Y (year t) +:+ "-" +:+ pad2 (month t).
Definition strftime_full (t : datetime) : string :=
  strftime_Y (year t) +:+ "-" +:+ pad2 (month t) +:+ "-" +:+ pad2 (day t)
  +:+ " "
  +:+ pad2 (hour t) +:+ ":" +:+ pad2 (minute t) +:+ ":" +:+ pad2 (second t).

(** The first day of the month of a timestamp. *)
Definition trunc_month (t : datetime) : date := Date (year t) (month t) 1.

(** [a] is a later month than [b]. *)
Definition newer (a b : date) : Prop :=
  (d_year b < d_year a)%Z ∨ (d_year a = d_year b ∧ (d_month b < d_month a)%Z).

#[global] Instance newer_dec a b : Decision (newer a b).
Proof. unfold newer. apply _. Defined.

(** Insert a month in a list of months kept newest first, once. *)
Fixpoint insert_month (d : date) (l : list date) : list date :=
  match l with
  | [] => [d]
  | x :: l' =>
      if decide (d = x) then l
      else if decide (newer d x) then d :: l
      else x :: insert_month d l'
  end.

(** Modelled from the spec: the query
    [TreeHole.objects.dates("created_time", "month", order="DESC")], whose
    model class is not among the sources.  It yields "a distinct set of
    year-month buckets derived from each record's creation timestamp",
    ordered "most recent first": one date per month that has a record. *)
Definition dates_month_desc (table : list row) : list date :=
  foldr (λ r acc, insert_month (trunc_month (created_time r)) acc) [] table.

(** One element of a bucket: the dict built for a top-level node. *)
Record entry : Type := Entry {
  e_id : Z;
  e_content : string;
  e_parent : option Z;
  e_created_time : string;
  e_children : option (list node)
}.

(** [{'id': obj['id'], 'content': obj['content'], 'parent': obj['parent_id'],
    'created_time': ..., 'children': obj.get('children')}] *)
Definition entry_of (obj : node) : entry :=
  {| e_id := id (node_fields obj);
     e_content := content (node_fields obj);
     e_parent := parent_id (node_fields obj);
     e_created_time := strftime_full (created_time (node_fields obj));
     e_children := node_children obj |}.

(** [for i in range(len(date_list))]: append to the bucket of every
    position whose label is [time_str].  [result[i]] is the one-key dict
    [{date_list[i]: [...]}], kept as a pair. *)
Fixpoint bucket_loop (date_list : list string) (time_str : string) (e : entry)
    (result : list (string * list entry)) : list (string * list entry) :=
  match date_list, result with
  | d :: ds, (k, es) :: rs =>
      (if decide (d = time_str) then (k, es ++ [e]) else (k, es))
      :: bucket_loop ds time_str e rs
  | _, _ => result
  end.

(** The labels: [date_field.to_representation(date)[:7]]. *)
Definition date_labels (table : list row) : list string :=
  (λ d, String.substring 0 7 (isoformat d)) <$> dates_month_desc table.

(** The body of the view on the rows of the table: materialize, build one
    empty group per label, then distribute the top-level nodes. *)
Definition list_treeholes_all (fuel : nat) (table : list row)
  : outcome (list (string * list entry)) :=
  treeholes_formated_list ← list_to_tree fuel table;
  let date_list := date_labels table in
  let result := (λ d, (d, [])) <$> date_list in
  Done (foldl (λ res obj,
                 bucket_loop date_list
                   (strftime_Ym (created_time (node_fields obj)))
                   (entry_of obj) res)
          result treeholes_formated_list).

(** ** [PostViewSet.list_archive_dates] and [PostViewSet.list_archive] *)

(** The body of [list_archive_dates] on the dates its query
    [Post.objects.dates("created_time", "month", order="DESC")] yields:
    [[date_field.to_representation(date)[:7] for date in dates]]. *)
Definition list_archive_dates (dates : list date) : list string :=
  (λ date, String.substring 0 7 (isoformat date)) <$> dates.

(** What [list_archive] reads of a [Post] object: [post.id], [post.title]
    and [post.created_time]. *)
Record post : Type := Post {
  p_id : Z;
  p_title : string;
  p_created_time : datetime
}.

(** [{'id': post.id, 'title': post.title, 'created_time': ...}] *)
Record archive_entry : Type := ArchiveEntry {
  a_id : Z;
  a_title : string;
  a_created_time : string
}.

Definition archive_entry_of (p : post) : archive_entry :=
  {| a_id := p_id p;
     a_title := p_title p;
     a_created_time := strftime_full (p_created_time p) |}.

(** [for i in range(len(date_list))] of [list_archive]: append to the group
    of every position whose label is [time_str]. *)
Fixpoint archive_loop (date_list : list string) (time_str : string)
    (e : archive_entry) (result : list (string * list archive_entry))
  : list (string * list archive_entry) :=
  match date_list, result with
  | d :: ds, (k, es) :: rs =>
      (if decide (d = time_str) then (k, es ++ [e]) else (k, es))
      :: archive_loop ds time_str e rs
  | _, _ => result
  end.

(** The body of [list_archive] on the results of its two queries: [dates],
    and [post_list = Post.objects.all()]. *)
Definition list_archive (dates : list date) (post_list : list post)
  : list (string * list archive_entry) :=
  let date_list := (λ date, String.substring 0 7 (isoformat date)) <$> dates in
  let result := (λ date, (date, [])) <$> date_list in
  foldl (λ res p,
           archive_loop date_list (strftime_Ym (p_created_time p))
             (archive_entry_of p) res)
    result post_list.

(** ** [format_comments] *)

(** The values [format_comments] reads from a comment: [None], an int or a
    str. *)
Inductive pyval : Type :=
  | PyNone
  | PyInt (z : Z)
  | PyStr (s : string).

#[global] Instance pyval_eq_dec : EqDecision pyval.
Proof. solve_decision. Defined.

(** The truth value of such a value: [not v] is its negation. *)
Definition truthy (v : pyval) : bool :=
  match v with
  | PyNone => false
  | PyInt z => negb (bool_decide (z = 0%Z))
  | PyStr s => negb (bool_decide (s = EmptyString))
  end.

(** A comment as [format_comments] receives it: a dict with string keys. *)
Abbreviation comment := (gmap string pyval) (only parsing).

(** [c[key]] raises [KeyError(key)] when the key is missing; [c.get(key)] is
    [None] then. *)
Inductive key_error : Type := KeyError (key : string).

Definition getitem (c : comment) (key : string) : key_error + pyval :=
  match c !! key with
  | Some v => inr v
  | None => inl (KeyError key)
  end.

Definition dict_get (c : comment) (key : string) : pyval :=
  default PyNone (c !! key).

(** The dict [dic] that is built for a comment; its ['children'] list holds
    locations of the store of such dicts. *)
Record cdict : Type := CDict {
  c_id : pyval;
  c_name : pyval;
  c_content : pyval;
  c_parent_id : pyval;
  c_post_id : pyval;
  c_children : list loc
}.

(** [cid = comment['id']], [pid = comment.get('parent_id')] and the dict
    display [{'id': cid, 'name': comment['name'], ...}], whose values are
    evaluated from left to right. *)
Definition new_dic (c : comment) : key_error + cdict :=
  match getitem c "id" with
  | inl e => inl e
  | inr cid =>
      let pid := dict_get c "parent_id" in
      match getitem c "name" with
      | inl e => inl e
      | inr name =>
          match getitem c "content" with
          | inl e => inl e
          | inr content =>
              match getitem c "post_id" with
              | inl e => inl e
              | inr post_id =>
                  inr {| c_id := cid; c_name := name; c_content := content;
                         c_parent_id := pid; c_post_id := post_id;
                         c_children := [] |}
              end
          end
      end
  end.

(** [for item in tmp_list: if item['id'] == pid:
    item['children'].append(dic); break] *)
Fixpoint append_reply (h : list cdict) (tmp_list : list loc) (pid : pyval)
    (dic : loc) : list cdict :=
  match tmp_list with
  | [] => h
  | item :: rest =>
      match h !! item with
      | Some d =>
          if decide (c_id d = pid) then
            <[item := {| c_id := c_id d; c_name := c_name d;
                         c_content := c_content d;
                         c_parent_id := c_parent_id d;
                         c_post_id := c_post_id d;
                         c_children := c_children d ++ [dic] |}]> h
          else append_reply h rest pid dic
      | None => h
      end
  end.

(** The loop over [comment_list].  Every iteration creates the dict [dic]
    at a new location of the store [h].  [tmp_list] is the list the source
    initialises to [[]]; the loop never appends to it (the one [append] is
    commented out in the source). *)
Fixpoint format_loop (comment_list : list comment) (h : list cdict)
    (formated_list tmp_list : list loc)
  : key_error + (list cdict * list loc) :=
  match comment_list with
  | [] => inr (h, formated_list)
  | c :: rest =>
      match new_dic c with
      | inl e => inl e
      | inr d =>
          let dic := length h in
          let h1 := h ++ [d] in
          if truthy (c_parent_id d) then
            format_loop rest (append_reply h1 tmp_list (c_parent_id d) dic)
              formated_list tmp_list
          else format_loop rest h1 (formated_list ++ [dic]) tmp_list
      end
  end.

(** [format_comments(comment_list)]: the store of the dicts it created and
    the locations in the list it returns, or the [KeyError] it raised. *)
Definition format_comments (comment_list : list comment)
  : key_error + (list cdict * list loc) :=
  format_loop comment_list [] [] [].

(** * The vocabulary of the properties *)

(** ** Forests as values *)

(** A dict without a ['children'] key. *)
Definition leaf (r : row) : node := Node r None.

(** The list under ['children'], empty when the key is absent. *)
Definition kids_of (n : node) : list node := default [] (node_children n).

(** All the nodes of a tree, the node itself first (pre-order). *)
Fixpoint subnodes (n : node) : list node :=
  let '(Node _ cs) := n in
  n :: match cs with
       | Some l => l ≫= subnodes
       | None => []
       end.

(** The flat list of the rows of a forest, across all nesting levels. *)
Definition flatten (forest : list node) : list row :=
  node_fields <$> (forest ≫= subnodes).

(** The root test of the first loop, [not item["parent_id"]], on a row. *)
Definition is_root (r : row) : bool := falsy (parent_id r).
Definition is_nonroot (r : row) : bool := negb (falsy (parent_id r)).

(** [owner_ok o r]: a row may sit in the list owned by [o], where [o] is
    [None] for the top level and [Some i] for the children of dict [i]. *)
Definition owner_ok (owner : option Z) (r : row) : bool :=
  match owner with
  | None => falsy (parent_id r)
  | Some z => negb (falsy (parent_id r)) && bool_decide (parent_id r = Some z)
  end.

(** Every node sits where the code puts it: the rows with a falsy
    [parent_id] at the top level, every other row in the children of the
    dict whose id is its [parent_id]; a ['children'] list is never empty. *)
Fixpoint well_attached (owner : option Z) (n : node) : bool :=
  let '(Node r cs) := n in
  owner_ok owner r &&
  match cs with
  | None => true
  | Some [] => false
  | Some l => forallb (well_attached (Some (id r))) l
  end.

(** [nested_under nonroot o n]: in the tree [n], sitting in the list owned by
    [o], every node that [nonroot] classifies as a non-root lies in the
    children of the node whose id is its [parent_id]. *)
Fixpoint nested_under (nonroot : row → bool) (owner : option Z) (n : node)
  : bool :=
  let '(Node r cs) := n in
  (negb (nonroot r) || bool_decide (owner = parent_id r)) &&
  match cs with
  | None => true
  | Some l => forallb (nested_under nonroot (Some (id r))) l
  end.

(** "Non-root" read as "[parent_id] is not null". *)
Definition non_null_parent (r : row) : bool :=
  bool_decide (is_Some (parent_id r)).

(** The rows that name [z] as their parent. *)
Definition child_rows (z : Z) (l : list row) : list row :=
  filter (λ r, owner_ok (Some z) r) l.

(** The nesting depth of a node: the recursion [view] needs to read it. *)
Fixpoint height (n : node) : nat :=
  let '(Node _ cs) := n in
  match cs with
  | None => 1
  | Some l => S (foldr (λ c m, height c `max` m) 0 l)
  end.

Definition forest_height (forest : list node) : nat :=
  foldr (λ c m, height c `max` m) 0 forest.

(** The bucket the spec describes for a label: the top-level nodes created
    in that month, in forest order. *)
Definition bucket_of (forest : list node) (label : string)
  : string * list entry :=
  (label,
   entry_of <$>
     filter (λ obj, strftime_Ym (created_time (node_fields obj)) = label)
       forest).

(** ** The parent graph of an input *)

(** The record a truthy [parent_id] refers to, with its position. *)
Definition parent_of (rows : list row) (r : row) : option (loc * row) :=
  if is_nonroot r then
    match parent_id r with
    | Some z => list_find (λ q, id q = z) rows
    | None => None
    end
  else None.

(** The record reached by following [k] parent references. *)
Fixpoint ancestor (rows : list row) (k : nat) (r : row) : option row :=
  match k with
  | O => Some r
  | S k' =>
      match parent_of rows r with
      | Some (_, q) => ancestor rows k' q
      | None => None
      end
  end.

(** Fully resolvable: every truthy [parent_id] is the id of a record. *)
Definition resolvable (rows : list row) : Prop :=
  ∀ r, r ∈ rows → is_nonroot r = true →
       ∃ q, q ∈ rows ∧ parent_id r = Some (id q).

(** Acyclic: following parent references never leads back to the start. *)
Definition acyclic (rows : list row) : Prop :=
  ∀ r k, r ∈ rows → 0 < k → ancestor rows k r ≠ Some r.

(** The number of parent references between a record and a root. *)
Fixpoint depth (fuel : nat) (rows : list row) (r : row) : option nat :=
  match fuel with
  | O => None
  | S fuel' =>
      if is_nonroot r then
        match parent_of rows r with
        | Some (_, q) => S <$> depth fuel' rows q
        | None => None
        end
      else Some 0
  end.

(** A decidable sufficient condition for [resolvable] and [acyclic]. *)
Definition grounded (rows : list row) : bool :=
  forallb (λ r, bool_decide (is_Some (depth (length rows) rows r))) rows.

(** ** Runs that do not raise *)

(** The run returns or is cut off by the step budget. *)
Definition no_raise {A} (m : outcome A) : Prop := ∀ e, m ≠ Raised e.

(** ** Months and their labels *)

(** The dates a [datetime.date] can hold, and the timestamps whose year
    [strftime('%Y')] prints with four digits. *)
Definition valid_date (d : date) : Prop :=
  (1 ≤ d_year d ≤ 9999)%Z ∧ (1 ≤ d_month d ≤ 12)%Z.
Definition valid_time (t : datetime) : Prop :=
  (1000 ≤ year t ≤ 9999)%Z ∧ (1 ≤ month t ≤ 12)%Z.

(** The timestamp [t] lies in the month of the date [d]. *)
Definition in_month (d : date) (t : datetime) : Prop :=
  year t = d_year d ∧ month t = d_month d.

#[global] Instance in_month_dec d t : Decision (in_month d t).
Proof. unfold in_month. apply _. Defined.

(** The posts whose month prints as [label]. *)
Definition labelled (label : string) (posts : list post) : list post :=
  filter (λ p, strftime_Ym (p_created_time p) = label) posts.

(** ** Comments *)

(** The keys [format_comments] indexes, in the order in which it reads
    them, and the first of them that a comment lacks. *)
Definition required_keys : list string := ["id"; "name"; "content"; "post_id"].

Definition missing_key (c : comment) : option string :=
  head (filter (λ k, c !! k = None) required_keys).

(** The dict of a comment, with an empty ['children'] list. *)
Definition childless (c : comment) : cdict :=
  {| c_id := dict_get c "id"; c_name := dict_get c "name";
     c_content := dict_get c "content";
     c_parent_id := dict_get c "parent_id";
     c_post_id := dict_get c "post_id"; c_children := [] |}.

(** A comment that is not a reply: its [parent_id] is missing, [None], [0]
    or the empty string. *)
Definition top_level (c : comment) : Prop :=
  truthy (dict_get c "parent_id") = false.

#[global] Instance top_level_dec c : Decision (top_level c).
Proof. unfold top_level. apply _. Defined.

(** ** Example inputs *)

Definition t0 : datetime := DateTime 2021 5 1 0 0 0.
Definition mk (i : Z) (p : option Z) : row := Row i EmptyString t0 t0 p.
Definition hole (i : Z) (c : string) (t : datetime) (p : option Z) : row :=
  Row i c t t p.

Definition chain_input : list row :=
  [mk 1 None; mk 2 (Some 1%Z); mk 3 (Some 2%Z); mk 4 None].

Definition dangling_input : list row := [mk 1 (Some 99%Z)].

Definition zero_parent_input : list row := [mk 0 None; mk 5 (Some 0%Z)].

(** A record with id 0, a record whose [parent_id] is 0, and a reply to the
    latter; and what the code returns on them. *)
Definition zero_and_reply_input : list row :=
  [mk 0 None; mk 5 (Some 0%Z); mk 6 (Some 5%Z)].

Definition zero_and_reply_forest : list node :=
  [Node (mk 0 None) None;
   Node (mk 5 (Some 0%Z)) (Some [Node (mk 6 (Some 5%Z)) None])].

Definition mutation_input : list row := [mk 1 None; mk 2 (Some 1%Z)].

(** A reply listed before its parent, and a later sibling. *)
Definition late_parent_input : list row :=
  [mk 3 (Some 2%Z); mk 2 (Some 1%Z); mk 1 None; mk 4 (Some 2%Z)].

(** Two equal rows with id 2, which the data model rules out. *)
Definition duplicate_input : list row :=
  [mk 1 None; mk 5 None; mk 2 (Some 7%Z); mk 7 (Some 5%Z); mk 2 (Some 7%Z);
   mk 9 (Some 2%Z)].

(** The forest the specification writes down for [chain_input], every leaf
    with an empty ['children'] list. *)
Definition chain_with_empty_children : list node :=
  [Node (mk 1 None)
     (Some [Node (mk 2 (Some 1%Z))
              (Some [Node (mk 3 (Some 2%Z)) (Some [])])]);
   Node (mk 4 None) (Some [])].

(** What the code returns on that input: no ['children'] key on a leaf. *)
Definition chain_forest : list node :=
  [Node (mk 1 None)
     (Some [Node (mk 2 (Some 1%Z)) (Some [leaf (mk 3 (Some 2%Z))])]);
   leaf (mk 4 None)].

Definition may_june_table : list row :=
  [hole 1 "first" (DateTime 2021 5 3 10 20 30) None;
   hole 2 "second" (DateTime 2021 6 1 8 0 0) None;
   hole 3 "reply" (DateTime 2021 6 2 9 15 0) (Some 1%Z)].

Definition may_june_forest : list node :=
  [Node (hole 1 "first" (DateTime 2021 5 3 10 20 30) None)
     (Some [leaf (hole 3 "reply" (DateTime 2021 6 2 9 15 0) (Some 1%Z))]);
   leaf (hole 2 "second" (DateTime 2021 6 1 8 0 0) None)].

(** A reply to a record that is not in the list, after two good records. *)
Definition stray_reply_input : list row :=
  [mk 1 None; mk 2 (Some 1%Z); mk 3 (Some 99%Z)].

(** Every reply before the record it replies to, as in a list of comments
    that is ordered newest first. *)
Definition newest_first_input : list row :=
  [mk 5 (Some 2%Z); mk 4 (Some 1%Z); mk 3 None; mk 2 (Some 1%Z); mk 1 None].

Definition newest_first_forest : list node :=
  [leaf (mk 3 None);
   Node (mk 1 None)
     (Some [leaf (mk 4 (Some 1%Z));
            Node (mk 2 (Some 1%Z)) (Some [leaf (mk 5 (Some 2%Z))])])].

(** What the code returns on [duplicate_input]. *)
Definition duplicate_forest : list node :=
  [leaf (mk 1 None);
   Node (mk 5 None)
     (Some [Node (mk 7 (Some 5%Z))
              (Some [Node (mk 2 (Some 7%Z)) (Some [leaf (mk 9 (Some 2%Z))]);
                     Node (mk 2 (Some 7%Z)) (Some [leaf (mk 9 (Some 2%Z))])])])].

(** The store [list_to_tree] leaves behind for [chain_input]. *)
Definition chain_store : list dict :=
  [Dict (mk 1 None) (Some [1]); Dict (mk 2 (Some 1%Z)) (Some [2]);
   Dict (mk 3 (Some 2%Z)) None; Dict (mk 4 None) None].

(** Two months of an archive, and four posts, one of them of another
    month. *)
Definition march_april : list date := [Date 2021 4 1; Date 2021 3 1].

Definition four_posts : list post :=
  [Post 1 "a" (DateTime 2021 3 5 12 0 0);
   Post 2 "b" (DateTime 2021 4 1 0 0 1);
   Post 3 "c" (DateTime 2020 12 24 18 30 0);
   Post 4 "d" (DateTime 2021 3 31 23 59 59)].

(** Two comments and a reply to the first. *)
Definition comment_of (i : Z) (name text : string) (p : pyval) : comment :=
  {[ "id" := PyInt i; "name" := PyStr name; "content" := PyStr text;
     "parent_id" := p; "post_id" := PyInt 7 ]}.

Definition thread : list comment :=
  [comment_of 1 "ann" "first" PyNone;
   comment_of 2 "bob" "reply" (PyInt 1);
   comment_of 3 "cy" "second" PyNone].

(** * The store during a run *)

(** ** Locations and the rows behind them *)

(** A test on the row a location was created from. *)
Definition loc_sat (P : row → bool) (rows : list row) (l : loc) : bool :=
  match rows !! l with
  | Some r => P r
  | None => false
  end.

(** Dict [c] names dict [p] as its parent (and is not a root). *)
Definition is_child (rows : list row) (c p : loc) : Prop :=
  match rows !! c, rows !! p with
  | Some r, Some q => owner_ok (Some (id q)) r = true
  | _, _ => False
  end.

#[global] Instance is_child_dec rows c p : Decision (is_child rows c p).
Proof. unfold is_child. destruct (rows !! c), (rows !! p); apply _. Defined.

(** Location [l] was created from row [r]. *)
Definition row_at (rows : list row) (l : loc) (r : row) : Prop :=
  rows !! l = Some r.

(** The locations of the roots and of the other records, in input order. *)
Definition root_locs (rows : list row) : list loc :=
  filter (λ y, loc_sat is_root rows y) (seq 0 (length rows)).
Definition nonroot_locs (rows : list row) : list loc :=
  filter (λ y, loc_sat is_nonroot rows y) (seq 0 (length rows)).

(** A row to stand for a lookup outside the input. *)
Definition no_row : row :=
  Row 0 EmptyString (DateTime 0 0 0 0 0 0) (DateTime 0 0 0 0 0 0) None.

(** The rank used for such an input: the depth of the record. *)
Definition depth_at (rows : list row) (l : loc) : nat :=
  match rows !! l with
  | Some r => default 0 (depth (length rows) rows r)
  | None => 0
  end.

(** ** Invariants *)

(** Elements whose columns differ from those of [item] are skipped. *)
Definition differs_from (h : heap) (d : dict) (y : loc) : Prop :=
  ∃ dy, h !! y = Some dy ∧ fields dy ≠ fields d.

(** The list under ['children'] of a dict of the store. *)
Definition kids_at (d : dict) : list loc := default [] (children d).

(** What every store reached by the code satisfies, whatever the input:
    the columns are those of the rows, and a ['children'] list is non-empty
    and holds children of its owner only. *)
Record attached (rows : list row) (h : heap) : Prop := {
  att_fields : fields <$> h = rows;
  att_kids : ∀ p d cs, h !! p = Some d → children d = Some cs →
             cs ≠ [] ∧ Forall (λ c, is_child rows c p) cs
}.

(** The state between two steps of the loops: what [lst] still holds, and
    what the ['children'] lists hold in exchange. *)
Record inv (rows : list row) (h : heap) (lst : list loc) : Prop := {
  inv_att : attached rows h;
  inv_nodup : NoDup lst;
  inv_nonroot : Forall (λ c, loc_sat is_nonroot rows c = true) lst;
  inv_kids_nodup : ∀ p d, h !! p = Some d → NoDup (kids_at d);
  inv_kids : ∀ p d c,
    h !! p = Some d → is_child rows c p → c ∉ lst → c ∈ kids_at d;
  inv_placed : ∀ p d c,
    h !! p = Some d → c ∈ kids_at d → (c ∉ lst) ∧ (p ∉ lst)
}.

(** In one pass over such an input every ['children'] list grows in the
    order of the input. *)
Definition kids_sorted (h : heap) (lst : list loc) : Prop :=
  ∀ p d, h !! p = Some d →
    StronglySorted lt (kids_at d) ∧
    ∀ k c, k ∈ kids_at d → c ∈ lst → k < c.

(** A location whose row names the id [z] as its parent. *)
Definition names_parent (rows : list row) (z : Z) (c : loc) : Prop :=
  ∃ r, rows !! c = Some r ∧ parent_id r = Some z.

(** The states the [while] loop goes through: the state after the first
    loop, and the state after each pass. *)
Inductive pass_state (fuel : nat) (rows : list row)
  : list dict → list loc → Prop :=
  | pass_first : pass_state fuel rows (alloc rows) (nonroot_locs rows)
  | pass_next h lst h' lst' :
      pass_state fuel rows h lst →
      attach_loop fuel (root_locs rows) lst h lst = Done (h', lst') →
      pass_state fuel rows h' lst'.

(** The dicts that the loops of [find_parent] can visit from [ls]. *)
Inductive reach (h : heap) (ls : list loc) : loc → Prop :=
  | reach_top l : l ∈ ls → reach h ls l
  | reach_kid p d c :
      reach h ls p → h !! p = Some d → c ∈ kids_at d → reach h ls c.

(** The pre-order enumeration of the dicts below [ls], as [view] reads
    them. *)
Inductive walk (h : heap) : list loc → list loc → Prop :=
  | walk_nil : walk h [] []
  | walk_cons l ls d wk wr :
      h !! l = Some d → walk h (kids_at d) wk → walk h ls wr →
      walk h (l :: ls) (l :: wk ++ wr).

(** Occurrences of a location in a list, and in the ['children'] lists of
    the dicts of a list. *)
Definition occ (x : loc) (l : list loc) : nat := count_occ Nat.eq_dec l x.

Definition kids_loc (h : heap) (q : loc) : list loc :=
  match h !! q with
  | Some d => kids_at d
  | None => []
  end.

Fixpoint kid_occ (h : heap) (x : loc) (w : list loc) : nat :=
  match w with
  | [] => 0
  | q :: w' => occ x (kids_loc h q) + kid_occ h x w'
  end.

(** Every row is still in the list, or it is the row of a dict that can be
    reached from [tree]. *)
Definition rows_kept (rows : list row) (h : heap) (tree lst : list loc)
  : Prop :=
  ∀ l r, rows !! l = Some r →
         l ∈ lst ∨ ∃ l', reach h tree l' ∧ rows !! l' = Some r.

(** The state between two passes over an input in which every reply comes
    before its parent: a dict that has children has all of them, in input
    order. *)
Record inv_between (rows : list row) (h : heap) (lst : list loc) : Prop := {
  btw_inv : inv rows h lst;
  btw_sorted : ∀ p d, h !! p = Some d → StronglySorted lt (kids_at d);
  btw_complete : ∀ p d c,
    h !! p = Some d → kids_at d ≠ [] → c ∈ lst → ¬ is_child rows c p
}.

(** * Properties *)

(** ** Equations of the recursive definitions *)

Lemma bind_Done {A B} (m : outcome A) (k : A → outcome B) (b : B) :
  m ≫= k = Done b → ∃ a, m = Done a ∧ k a = Done b.
Proof. destruct m as [a| |]; simpl; intros H; try discriminate. by exists a. Qed.

Lemma fmap_Done {A B} (g : A → B) (m : outcome A) (b : B) :
  g <$> m = Done b → ∃ a, m = Done a ∧ b = g a.
Proof.
  destruct m as [a| |]; simpl; intros H; try discriminate.
  exists a. split; [done|]. by injection H.
Qed.

Lemma deref_Done h l d : deref h l = Done d ↔ h !! l = Some d.
Proof.
  unfold deref. destruct (h !! l) as [d'|]; split; intros H;
    try discriminate; congruence.
Qed.

Lemma deref_lookup h l d : h !! l = Some d → deref h l = Done d.
Proof. apply deref_Done. Qed.

Lemma find_parent_nil fuel h item :
  find_parent (S fuel) h [] item = Done None.
Proof. reflexivity. Qed.

Lemma find_parent_cons fuel h p ps item :
  find_parent (S fuel) h (p :: ps) item =
  (p_item ← deref h p;
   if id_matches p_item item then Done (Some p)
   else match children p_item with
        | Some cs =>
            result ← find_parent fuel h cs item;
            match result with
            | Some q => Done (Some q)
            | None => find_parent (S fuel) h ps item
            end
        | None => find_parent (S fuel) h ps item
        end).
Proof. reflexivity. Qed.

Lemma view_nil fuel h : view (S fuel) h [] = Done [].
Proof. reflexivity. Qed.

Lemma view_cons fuel h l ls :
  view (S fuel) h (l :: ls) =
  (d ← deref h l;
   cs ← match children d with
        | None => Done None
        | Some c => Some <$> view fuel h c
        end;
   ns ← view (S fuel) h ls;
   Done (Node (fields d) cs :: ns)).
Proof. reflexivity. Qed.

(** Case analysis on a bind that is known to return. *)
Ltac bind_inv H :=
  let a := fresh "a" in
  let Ha := fresh "Ha" in
  apply bind_Done in H; destruct H as (a & Ha & H).

(** ** The dangling parent reference *)

Lemma dangling_while passes fuel h :
  h = alloc dangling_input →
  while_loop passes fuel [] h [0] = OutOfFuel.
Proof.
  intros ->. induction passes as [|passes IH]; [reflexivity|].
  destruct fuel as [|fuel]; [reflexivity|].
  simpl in *. exact IH.
Qed.

(** C2: on [[{id:1, parent_id:99}]] no step budget lets [list_to_tree]
    return or raise: the [while] loop never exits. *)
Theorem dangling_reference_never_returns :
  ∀ fuel, list_to_tree fuel dangling_input = OutOfFuel.
Proof.
  intros fuel. unfold list_to_tree, list_to_tree_run. simpl.
  by rewrite dangling_while.
Qed.

(** ** [list.remove] *)

Lemma dict_eqb_refl fuel h a : dict_eqb fuel h a a = Done true.
Proof. destruct fuel; simpl; by rewrite bool_decide_eq_true_2. Qed.

Lemma dict_eqb_fields_ne_S fuel h a b da db :
  h !! a = Some da → h !! b = Some db → fields da ≠ fields db →
  dict_eqb (S fuel) h a b = Done false.
Proof.
  intros Ha Hb Hne. simpl.
  rewrite bool_decide_eq_false_2; [|intros ->; by simplify_eq].
  unfold deref. rewrite Ha, Hb. simpl.
  by rewrite bool_decide_eq_false_2.
Qed.

Lemma dict_eqb_fields_ne fuel h a b da db e :
  h !! a = Some da → h !! b = Some db → fields da ≠ fields db →
  dict_eqb fuel h a b = Done e → e = false.
Proof.
  intros Ha Hb Hne. destruct fuel as [|fuel].
  - simpl. rewrite bool_decide_eq_false_2; [done|intros ->; by simplify_eq].
  - rewrite (dict_eqb_fields_ne_S _ _ _ _ _ _ Ha Hb Hne). congruence.
Qed.

Lemma list_remove_sublist fuel h item lst lst' :
  list_remove fuel h item lst = Done lst' →
  lst' `sublist_of` lst ∧ length lst = S (length lst').
Proof.
  revert lst'. induction lst as [|y lst IH]; intros lst' H; [done|].
  simpl in H. bind_inv H. destruct a.
  - injection H as <-. split; [by apply sublist_cons|done].
  - bind_inv H. injection H as <-. destruct (IH _ Ha0) as [Hs Hl].
    split; [by apply sublist_skip|simpl; by rewrite Hl].
Qed.

Lemma list_remove_skip fuel h item d kept rest r :
  h !! item = Some d → Forall (differs_from h d) kept →
  list_remove fuel h item (kept ++ item :: rest) = Done r →
  r = kept ++ rest.
Proof.
  intros Hd Hk. revert r. induction Hk as [|y kept (dy & Hy & Hne) _ IH];
    intros r H; simpl in H.
  - rewrite dict_eqb_refl in H. simpl in H. by injection H.
  - bind_inv H.
    rewrite (dict_eqb_fields_ne _ _ _ _ _ _ _ Hy Hd Hne Ha) in H.
    bind_inv H. injection H as <-. simpl. f_equal. by apply IH.
Qed.

Lemma list_remove_skip_S fuel h item d kept rest :
  h !! item = Some d → Forall (differs_from h d) kept →
  list_remove (S fuel) h item (kept ++ item :: rest) = Done (kept ++ rest).
Proof.
  intros Hd Hk. induction Hk as [|y kept (dy & Hy & Hne) _ IH].
  - cbn [app list_remove]. by rewrite dict_eqb_refl.
  - cbn [app list_remove].
    rewrite (dict_eqb_fields_ne_S _ _ _ _ _ _ Hy Hd Hne).
    cbn [mbind outcome_bind]. by rewrite IH.
Qed.

(** ** [find_parent] returns a dict with the wanted id *)

Lemma find_parent_sound fuel h tree item p :
  find_parent fuel h tree item = Done (Some p) →
  ∃ p_item, h !! p = Some p_item ∧ id_matches p_item item = true.
Proof.
  revert tree p. induction fuel as [|fuel IHf]; intros tree p; [done|].
  induction tree as [|q tree IHt]; [done|].
  rewrite find_parent_cons. intros H. bind_inv H.
  apply deref_Done in Ha.
  destruct (id_matches a item) eqn:Hm.
  - injection H as <-. eauto.
  - destruct (children a) as [cs|]; [|by apply IHt].
    bind_inv H. destruct a0 as [q'|]; [|by apply IHt].
    injection H as <-. by apply IHf in Ha0.
Qed.

(** ** Induction on nodes *)

Lemma node_ind' (P : node → Prop) :
  (∀ r, P (Node r None)) →
  (∀ r cs, Forall P cs → P (Node r (Some cs))) →
  ∀ n, P n.
Proof.
  intros Hleaf Hnode. fix IH 1. intros [r [cs|]]; [|apply Hleaf].
  apply Hnode. induction cs as [|c cs IHcs]; constructor; [apply IH|exact IHcs].
Qed.

(** ** Stores attached to the rows *)

Lemma attached_lookup rows h l d :
  attached rows h → h !! l = Some d → rows !! l = Some (fields d).
Proof. intros [<- _] Hl. by rewrite list_lookup_fmap, Hl. Qed.

Lemma attached_lookup_inv rows h l r :
  attached rows h → rows !! l = Some r →
  ∃ d, h !! l = Some d ∧ fields d = r.
Proof.
  intros [<- _] Hl. rewrite list_lookup_fmap in Hl.
  destruct (h !! l) as [d|]; [|done]. exists d. split; [done|].
  by injection Hl.
Qed.

Lemma alloc_lookup rows l d :
  alloc rows !! l = Some d → rows !! l = Some (fields d) ∧ children d = None.
Proof.
  unfold alloc. rewrite list_lookup_fmap.
  destruct (rows !! l) as [r|]; [|done]. simpl. by intros [= <-].
Qed.

Lemma alloc_attached rows : attached rows (alloc rows).
Proof.
  split.
  - unfold alloc. rewrite <- list_fmap_compose.
    rewrite <- (list_fmap_id rows) at 2. by apply list_fmap_ext.
  - intros p d cs Hp Hc. apply alloc_lookup in Hp as [_ Hn]. congruence.
Qed.

Lemma attached_insert rows h p p_item c :
  attached rows h → h !! p = Some p_item → is_child rows c p →
  attached rows (<[p := append_child p_item c]> h).
Proof.
  intros [Hf Hk] Hp Hc. split.
  - rewrite list_fmap_insert. simpl. rewrite <- Hf.
    apply list_insert_id. by rewrite list_lookup_fmap, Hp.
  - intros q d cs Hq Hcs. destruct (decide (p = q)) as [<-|Hne].
    + rewrite list_lookup_insert_eq in Hq by (by eapply lookup_lt_Some).
      injection Hq as <-. simpl in Hcs. injection Hcs as <-.
      split; [by destruct (default [] (children p_item))|].
      apply Forall_app. split; [|by repeat constructor].
      destruct (children p_item) as [cs|] eqn:Hcs; [|by constructor].
      by apply (Hk p p_item cs).
    + rewrite list_lookup_insert_ne in Hq by done. by apply (Hk q d cs).
Qed.

Lemma find_parent_child rows fuel h tree c d p :
  attached rows h → h !! c = Some d → is_nonroot (fields d) = true →
  find_parent fuel h tree d = Done (Some p) → is_child rows c p.
Proof.
  intros Ha Hc Hn Hf. apply find_parent_sound in Hf as (p_item & Hp & Hm).
  unfold is_child.
  rewrite (attached_lookup _ _ _ _ Ha Hc), (attached_lookup _ _ _ _ Ha Hp).
  unfold owner_ok. apply andb_true_iff. split; [exact Hn|].
  apply bool_decide_eq_true. apply bool_decide_eq_true in Hm. done.
Qed.

Lemma loc_sat_lookup P rows h l d :
  attached rows h → h !! l = Some d → loc_sat P rows l = P (fields d).
Proof.
  intros Ha Hl. unfold loc_sat. by rewrite (attached_lookup _ _ _ _ Ha Hl).
Qed.

Lemma nonroot_differs rows h d y :
  attached rows h → is_root (fields d) = true →
  loc_sat is_nonroot rows y → differs_from h d y.
Proof.
  intros Ha Hd Hy. unfold loc_sat in Hy.
  destruct (rows !! y) as [r|] eqn:Hr; [|done].
  destruct (attached_lookup_inv _ _ _ _ Ha Hr) as (dy & Hdy & <-).
  exists dy. split; [done|]. intros Heq. rewrite Heq in Hy.
  unfold is_nonroot, is_root in *. rewrite Hd in Hy. done.
Qed.

(** Decide a boolean test on a location from its known value. *)
Ltac sat_with H :=
  cbv beta; rewrite H; simpl; first [exact I | intros []].

(** ** The first loop splits the list into roots and the rest *)

Lemma roots_loop_spec rows fuel h snapshot tree kept t l :
  attached rows h → Forall (λ y, loc_sat is_nonroot rows y) kept →
  roots_loop fuel h snapshot tree (kept ++ snapshot) = Done (t, l) →
  t = tree ++ filter (λ y, loc_sat is_root rows y) snapshot ∧
  l = kept ++ filter (λ y, loc_sat is_nonroot rows y) snapshot.
Proof.
  intros Ha. revert tree kept.
  induction snapshot as [|item rest IH]; intros tree kept Hk H.
  - injection H as <- <-. by rewrite filter_nil, !app_nil_r.
  - cbn [roots_loop] in H. bind_inv H. apply deref_Done in Ha0.
    rewrite !filter_cons.
    assert (loc_sat is_root rows item = falsy (parent_id (fields a))) as Hr
      by exact (loc_sat_lookup is_root _ _ _ _ Ha Ha0).
    assert (loc_sat is_nonroot rows item = negb (falsy (parent_id (fields a))))
      as Hn by exact (loc_sat_lookup is_nonroot _ _ _ _ Ha Ha0).
    destruct (falsy (parent_id (fields a))) eqn:Hf.
    + bind_inv H.
      apply (list_remove_skip _ _ _ a) in Ha1; [|done|].
      2:{ eapply Forall_impl; [exact Hk|]. intros y Hy.
          by eapply nonroot_differs. }
      subst a0. apply IH in H as [-> ->]; [|done].
      rewrite decide_True by sat_with Hr.
      rewrite decide_False by sat_with Hn.
      by rewrite <- app_assoc.
    + rewrite (cons_middle item), app_assoc in H.
      apply IH in H as [-> ->].
      2:{ apply Forall_app. split; [done|]. repeat constructor. sat_with Hn. }
      rewrite decide_False by sat_with Hr.
      rewrite decide_True by sat_with Hn.
      by rewrite <- app_assoc.
Qed.

Lemma roots_loop_total rows fuel h snapshot tree kept :
  attached rows h → Forall (λ y, loc_sat is_nonroot rows y) kept →
  Forall (λ y, y < length rows) snapshot →
  roots_loop (S fuel) h snapshot tree (kept ++ snapshot) =
  Done (tree ++ filter (λ y, loc_sat is_root rows y) snapshot,
        kept ++ filter (λ y, loc_sat is_nonroot rows y) snapshot).
Proof.
  intros Ha. revert tree kept.
  induction snapshot as [|item rest IH]; intros tree kept Hk Hv.
  - by rewrite filter_nil, !app_nil_r.
  - apply Forall_cons in Hv as [Hi Hv].
    destruct (lookup_lt_is_Some_2 rows item Hi) as [r Hr].
    destruct (attached_lookup_inv _ _ _ _ Ha Hr) as (d & Hd & <-).
    cbn [roots_loop]. unfold deref at 1. rewrite Hd. cbn [mbind outcome_bind].
    rewrite !filter_cons.
    assert (loc_sat is_root rows item = falsy (parent_id (fields d))) as Hr'
      by exact (loc_sat_lookup is_root _ _ _ _ Ha Hd).
    assert (loc_sat is_nonroot rows item = negb (falsy (parent_id (fields d))))
      as Hn by exact (loc_sat_lookup is_nonroot _ _ _ _ Ha Hd).
    destruct (falsy (parent_id (fields d))) eqn:Hf.
    + rewrite (list_remove_skip_S _ _ _ d); [|done|].
      2:{ eapply Forall_impl; [exact Hk|]. intros y Hy.
          by eapply nonroot_differs. }
      cbn [mbind outcome_bind]. rewrite IH by done.
      rewrite decide_True by sat_with Hr'.
      rewrite decide_False by sat_with Hn.
      by rewrite <- app_assoc.
    + rewrite (cons_middle item), app_assoc.
      rewrite IH; [| |done].
      2:{ apply Forall_app. split; [done|]. repeat constructor. sat_with Hn. }
      rewrite decide_False by sat_with Hr'.
      rewrite decide_True by sat_with Hn.
      by rewrite <- app_assoc.
Qed.

(** ** The [while] loop keeps the store well attached *)

Lemma attach_loop_attached rows fuel tree snapshot h lst h' lst' :
  attached rows h → Forall (λ c, loc_sat is_nonroot rows c) snapshot →
  attach_loop fuel tree snapshot h lst = Done (h', lst') →
  attached rows h' ∧ lst' `sublist_of` lst.
Proof.
  revert h lst. induction snapshot as [|item rest IH]; intros h lst Ha Hs H.
  - by injection H as <- <-.
  - apply Forall_cons in Hs as [Hi Hs].
    cbn [attach_loop] in H. bind_inv H. apply deref_Done in Ha0.
    bind_inv H. destruct a0 as [p|]; [|by apply IH in H].
    bind_inv H. apply deref_Done in Ha2. cbn zeta in H. bind_inv H.
    apply IH in H as [Ha' Hsub]; [| |done].
    + split; [done|]. etrans; [exact Hsub|].
      by apply list_remove_sublist in Ha3 as [? _].
    + apply attached_insert; [done..|].
      eapply find_parent_child; [done..| |done].
      cbv beta in Hi. rewrite (loc_sat_lookup _ _ _ _ _ Ha Ha0) in Hi.
      by apply Is_true_true.
Qed.

Lemma while_loop_attached rows passes fuel tree h lst h' lst' :
  attached rows h → Forall (λ c, loc_sat is_nonroot rows c) lst →
  while_loop passes fuel tree h lst = Done (h', lst') →
  attached rows h' ∧ lst' = [].
Proof.
  revert h lst. induction passes as [|passes IH]; intros h lst Ha Hl H.
  - destruct lst; [by injection H as <- <-|done].
  - destruct lst as [|c lst]; [by injection H as <- <-|].
    cbn [while_loop] in H. bind_inv H. destruct a as [h1 l1].
    apply attach_loop_attached with (rows := rows) in Ha0 as [Ha1 Hsub];
      [|done..].
    apply IH in H; [done..|].
    apply Forall_forall. intros x Hx. apply sublist_subseteq in Hsub.
    rewrite Forall_forall in Hl. by apply Hl, Hsub.
Qed.

Lemma run_attached rows fuel out :
  list_to_tree_run fuel (alloc rows) (fresh_list rows) = Done out →
  attached rows (store out) ∧ remaining out = [] ∧
  returned out = root_locs rows.
Proof.
  unfold list_to_tree_run. intros H. bind_inv H. destruct a as [tree lst1].
  bind_inv H. destruct a as [h' lst2]. injection H as <-. simpl.
  apply (roots_loop_spec rows _ _ _ [] []) in Ha as [-> ->];
    [|apply alloc_attached|constructor].
  apply while_loop_attached with (rows := rows) in Ha0 as [? ->].
  - done.
  - apply alloc_attached.
  - apply Forall_forall. intros x Hx. simpl in Hx.
    by apply list_elem_of_filter in Hx as [? _].
Qed.

(** ** Locations of a fresh list and the rows behind them *)

Lemma fresh_rows rows : Forall2 (row_at rows) (fresh_list rows) rows.
Proof.
  apply Forall2_same_length_lookup_2.
  - unfold fresh_list. by rewrite length_seq.
  - intros i x y Hx Hy. unfold fresh_list in Hx.
    apply lookup_seq in Hx as [-> _]. exact Hy.
Qed.

Lemma filter_fresh_rows (P : row → bool) rows :
  Forall2 (row_at rows)
    (filter (λ l, loc_sat P rows l) (fresh_list rows))
    (filter (λ r, P r) rows).
Proof.
  apply Forall2_filter; [|apply fresh_rows].
  intros l r Hl. unfold row_at in Hl. unfold loc_sat. by rewrite Hl.
Qed.

Lemma row_at_functional rows ls rs1 rs2 :
  Forall2 (row_at rows) ls rs1 → Forall2 (row_at rows) ls rs2 → rs1 = rs2.
Proof.
  intros H1. revert rs2. induction H1 as [|l r ls rs1 Hl _ IH]; intros rs2 H2.
  - by apply Forall2_nil_inv_l in H2.
  - apply Forall2_cons_inv_l in H2 as (r' & rs2' & Hl' & H2 & ->).
    unfold row_at in *. f_equal; [congruence|by apply IH].
Qed.

(** ** What [view] reads *)

Lemma view_fields rows fuel h ls forest :
  attached rows h → view fuel h ls = Done forest →
  Forall2 (row_at rows) ls (node_fields <$> forest).
Proof.
  intros Ha. destruct fuel as [|fuel]; [done|]. revert forest.
  induction ls as [|l ls IH]; intros forest H.
  - rewrite view_nil in H. injection H as <-. constructor.
  - rewrite view_cons in H. bind_inv H. apply deref_Done in Ha0.
    bind_inv H. bind_inv H. injection H as <-. csimpl.
    constructor; [by eapply attached_lookup|by apply IH].
Qed.

Lemma view_length fuel h ls forest :
  view fuel h ls = Done forest → length forest = length ls.
Proof.
  destruct fuel as [|fuel]; [done|]. revert forest.
  induction ls as [|l ls IH]; intros forest H.
  - rewrite view_nil in H. by injection H as <-.
  - rewrite view_cons in H. do 3 bind_inv H. injection H as <-.
    simpl. f_equal. by apply IH.
Qed.

Lemma is_child_owner_ok rows h c p d :
  attached rows h → h !! p = Some d → is_child rows c p →
  loc_sat (owner_ok (Some (id (fields d)))) rows c = true.
Proof.
  intros Ha Hp Hc. unfold is_child in Hc. unfold loc_sat.
  rewrite (attached_lookup _ _ _ _ Ha Hp) in Hc.
  by destruct (rows !! c).
Qed.

Lemma view_attached rows fuel h ls owner forest :
  attached rows h → view fuel h ls = Done forest →
  Forall (λ l, loc_sat (owner_ok owner) rows l = true) ls →
  forallb (well_attached owner) forest = true.
Proof.
  intros Ha. revert ls owner forest.
  induction fuel as [|fuel IHf]; intros ls owner forest; [done|].
  revert forest. induction ls as [|l ls IHl]; intros forest H Hls.
  - rewrite view_nil in H. by injection H as <-.
  - apply Forall_cons in Hls as [Hl Hls].
    rewrite view_cons in H. bind_inv H. apply deref_Done in Ha0.
    bind_inv H. bind_inv H. injection H as <-.
    cbn [forallb well_attached]. rewrite (IHl _ Ha2 Hls), andb_true_r.
    rewrite (loc_sat_lookup _ _ _ _ _ Ha Ha0) in Hl. rewrite Hl. simpl.
    destruct (children a) as [cs|] eqn:Hcs.
    + apply fmap_Done in Ha1 as (fc & Hfc & ->).
      destruct (att_kids _ _ Ha _ _ _ Ha0 Hcs) as [Hne Hch].
      pose proof (view_length _ _ _ _ Hfc) as Hlen.
      assert (forallb (well_attached (Some (id (fields a)))) fc = true) as Hw.
      { apply (IHf cs); [done|]. eapply Forall_impl; [exact Hch|].
        intros c Hc. by eapply is_child_owner_ok. }
      destruct fc; [by destruct cs|done].
    + by injection Ha1 as <-.
Qed.

(** The forest returned by [list_to_tree]: its top level holds the rows
    with a falsy [parent_id], in input order, and it is well attached. *)
Lemma list_to_tree_shape fuel rows forest :
  list_to_tree fuel rows = Done forest →
  node_fields <$> forest = filter (λ r, is_root r) rows ∧
  forallb (well_attached None) forest = true.
Proof.
  unfold list_to_tree. intros H. bind_inv H.
  apply run_attached in Ha as (Ha & _ & Hret). rewrite Hret in H. split.
  - eapply row_at_functional; [by eapply view_fields|].
    apply filter_fresh_rows.
  - eapply view_attached; [done..|].
    apply Forall_forall. intros l Hl.
    apply list_elem_of_filter in Hl as [Hl _]. by apply Is_true_true.
Qed.

(** ** Well-attached forests *)

Lemma forallb_elem {A} (f : A → bool) (l : list A) (x : A) :
  forallb f l = true → x ∈ l → f x = true.
Proof.
  intros H Hx. induction Hx as [x l|x y l _ IH]; simpl in H;
    apply andb_true_iff in H as [H1 H2]; [done|by apply IH].
Qed.

Lemma forallb_intro {A} (f : A → bool) (l : list A) :
  Forall (λ x, f x = true) l → forallb f l = true.
Proof. induction 1 as [|x l Hx _ IH]; [done|]. simpl. by rewrite Hx, IH. Qed.

Lemma well_attached_Node owner r cs :
  well_attached owner (Node r (Some cs)) = true ↔
  owner_ok owner r = true ∧ cs ≠ [] ∧
  forallb (well_attached (Some (id r))) cs = true.
Proof.
  cbn [well_attached]. rewrite andb_true_iff. destruct cs as [|c cs].
  - split; [by intros [_ ?]|by intros (_ & ? & _)].
  - split; [by intros [? ?]|by intros (? & _ & ?)].
Qed.

Lemma well_attached_leaf owner r :
  well_attached owner (Node r None) = true ↔ owner_ok owner r = true.
Proof. cbn [well_attached]. by rewrite andb_true_r. Qed.

Lemma well_attached_nested n :
  ∀ owner, well_attached owner n = true →
           nested_under is_nonroot owner n = true.
Proof.
  induction n as [r|r cs IH] using node_ind'; intros owner Hw.
  - apply well_attached_leaf in Hw. cbn [nested_under].
    rewrite andb_true_r. unfold owner_ok, is_nonroot in *.
    destruct owner as [z|].
    + apply andb_true_iff in Hw as [_ Hw]. apply bool_decide_eq_true in Hw.
      rewrite (bool_decide_eq_true_2 _ (eq_sym Hw)). apply orb_true_r.
    + by rewrite Hw.
  - apply well_attached_Node in Hw as (Ho & _ & Hcs). cbn [nested_under].
    apply andb_true_iff. split.
    + unfold owner_ok, is_nonroot in *. destruct owner as [z|].
      * apply andb_true_iff in Ho as [_ Ho]. apply bool_decide_eq_true in Ho.
        rewrite (bool_decide_eq_true_2 _ (eq_sym Ho)). apply orb_true_r.
      * by rewrite Ho.
    + apply forallb_intro. rewrite Forall_forall in IH |- *.
      intros c Hc. apply IH; [done|]. by eapply forallb_elem.
Qed.

Lemma well_attached_children n :
  ∀ owner, well_attached owner n = true →
  ∀ m cs c, m ∈ subnodes n → node_children m = Some cs → c ∈ cs →
            owner_ok (Some (id (node_fields m))) (node_fields c) = true.
Proof.
  induction n as [r|r cs IH] using node_ind'; intros owner Hw m cs' c Hm Hcs Hc.
  - cbn [subnodes] in Hm. apply list_elem_of_singleton in Hm as ->. done.
  - apply well_attached_Node in Hw as (_ & _ & Hw). cbn [subnodes] in Hm.
    apply elem_of_cons in Hm as [->|Hm].
    + simpl in Hcs. injection Hcs as <-.
      pose proof (forallb_elem _ _ _ Hw Hc) as Hwc.
      destruct c as [rc [l|]]; simpl.
      * by apply well_attached_Node in Hwc as [? _].
      * by apply well_attached_leaf in Hwc.
    + apply list_elem_of_bind in Hm as (y & Hm & Hy).
      rewrite Forall_forall in IH.
      eapply (IH y Hy); [by eapply forallb_elem|done..].
Qed.

(** ** Inputs with a dangling parent reference *)

Lemma dict_eqb_true fuel h x y :
  dict_eqb fuel h x y = Done true →
  x = y ∨ ∃ dx dy, h !! x = Some dx ∧ h !! y = Some dy ∧ fields dx = fields dy.
Proof.
  destruct (decide (x = y)) as [->|Hne]; [by left|]. intros H. right.
  destruct fuel as [|fuel]; simpl in H;
    rewrite bool_decide_eq_false_2 in H by done; [done|].
  apply bind_Done in H as (dx & Hx%deref_Done & H).
  apply bind_Done in H as (dy & Hy%deref_Done & H).
  destruct (decide (fields dx = fields dy)) as [Heq|Hneq].
  - by exists dx, dy.
  - by rewrite bool_decide_eq_false_2 in H.
Qed.

Lemma list_remove_keeps fuel h item lst lst' c :
  list_remove fuel h item lst = Done lst' → c ∈ lst →
  c ∈ lst' ∨ dict_eqb fuel h c item = Done true.
Proof.
  revert lst'. induction lst as [|y lst IH]; intros lst' H Hc.
  - by apply elem_of_nil in Hc.
  - cbn [list_remove] in H. bind_inv H. destruct a.
    + injection H as <-. apply elem_of_cons in Hc as [->|Hc]; [by right|by left].
    + bind_inv H. injection H as <-.
      apply elem_of_cons in Hc as [->|Hc].
      * left. apply elem_of_cons. by left.
      * destruct (IH _ Ha0 Hc) as [?|?]; [|by right].
        left. apply elem_of_cons. by right.
Qed.

Lemma attach_loop_dangling rows z fuel tree snapshot :
  z ∉ id <$> rows →
  ∀ h lst h' lst' c,
    attached rows h →
    Forall (λ c, loc_sat is_nonroot rows c) snapshot →
    attach_loop fuel tree snapshot h lst = Done (h', lst') →
    c ∈ lst → names_parent rows z c → c ∈ lst'.
Proof.
  intros Hz. induction snapshot as [|item rest IH];
    intros h lst h' lst' c Ha Hs H Hc Hnames.
  - by injection H as <- <-.
  - apply Forall_cons in Hs as [Hi Hs].
    cbn [attach_loop] in H. bind_inv H. apply deref_Done in Ha0.
    bind_inv H. destruct a0 as [p|]; [|by eapply IH].
    bind_inv H. apply deref_Done in Ha2. cbn zeta in H. bind_inv H.
    assert (is_child rows item p) as Hch.
    { eapply find_parent_child; [done..| |done].
      cbv beta in Hi. rewrite (loc_sat_lookup _ _ _ _ _ Ha Ha0) in Hi.
      by apply Is_true_true. }
    pose proof (attached_insert _ _ _ _ _ Ha Ha2 Hch) as Ha'.
    eapply (IH _ _ _ _ c Ha' Hs H); [|done].
    destruct (list_remove_keeps _ _ _ _ _ c Ha3 Hc) as [?|Heq]; [done|].
    exfalso. apply Hz. destruct Hnames as (r & Hr & Hpz).
    assert (rows !! item = Some r) as Hir.
    { apply dict_eqb_true in Heq as [->|(dc & di & Hdc & Hdi & Hf)]; [done|].
      rewrite (attached_lookup _ _ _ _ Ha' Hdi), <- Hf.
      by rewrite <- (attached_lookup _ _ _ _ Ha' Hdc). }
    unfold is_child in Hch. rewrite Hir in Hch.
    destruct (rows !! p) as [q|] eqn:Hq; [|done].
    unfold owner_ok in Hch. apply andb_true_iff in Hch as [_ Hch].
    apply bool_decide_eq_true in Hch.
    apply list_elem_of_fmap. exists q.
    split; [congruence|by eapply list_elem_of_lookup_2].
Qed.

Lemma while_loop_dangling rows z passes fuel tree :
  z ∉ id <$> rows →
  ∀ h lst h' lst' c,
    attached rows h →
    Forall (λ c, loc_sat is_nonroot rows c) lst →
    c ∈ lst → names_parent rows z c →
    while_loop passes fuel tree h lst ≠ Done (h', lst').
Proof.
  intros Hz. induction passes as [|passes IH];
    intros h lst h' lst' c Ha Hl Hc Hnames H.
  - destruct lst; [by apply elem_of_nil in Hc|done].
  - destruct lst as [|c0 l0] eqn:Hlst; [by apply elem_of_nil in Hc|].
    rewrite <- Hlst in *. rewrite Hlst in H at 1. cbn [while_loop] in H.
    rewrite <- Hlst in H. bind_inv H. destruct a as [h1 l1].
    pose proof (attach_loop_dangling rows z _ _ _ Hz _ _ _ _ c Ha Hl Ha0 Hc
                  Hnames) as Hc1.
    apply attach_loop_attached with (rows := rows) in Ha0 as [Ha1 Hsub];
      [|done..].
    apply (IH _ _ _ _ c Ha1) in H; [done| |done..].
    apply Forall_forall. intros x Hx. apply sublist_subseteq in Hsub.
    rewrite Forall_forall in Hl. by apply Hl, Hsub.
Qed.

(** Whatever the rest of the input, a record whose truthy [parent_id] is
    the id of no record keeps [list_to_tree] from returning. *)
Lemma dangling_parent_never_returns fuel rows r z forest :
  r ∈ rows → parent_id r = Some z → z ≠ 0%Z → z ∉ id <$> rows →
  list_to_tree fuel rows ≠ Done forest.
Proof.
  intros Hr Hp Hz0 Hz H. unfold list_to_tree in H. bind_inv H. clear H.
  unfold list_to_tree_run in Ha. bind_inv Ha. destruct a0 as [tree lst1].
  bind_inv Ha. destruct a0 as [h' lst2].
  apply (roots_loop_spec rows _ _ _ [] []) in Ha0 as [-> ->];
    [|apply alloc_attached|constructor].
  apply list_elem_of_lookup_1 in Hr as [c Hc]. simpl in Ha1.
  apply (while_loop_dangling rows z _ _ _ Hz _ _ _ _ c) in Ha1; [done|..].
  - apply alloc_attached.
  - apply Forall_forall. intros x Hx.
    by apply list_elem_of_filter in Hx as [? _].
  - apply list_elem_of_filter. split.
    + apply Is_true_true. unfold loc_sat. rewrite Hc. unfold is_nonroot, falsy.
      rewrite Hp. by rewrite bool_decide_eq_false_2.
    + apply elem_of_seq. apply lookup_lt_Some in Hc. lia.
  - by exists r.
Qed.

(** ** Theorems that hold for every input *)

(** C3, as stated, fails: with "non-root" read as "non-null [parent_id]",
    the record [{id:5, parent_id:0}] is returned at the top level although
    a record with id 0 is in the forest. *)
Lemma non_null_parent_left_at_top :
  list_to_tree 3 zero_parent_input =
    Done [leaf (mk 0 None); leaf (mk 5 (Some 0%Z))] ∧
  forallb (nested_under non_null_parent None)
    [leaf (mk 0 None); leaf (mk 5 (Some 0%Z))] = false.
Proof. split; vm_compute; reflexivity. Qed.

(** C3, amended: in every forest [list_to_tree] returns, every node whose
    [parent_id] is truthy (neither null nor 0) lies in the children of a
    node whose id equals that [parent_id], and only such nodes lie in a
    ['children'] list; a record whose [parent_id] is 0 is a top-level node
    and lies in no ['children'] list. *)
Theorem truthy_parent_nested_under_parent fuel rows forest :
  list_to_tree fuel rows = Done forest →
  forallb (nested_under is_nonroot None) forest = true ∧
  (∀ n cs c, n ∈ forest ≫= subnodes → node_children n = Some cs → c ∈ cs →
             is_nonroot (node_fields c) = true ∧
             parent_id (node_fields c) = Some (id (node_fields n))) ∧
  (∀ r, r ∈ rows → parent_id r = Some 0%Z →
        r ∈ node_fields <$> forest ∧
        ∀ n cs, n ∈ forest ≫= subnodes → node_children n = Some cs →
                r ∉ node_fields <$> cs).
Proof.
  intros H. apply list_to_tree_shape in H as [Htop Hw].
  assert (∀ n cs c, n ∈ forest ≫= subnodes → node_children n = Some cs →
            c ∈ cs →
            owner_ok (Some (id (node_fields n))) (node_fields c) = true)
    as Hkids.
  { intros n cs c Hn Hcs Hc. apply list_elem_of_bind in Hn as (t & Hn & Ht).
    pose proof (forallb_elem _ _ _ Hw Ht) as Hwt.
    exact (well_attached_children _ _ Hwt _ _ _ Hn Hcs Hc). }
  split; [|split].
  - apply forallb_intro, Forall_forall. intros n Hn.
    apply well_attached_nested. by eapply forallb_elem.
  - intros n cs c Hn Hcs Hc. pose proof (Hkids n cs c Hn Hcs Hc) as Ho.
    unfold owner_ok in Ho. apply andb_true_iff in Ho as [Hnr Hp].
    split; [exact Hnr|]. by apply bool_decide_eq_true in Hp.
  - intros r Hr Hp. split.
    + rewrite Htop. apply list_elem_of_filter. split; [|done].
      unfold is_root. by rewrite Hp.
    + intros n cs Hn Hcs Hin.
      apply list_elem_of_fmap in Hin as (c & -> & Hc).
      pose proof (Hkids n cs c Hn Hcs Hc) as Ho.
      unfold owner_ok in Ho. rewrite Hp in Ho. done.
Qed.

Lemma truthy_parent_nested_witness :
  forallb (nested_under is_nonroot None) zero_and_reply_forest = true ∧
  (∀ n cs c, n ∈ zero_and_reply_forest ≫= subnodes →
             node_children n = Some cs → c ∈ cs →
             is_nonroot (node_fields c) = true ∧
             parent_id (node_fields c) = Some (id (node_fields n))) ∧
  (∀ r, r ∈ zero_and_reply_input → parent_id r = Some 0%Z →
        r ∈ node_fields <$> zero_and_reply_forest ∧
        ∀ n cs, n ∈ zero_and_reply_forest ≫= subnodes →
                node_children n = Some cs → r ∉ node_fields <$> cs).
Proof.
  apply (truthy_parent_nested_under_parent 4 zero_and_reply_input).
  vm_compute. reflexivity.
Defined.

(** C10: a record whose [parent_id] is falsy (null or 0) is returned at the
    top level of the forest and occurs in no ['children'] list. *)
Theorem falsy_parent_is_top_level fuel rows forest r :
  list_to_tree fuel rows = Done forest →
  r ∈ rows → falsy (parent_id r) = true →
  r ∈ node_fields <$> forest ∧
  ∀ n cs, n ∈ forest ≫= subnodes → node_children n = Some cs →
          r ∉ node_fields <$> cs.
Proof.
  intros H Hr Hf. apply list_to_tree_shape in H as [Htop Hw]. split.
  - rewrite Htop. apply list_elem_of_filter. split; [|done].
    unfold is_root. by rewrite Hf.
  - intros n cs Hn Hcs Hin.
    apply list_elem_of_bind in Hn as (t & Hn & Ht).
    apply list_elem_of_fmap in Hin as (c & -> & Hc).
    pose proof (forallb_elem _ _ _ Hw Ht) as Hwt.
    pose proof (well_attached_children _ _ Hwt _ _ _ Hn Hcs Hc) as Ho.
    unfold owner_ok in Ho. rewrite Hf in Ho. done.
Qed.

Lemma falsy_parent_witness :
  mk 5 (Some 0%Z) ∈ node_fields <$> [leaf (mk 0 None); leaf (mk 5 (Some 0%Z))] ∧
  ∀ n cs, n ∈ [leaf (mk 0 None); leaf (mk 5 (Some 0%Z))] ≫= subnodes →
          node_children n = Some cs → mk 5 (Some 0%Z) ∉ node_fields <$> cs.
Proof.
  apply (falsy_parent_is_top_level 3 zero_parent_input).
  - vm_compute. reflexivity.
  - unfold zero_parent_input. apply list_elem_of_In. simpl. tauto.
  - reflexivity.
Defined.

(** C9, as stated, fails: after the call the argument list is empty and the
    dict of record 1 has gained a ['children'] key. *)
Lemma argument_is_mutated :
  list_to_tree_run 3 (alloc mutation_input) (fresh_list mutation_input) =
    Done (Final [Dict (mk 1 None) (Some [1]); Dict (mk 2 (Some 1%Z)) None]
            [] [0]) ∧
  [] ≠ fresh_list mutation_input ∧
  [Dict (mk 1 None) (Some [1]); Dict (mk 2 (Some 1%Z)) None]
    ≠ alloc mutation_input.
Proof. split; [vm_compute; reflexivity|]. split; discriminate. Qed.

(** C9, amended: [list_to_tree] works in place.  When it returns, the
    argument list has been emptied, the returned list holds the dicts of the
    argument whose [parent_id] is falsy, and every dict keeps the columns it
    had; the only change to a dict is the ['children'] key, which is set on
    the dicts that received a child and holds those children: dicts of the
    argument that name the dict as their parent. *)
Theorem list_to_tree_works_in_place fuel rows out :
  list_to_tree_run fuel (alloc rows) (fresh_list rows) = Done out →
  remaining out = [] ∧
  returned out ⊆ fresh_list rows ∧
  fields <$> store out = rows ∧
  returned out = root_locs rows ∧
  (∀ p d cs, store out !! p = Some d → children d = Some cs →
             cs ≠ [] ∧ cs ⊆ fresh_list rows ∧
             Forall (λ c, is_child rows c p) cs).
Proof.
  intros H. apply run_attached in H as (Ha & Hrem & Hret).
  split; [done|]. split; [|split; [by destruct Ha|split; [done|]]].
  - rewrite Hret. apply list_subseteq_filter.
  - intros p d cs Hp Hcs.
    destruct (att_kids _ _ Ha _ _ _ Hp Hcs) as [Hne Hall].
    split; [done|]. split; [|done]. intros c Hc.
    rewrite Forall_forall in Hall. specialize (Hall c Hc).
    unfold is_child in Hall. destruct (rows !! c) eqn:Hr; [|done].
    apply elem_of_seq. apply lookup_lt_Some in Hr. lia.
Qed.

Lemma list_to_tree_in_place_witness :
  remaining (Final [Dict (mk 1 None) (Some [1]); Dict (mk 2 (Some 1%Z)) None]
               [] [0]) = [] ∧
  returned (Final [Dict (mk 1 None) (Some [1]); Dict (mk 2 (Some 1%Z)) None]
              [] [0]) ⊆ fresh_list mutation_input ∧
  fields <$> store (Final [Dict (mk 1 None) (Some [1]);
                           Dict (mk 2 (Some 1%Z)) None] [] [0])
    = mutation_input ∧
  returned (Final [Dict (mk 1 None) (Some [1]); Dict (mk 2 (Some 1%Z)) None]
              [] [0]) = root_locs mutation_input ∧
  (∀ p d cs,
     store (Final [Dict (mk 1 None) (Some [1]); Dict (mk 2 (Some 1%Z)) None]
              [] [0]) !! p = Some d →
     children d = Some cs →
     cs ≠ [] ∧ cs ⊆ fresh_list mutation_input ∧
     Forall (λ c, is_child mutation_input c p) cs).
Proof.
  apply (list_to_tree_works_in_place 3 mutation_input).
  vm_compute. reflexivity.
Defined.

(** C5, as stated, fails: the leaves 3 and 4 carry no ['children'] key, so
    the forest with empty ['children'] lists is never returned. *)
Lemma chain_leaves_have_no_children_key :
  ¬ ∃ fuel, list_to_tree fuel chain_input = Done chain_with_empty_children.
Proof.
  intros [fuel H]. apply list_to_tree_shape in H as [_ H]. discriminate H.
Qed.

(** C5, amended: on the four-record input the chain 1, 2, 3 is nested in
    order and 4 is a second root; the leaves 3 and 4 have no ['children']. *)
Theorem chain_scenario fuel :
  3 ≤ fuel → list_to_tree fuel chain_input = Done chain_forest.
Proof.
  intros Hf. destruct fuel as [|[|[|fuel]]]; [lia..|]. reflexivity.
Qed.

Lemma chain_scenario_witness : list_to_tree 3 chain_input = Done chain_forest.
Proof. apply (chain_scenario 3). lia. Defined.

(** ** Inputs made of roots only *)

Lemma filter_all {A} (P : A → Prop) `{∀ x, Decision (P x)} (l : list A) :
  Forall P l → filter P l = l.
Proof.
  induction 1 as [|x l Hx _ IH]; [done|].
  by rewrite filter_cons_True, IH.
Qed.

Lemma filter_none {A} (P : A → Prop) `{∀ x, Decision (P x)} (l : list A) :
  Forall (λ x, ¬ P x) l → filter P l = [].
Proof.
  induction 1 as [|x l Hx _ IH]; [done|].
  by rewrite filter_cons_False, IH.
Qed.

Lemma fresh_list_valid rows : Forall (λ y, y < length rows) (fresh_list rows).
Proof.
  apply Forall_forall. intros y Hy. apply elem_of_seq in Hy. lia.
Qed.

Lemma view_alloc rows fuel ls rs :
  Forall2 (row_at rows) ls rs →
  view (S fuel) (alloc rows) ls = Done (leaf <$> rs).
Proof.
  induction 1 as [|l r ls rs Hl _ IH]; [done|].
  assert (alloc rows !! l = Some (Dict r None)) as Hd.
  { unfold alloc. rewrite list_lookup_fmap. unfold row_at in Hl.
    by rewrite Hl. }
  rewrite view_cons. unfold deref. rewrite Hd.
  cbn [mbind outcome_bind fields children]. by rewrite IH.
Qed.

Lemma only_roots_general fuel rows :
  Forall (λ r, is_root r = true) rows →
  list_to_tree (S fuel) rows = Done (leaf <$> rows).
Proof.
  intros Hall.
  assert (Forall (λ y, loc_sat is_root rows y = true) (fresh_list rows)) as Hr.
  { apply Forall_forall. intros y Hy. unfold loc_sat.
    destruct (rows !! y) as [r|] eqn:Hry.
    - rewrite Forall_forall in Hall. apply Hall.
      by eapply list_elem_of_lookup_2.
    - apply elem_of_seq in Hy. apply lookup_ge_None in Hry. lia. }
  unfold list_to_tree, list_to_tree_run.
  pose proof (roots_loop_total rows fuel (alloc rows) (fresh_list rows) [] [])
    as Hloop.
  simpl in Hloop. rewrite Hloop;
    [|apply alloc_attached|constructor|apply fresh_list_valid].
  rewrite filter_all.
  2:{ eapply Forall_impl; [exact Hr|]. intros y Hy. by apply Is_true_true. }
  rewrite filter_none.
  2:{ eapply Forall_impl; [exact Hr|]. intros y Hy Hn.
      apply Is_true_true in Hn. unfold loc_sat in *.
      destruct (rows !! y); [|done]. unfold is_root, is_nonroot in *.
      rewrite Hy in Hn. done. }
  cbn [mbind outcome_bind while_loop store returned].
  apply view_alloc, fresh_rows.
Qed.

(** C6: when every record has a null [parent_id], the output is the input
    sequence in the same order and no record has a ['children'] key. *)
Theorem only_roots_unchanged fuel rows :
  Forall (λ r, parent_id r = None) rows → 1 ≤ fuel →
  list_to_tree fuel rows = Done (leaf <$> rows).
Proof.
  intros Hall Hf. destruct fuel as [|fuel]; [lia|].
  apply only_roots_general. eapply Forall_impl; [exact Hall|].
  intros r Hr. unfold is_root. by rewrite Hr.
Qed.

Lemma only_roots_witness :
  list_to_tree 1 [mk 4 None; mk 1 None] = Done [leaf (mk 4 None); leaf (mk 1 None)].
Proof.
  apply (only_roots_unchanged 1 [mk 4 None; mk 1 None]); [|lia].
  repeat constructor.
Defined.

(** ** Reachable dicts *)

Lemma reach_nil h q : ¬ reach h [] q.
Proof.
  induction 1 as [l Hl|p d c _ IH _ _]; [by apply elem_of_nil in Hl|done].
Qed.

Lemma reach_mono h ls ls' q : ls ⊆ ls' → reach h ls q → reach h ls' q.
Proof.
  intros Hsub. induction 1 as [l Hl|p d c _ IH Hp Hc].
  - apply reach_top. by apply Hsub.
  - by eapply reach_kid.
Qed.

Lemma reach_below h ls p d q :
  p ∈ ls → h !! p = Some d → reach h (kids_at d) q → reach h ls q.
Proof.
  intros Hp Hd. induction 1 as [l Hl|p' d' c _ IH Hp' Hc].
  - eapply reach_kid; [by apply reach_top|done..].
  - by eapply reach_kid.
Qed.

Lemma reach_cons_inv h p ps d q :
  h !! p = Some d → reach h (p :: ps) q →
  q = p ∨ reach h (kids_at d) q ∨ reach h ps q.
Proof.
  intros Hd. induction 1 as [l Hl|p' d' c _ IH Hp' Hc].
  - apply elem_of_cons in Hl as [->|Hl]; [by left|].
    right. right. by apply reach_top.
  - destruct IH as [->|[IH|IH]].
    + right. left. apply reach_top. congruence.
    + right. left. by eapply reach_kid.
    + right. right. by eapply reach_kid.
Qed.

(** ** The store in pre-order *)

Lemma row_at_fmap rows ls rs :
  Forall2 (row_at rows) ls rs →
  rs = (λ l, default no_row (rows !! l)) <$> ls.
Proof.
  induction 1 as [|l r ls rs Hl _ IH]; [done|].
  unfold row_at in Hl. csimpl. by rewrite Hl, <- IH.
Qed.

Lemma row_at_Permutation rows w fl :
  Forall2 (row_at rows) w fl → w ≡ₚ fresh_list rows → fl ≡ₚ rows.
Proof.
  intros Hw Hp. rewrite (row_at_fmap _ _ _ Hw).
  etrans; [by apply fmap_Permutation|].
  by rewrite <- (row_at_fmap _ _ _ (fresh_rows rows)).
Qed.

Lemma flatten_cons r cs ns :
  flatten (Node r cs :: ns) = r :: flatten (default [] cs) ++ flatten ns.
Proof.
  unfold flatten. rewrite bind_cons, fmap_app. cbn [subnodes].
  rewrite fmap_cons. simpl. by destruct cs.
Qed.

Lemma view_walk rows fuel h ls forest :
  attached rows h → view fuel h ls = Done forest →
  ∃ w, walk h ls w ∧ Forall2 (row_at rows) w (flatten forest).
Proof.
  intros Ha. revert ls forest.
  induction fuel as [|fuel IHf]; intros ls forest; [done|].
  revert forest. induction ls as [|l ls IHl]; intros forest H.
  - rewrite view_nil in H. injection H as <-. exists []. split; constructor.
  - rewrite view_cons in H. bind_inv H. apply deref_Done in Ha0.
    bind_inv H. bind_inv H. injection H as <-.
    destruct (IHl _ Ha2) as (wr & Hwr & Hfr).
    assert (∃ wk, walk h (kids_at a) wk ∧
                  Forall2 (row_at rows) wk (flatten (default [] a0)))
      as (wk & Hwk & Hfk).
    { unfold kids_at. destruct (children a) as [cs|].
      - apply fmap_Done in Ha1 as (fc & Hfc & ->). by apply IHf.
      - injection Ha1 as <-. exists []. split; constructor. }
    exists (l :: wk ++ wr). split; [by econstructor|].
    rewrite flatten_cons. constructor; [by eapply attached_lookup|].
    by apply Forall2_app.
Qed.

Lemma walk_valid h ls w x : walk h ls w → x ∈ w → x < length h.
Proof.
  induction 1 as [|l ls d wk wr Hl _ IHk _ IHr]; intros Hx.
  - by apply elem_of_nil in Hx.
  - apply elem_of_cons in Hx as [->|Hx]; [by eapply lookup_lt_Some|].
    apply elem_of_app in Hx as [Hx|Hx]; auto.
Qed.

Lemma occ_app x l1 l2 : occ x (l1 ++ l2) = occ x l1 + occ x l2.
Proof. apply count_occ_app. Qed.

Lemma occ_cons x y l :
  occ x (y :: l) = (if decide (y = x) then 1 else 0) + occ x l.
Proof.
  unfold occ. destruct (decide (y = x)) as [->|Hne].
  - by rewrite count_occ_cons_eq.
  - by rewrite count_occ_cons_neq.
Qed.

Lemma kid_occ_app h x w1 w2 :
  kid_occ h x (w1 ++ w2) = kid_occ h x w1 + kid_occ h x w2.
Proof. induction w1 as [|q w1 IH]; simpl; [done|]. rewrite IH. lia. Qed.

(** Every occurrence in the enumeration is a top-level one or comes from
    the ['children'] of an enumerated dict. *)
Lemma walk_count h ls w x :
  walk h ls w → occ x w = occ x ls + kid_occ h x w.
Proof.
  induction 1 as [|l ls d wk wr Hl _ IHk _ IHr]; [done|].
  rewrite !occ_cons, occ_app, IHk, IHr. cbn [kid_occ].
  rewrite kid_occ_app. unfold kids_loc at 1. rewrite Hl. lia.
Qed.

Lemma occ_absent x l : x ∉ l → occ x l = 0.
Proof.
  intros Hx. apply count_occ_not_In. by rewrite <- list_elem_of_In.
Qed.

Lemma occ_once x l : NoDup l → x ∈ l → occ x l = 1.
Proof.
  intros Hnd Hx. apply NoDup_ListNoDup in Hnd.
  apply (proj1 (NoDup_count_occ' Nat.eq_dec l) Hnd).
  by apply list_elem_of_In.
Qed.

(** ** Runs on inputs whose parent references are ranked *)

(** The section assumes unique ids and a rank [dep] on locations that
    every parent reference decreases. *)

Section ranked_input.
Variable rows : list row.
Variable dep : loc → nat.
Hypothesis ids_nodup : NoDup (id <$> rows).
Hypothesis parent_before : ∀ c r,
  rows !! c = Some r → is_nonroot r = true →
  ∃ p, is_child rows c p ∧ dep p < dep c.
Hypothesis dep_bound : ∀ c, c < length rows → dep c < length rows.

Lemma same_id_same_loc l1 l2 r1 r2 :
  rows !! l1 = Some r1 → rows !! l2 = Some r2 → id r1 = id r2 → l1 = l2.
Proof using ids_nodup.
  intros H1 H2 Hid. eapply NoDup_alt; [exact ids_nodup| |].
  - rewrite list_lookup_fmap, H1. done.
  - rewrite list_lookup_fmap, H2. simpl. by rewrite Hid.
Qed.

Lemma is_child_unique c p p' :
  is_child rows c p → is_child rows c p' → p = p'.
Proof using ids_nodup.
  unfold is_child, owner_ok. intros H1 H2.
  destruct (rows !! c) as [r|]; [|done].
  destruct (rows !! p) as [q|] eqn:Hq; [|done].
  destruct (rows !! p') as [q'|] eqn:Hq'; [|done].
  apply andb_true_iff in H1 as [_ H1]. apply andb_true_iff in H2 as [_ H2].
  apply bool_decide_eq_true in H1. apply bool_decide_eq_true in H2.
  eapply same_id_same_loc; [done..|]. congruence.
Qed.

Lemma is_child_valid c p :
  is_child rows c p →
  loc_sat is_nonroot rows c = true ∧ c < length rows ∧ p < length rows.
Proof.
  unfold is_child, owner_ok, loc_sat. intros H.
  destruct (rows !! c) as [r|] eqn:Hr; [|done].
  destruct (rows !! p) as [q|] eqn:Hq; [|done].
  apply andb_true_iff in H as [H _].
  split; [done|]. split; eapply lookup_lt_Some; done.
Qed.

Lemma nonroot_valid c :
  loc_sat is_nonroot rows c = true → c < length rows.
Proof.
  unfold loc_sat. destruct (rows !! c) eqn:Hc; [|done].
  intros _. by eapply lookup_lt_Some.
Qed.

Lemma nonroot_not_root c :
  loc_sat is_nonroot rows c = true → c ∉ root_locs rows.
Proof.
  unfold root_locs, loc_sat. intros Hc Hin.
  apply list_elem_of_filter in Hin as [Hin _]. unfold loc_sat in Hin.
  destruct (rows !! c); [|done]. unfold is_nonroot, is_root in *.
  destruct (falsy (parent_id r)); done.
Qed.

Lemma inv_lookup h lst l :
  inv rows h lst → l < length rows → ∃ d, h !! l = Some d.
Proof.
  intros [[Hf _] _ _ _ _ _] Hl. apply lookup_lt_is_Some_2.
  by rewrite <- (length_fmap fields), Hf.
Qed.

Lemma inv_kid_child h lst p d c :
  inv rows h lst → h !! p = Some d → c ∈ kids_at d → is_child rows c p.
Proof.
  intros Hi Hp Hc. unfold kids_at in Hc.
  destruct (children d) as [cs|] eqn:Hcs; [|by apply elem_of_nil in Hc].
  destruct (att_kids _ _ (inv_att _ _ _ Hi) _ _ _ Hp Hcs) as [_ Hall].
  rewrite Forall_forall in Hall. by apply Hall.
Qed.

Lemma inv_kid_deeper h lst p d c :
  inv rows h lst → h !! p = Some d → c ∈ kids_at d →
  dep p < dep c ∧ c < length rows.
Proof using ids_nodup parent_before.
  intros Hi Hp Hc. pose proof (inv_kid_child _ _ _ _ _ Hi Hp Hc) as Hch.
  destruct (is_child_valid _ _ Hch) as (Hn & Hv & _). split; [|done].
  unfold loc_sat in Hn. destruct (rows !! c) as [r|] eqn:Hr; [|done].
  destruct (parent_before _ _ Hr Hn) as (p' & Hch' & Hlt).
  by rewrite (is_child_unique _ _ _ Hch Hch').
Qed.

Lemma initial_inv : inv rows (alloc rows) (nonroot_locs rows).
Proof.
  split.
  - apply alloc_attached.
  - apply NoDup_filter, NoDup_seq.
  - apply Forall_forall. intros c Hc.
    apply list_elem_of_filter in Hc as [Hc _]. by apply Is_true_true.
  - intros p d Hp. apply alloc_lookup in Hp as [_ Hn].
    unfold kids_at. rewrite Hn. constructor.
  - intros p d c _ Hc Hnot. exfalso. apply Hnot.
    destruct (is_child_valid _ _ Hc) as (Hn & Hv & _).
    apply list_elem_of_filter. split; [by apply Is_true_true|].
    apply elem_of_seq. lia.
  - intros p d c Hp Hc. apply alloc_lookup in Hp as [_ Hn].
    unfold kids_at in Hc. rewrite Hn in Hc. by apply elem_of_nil in Hc.
Qed.

(** [find_parent] always returns when the recursion budget exceeds the
    number of rows, and its answer is about the reachable dicts. *)
Lemma find_parent_spec h lst item fuel :
  inv rows h lst →
  ∀ ls, Forall (λ l, l < length rows) ls →
        (∀ l, l ∈ ls → length rows < fuel + dep l) → 0 < fuel →
  ∃ res, find_parent fuel h ls item = Done res ∧
    match res with
    | Some p => reach h ls p
    | None => ∀ q dq, reach h ls q → h !! q = Some dq →
                      id_matches dq item = false
    end.
Proof using ids_nodup parent_before dep_bound.
  intros Hi. induction fuel as [|fuel IHf]; intros ls Hv Hfuel Hpos; [lia|].
  induction ls as [|p ps IHl].
  - exists None. split; [done|]. intros q dq Hq. by apply reach_nil in Hq.
  - apply Forall_cons in Hv as [Hp Hv].
    destruct (inv_lookup _ _ _ Hi Hp) as [d Hd].
    destruct IHl as (res & Hres & Hspec); [done| |].
    { intros l Hl. apply Hfuel. by apply elem_of_cons; right. }
    rewrite find_parent_cons. unfold deref. rewrite Hd.
    cbn [mbind outcome_bind].
    destruct (id_matches d item) eqn:Hm.
    { exists (Some p). split; [done|]. apply reach_top, elem_of_cons. by left. }
    assert (∃ res', find_parent fuel h (kids_at d) item = Done res' ∧
              match res' with
              | Some q => reach h (kids_at d) q
              | None => ∀ q dq, reach h (kids_at d) q → h !! q = Some dq →
                                id_matches dq item = false
              end) as (res' & Hres' & Hspec').
    { pose proof (Hfuel p (ltac:(apply elem_of_cons; by left))) as Hfp.
      pose proof (dep_bound _ Hp) as Hdp.
      apply IHf; [| |lia].
      - apply Forall_forall. intros c Hc.
        by destruct (inv_kid_deeper _ _ _ _ _ Hi Hd Hc) as [_ ?].
      - intros c Hc.
        destruct (inv_kid_deeper _ _ _ _ _ Hi Hd Hc) as [Hlt _]. lia. }
    assert (∀ q dq, reach h (p :: ps) q → h !! q = Some dq →
              res' = None → res = None → id_matches dq item = false)
      as Hnone.
    { intros q dq Hq Hdq -> ->.
      destruct (reach_cons_inv _ _ _ _ _ Hd Hq) as [->|[Hq'|Hq']].
      - congruence.
      - by eapply Hspec'.
      - by eapply Hspec. }
    assert (∀ q, reach h ps q → reach h (p :: ps) q) as Hlift.
    { intros q. apply reach_mono. intros x Hx. apply elem_of_cons. by right. }
    assert (∀ q, reach h (kids_at d) q → reach h (p :: ps) q) as Hdown.
    { intros q. apply (reach_below _ _ p d); [|done].
      apply elem_of_cons. by left. }
    unfold kids_at in Hres'.
    destruct (children d) as [cs|] eqn:Hcs; simpl in Hres'.
    + rewrite Hres'. cbn [mbind outcome_bind].
      destruct res' as [q|].
      * exists (Some q). split; [done|]. by apply Hdown.
      * exists res. split; [done|]. destruct res as [q|]; [by apply Hlift|].
        intros q dq Hq Hdq. by eapply Hnone.
    + exists res. split; [done|]. destruct res as [q|]; [by apply Hlift|].
      intros q dq Hq Hdq. destruct fuel as [|fuel']; [done|].
      rewrite find_parent_nil in Hres'. injection Hres' as <-.
      by eapply Hnone.
Qed.

(** The dicts reachable from [tree] are the ones no longer in [lst]. *)
Lemma reach_placed h lst l :
  inv rows h lst → reach h (root_locs rows) l → (l ∉ lst) ∧ l < length rows.
Proof using ids_nodup parent_before.
  intros Hi. induction 1 as [l Hl|p d c _ IH Hp Hc].
  - split.
    + intros Hin. pose proof (inv_nonroot _ _ _ Hi) as Hn.
      rewrite Forall_forall in Hn. by apply (nonroot_not_root l (Hn _ Hin)).
    + apply list_elem_of_filter in Hl as [_ Hl]. apply elem_of_seq in Hl. lia.
  - split.
    + by destruct (inv_placed _ _ _ Hi _ _ _ Hp Hc).
    + by destruct (inv_kid_deeper _ _ _ _ _ Hi Hp Hc).
Qed.

Lemma placed_reach h lst :
  inv rows h lst →
  ∀ l, l < length rows → l ∉ lst → reach h (root_locs rows) l.
Proof using ids_nodup parent_before.
  intros Hi l. remember (dep l) as n eqn:Hn. revert l Hn.
  induction n as [n IH] using lt_wf_ind. intros l -> Hl Hnot.
  destruct (lookup_lt_is_Some_2 rows l Hl) as [r Hr].
  destruct (is_nonroot r) eqn:Hnr.
  - destruct (parent_before _ _ Hr Hnr) as (p & Hch & Hlt).
    destruct (is_child_valid _ _ Hch) as (_ & _ & Hp).
    destruct (inv_lookup _ _ _ Hi Hp) as [d Hd].
    pose proof (inv_kids _ _ _ Hi _ _ _ Hd Hch Hnot) as Hin.
    destruct (inv_placed _ _ _ Hi _ _ _ Hd Hin) as [_ Hpn].
    eapply reach_kid; [|done..]. by eapply (IH (dep p)).
  - apply reach_top, list_elem_of_filter. split.
    + unfold loc_sat. rewrite Hr. unfold is_root, is_nonroot in *.
      by destruct (falsy (parent_id r)).
    + apply elem_of_seq. lia.
Qed.

(** One iteration of the [for] loop of the [while] body. *)
Lemma step_spec fuel h lst c :
  inv rows h lst → length rows < fuel → c ∈ lst →
  ∃ d, h !! c = Some d ∧
    ((∃ p p_item,
         find_parent fuel h (root_locs rows) d = Done (Some p) ∧
         h !! p = Some p_item ∧ is_child rows c p ∧ p ∉ lst)
     ∨ (find_parent fuel h (root_locs rows) d = Done None ∧
        ∀ p, is_child rows c p → p ∈ lst)).
Proof using ids_nodup parent_before dep_bound.
  intros Hi Hfuel Hc.
  pose proof (inv_nonroot _ _ _ Hi) as Hn. rewrite Forall_forall in Hn.
  specialize (Hn _ Hc).
  destruct (inv_lookup _ _ _ Hi (nonroot_valid _ Hn)) as [d Hd].
  exists d. split; [done|].
  destruct (find_parent_spec h lst d fuel Hi (root_locs rows))
    as (res & Hres & Hspec).
  { apply Forall_forall. intros l Hl.
    apply list_elem_of_filter in Hl as [_ Hl]. apply elem_of_seq in Hl. lia. }
  { intros l _. lia. }
  { lia. }
  destruct res as [p|].
  - left. destruct (reach_placed _ _ _ Hi Hspec) as [Hp Hv].
    destruct (inv_lookup _ _ _ Hi Hv) as [p_item Hpd].
    exists p, p_item. split; [done|]. split; [done|]. split; [|done].
    eapply find_parent_child; [by apply (inv_att _ _ _ Hi)|done| |done].
    by rewrite <- (loc_sat_lookup _ _ _ _ _ (inv_att _ _ _ Hi) Hd).
  - right. split; [done|]. intros p Hch.
    destruct (decide (p ∈ lst)) as [|Hnot]; [done|]. exfalso.
    destruct (is_child_valid _ _ Hch) as (_ & _ & Hp).
    destruct (inv_lookup _ _ _ Hi Hp) as [dp Hdp].
    pose proof (Hspec p dp (placed_reach _ _ Hi _ Hp Hnot) Hdp) as Hm.
    unfold is_child in Hch.
    rewrite (attached_lookup _ _ _ _ (inv_att _ _ _ Hi) Hd) in Hch.
    rewrite (attached_lookup _ _ _ _ (inv_att _ _ _ Hi) Hdp) in Hch.
    unfold owner_ok in Hch. apply andb_true_iff in Hch as [_ Hch].
    apply bool_decide_eq_true in Hch. unfold id_matches in Hm.
    apply bool_decide_eq_false in Hm. by apply Hm.
Qed.

(** [list.remove(item)] removes [item] itself: no other dict of the list
    has the same id. *)
Lemma list_remove_inv fuel h c l1 l2 :
  attached rows h → NoDup (l1 ++ c :: l2) →
  Forall (λ c, loc_sat is_nonroot rows c = true) (l1 ++ c :: l2) →
  list_remove (S fuel) h c (l1 ++ c :: l2) = Done (l1 ++ l2).
Proof using ids_nodup.
  intros Ha Hnd Hn. rewrite Forall_forall in Hn.
  assert (c < length rows) as Hc.
  { apply nonroot_valid, Hn, elem_of_app. right. apply elem_of_cons. by left. }
  destruct (lookup_lt_is_Some_2 rows c Hc) as [r Hr].
  destruct (attached_lookup_inv _ _ _ _ Ha Hr) as (d & Hd & <-).
  apply (list_remove_skip_S _ _ _ d); [done|].
  apply Forall_forall. intros y Hy.
  assert (y < length rows) as Hyv.
  { apply nonroot_valid, Hn, elem_of_app. by left. }
  destruct (lookup_lt_is_Some_2 rows y Hyv) as [ry Hry].
  destruct (attached_lookup_inv _ _ _ _ Ha Hry) as (dy & Hdy & <-).
  exists dy. split; [done|]. intros Heq.
  assert (y = c) as -> by (eapply same_id_same_loc; [done..|by rewrite Heq]).
  apply NoDup_app in Hnd as (_ & Hnd & _). apply (Hnd c Hy).
  apply elem_of_cons. by left.
Qed.

Lemma kids_at_append p_item c :
  kids_at (append_child p_item c) = kids_at p_item ++ [c].
Proof. reflexivity. Qed.

(** Attaching [c] under its parent [p] keeps the invariant. *)
Lemma inv_attach h l1 l2 c p p_item :
  inv rows h (l1 ++ c :: l2) → h !! p = Some p_item → is_child rows c p →
  p ∉ l1 ++ c :: l2 →
  inv rows (<[p := append_child p_item c]> h) (l1 ++ l2).
Proof using ids_nodup.
  intros Hi Hp Hch Hpn.
  assert (∀ x, x ∈ l1 ++ l2 → x ∈ l1 ++ c :: l2) as Hsub.
  { intros x. rewrite !elem_of_app, elem_of_cons. tauto. }
  assert (c ∉ l1 ++ l2) as Hc.
  { pose proof (inv_nodup _ _ _ Hi) as Hnd.
    apply NoDup_app in Hnd as (_ & H1 & H2). apply NoDup_cons in H2 as [H2 _].
    intros [Hin|Hin]%elem_of_app; [|done].
    apply (H1 c Hin), elem_of_cons. by left. }
  assert (∀ x, x ≠ c → x ∉ l1 ++ l2 → x ∉ l1 ++ c :: l2) as Hback.
  { intros x Hx. rewrite !elem_of_app, elem_of_cons. tauto. }
  assert (p < length h) as Hpl by (by eapply lookup_lt_Some).
  assert (∀ q d, <[p := append_child p_item c]> h !! q = Some d →
            (q = p ∧ d = append_child p_item c) ∨ (q ≠ p ∧ h !! q = Some d))
    as Hcases.
  { intros q d Hq. destruct (decide (p = q)) as [<-|Hne].
    - rewrite list_lookup_insert_eq in Hq by done. left. by injection Hq.
    - rewrite list_lookup_insert_ne in Hq by done. right. by split. }
  split.
  - by apply attached_insert; [apply (inv_att _ _ _ Hi)|..].
  - pose proof (inv_nodup _ _ _ Hi) as Hnd.
    apply NoDup_app in Hnd as (H1 & H2 & H3).
    apply NoDup_cons in H3 as [H3 H4]. apply NoDup_app.
    split; [done|]. split; [|done]. intros x Hx Hx2.
    apply (H2 x Hx), elem_of_cons. by right.
  - pose proof (inv_nonroot _ _ _ Hi) as Hn.
    rewrite Forall_forall in Hn |- *. intros x Hx. by apply Hn, Hsub.
  - intros q d Hq. destruct (Hcases _ _ Hq) as [[-> ->]|[Hne Hq']].
    + rewrite kids_at_append. apply NoDup_app.
      split; [by apply (inv_kids_nodup _ _ _ Hi p)|].
      split; [|apply NoDup_singleton].
      intros x Hx ->%list_elem_of_singleton.
      destruct (inv_placed _ _ _ Hi _ _ _ Hp Hx) as [Hx' _]. apply Hx'.
      apply elem_of_app. right. apply elem_of_cons. by left.
    + by apply (inv_kids_nodup _ _ _ Hi q).
  - intros q d x Hq Hxq Hx. destruct (Hcases _ _ Hq) as [[-> ->]|[Hne Hq']].
    + rewrite kids_at_append. apply elem_of_app.
      destruct (decide (x = c)) as [->|Hxc].
      * right. by apply list_elem_of_singleton.
      * left. apply (inv_kids _ _ _ Hi p); [done..|]. by apply Hback.
    + apply (inv_kids _ _ _ Hi q); [done..|].
      apply Hback; [|done]. intros ->.
      by apply Hne, (is_child_unique c).
  - intros q d x Hq Hx. destruct (Hcases _ _ Hq) as [[-> ->]|[Hne Hq']].
    + rewrite kids_at_append in Hx. split; [|by intros ?%Hsub].
      apply elem_of_app in Hx as [Hx| ->%list_elem_of_singleton]; [|done].
      destruct (inv_placed _ _ _ Hi _ _ _ Hp Hx) as [Hx' _].
      by intros ?%Hsub.
    + destruct (inv_placed _ _ _ Hi _ _ _ Hq' Hx) as [Hx' Hq''].
      split; by intros ?%Hsub.
Qed.

Lemma sublist_shorter (l' l : list loc) x :
  l' `sublist_of` l → x ∈ l → x ∉ l' → length l' < length l.
Proof.
  induction 1 as [|y l1 l2 _ IH|y l1 l2 Hs _]; intros Hin Hnot.
  - by apply elem_of_nil in Hin.
  - apply not_elem_of_cons in Hnot as [Hne Hnot].
    apply elem_of_cons in Hin as [->|Hin]; [done|].
    simpl. specialize (IH Hin Hnot). lia.
  - apply sublist_length in Hs. simpl. lia.
Qed.

(** One pass of the [while] body: it returns, keeps the invariant, and
    removes from the list every record whose parent was already placed
    when the pass began. *)
Lemma attach_loop_spec fuel snapshot :
  length rows < fuel → NoDup snapshot →
  ∀ h lst, inv rows h lst → snapshot ⊆ lst →
  ∃ h' lst',
    attach_loop fuel (root_locs rows) snapshot h lst = Done (h', lst') ∧
    inv rows h' lst' ∧ lst' `sublist_of` lst ∧
    ∀ c p, c ∈ snapshot → is_child rows c p → p ∉ lst → c ∉ lst'.
Proof using ids_nodup parent_before dep_bound.
  intros Hfuel. induction snapshot as [|c rest IH]; intros Hnd h lst Hi Hsub.
  - exists h, lst. split; [done|]. split; [done|]. split; [done|].
    intros c p Hc. by apply elem_of_nil in Hc.
  - apply NoDup_cons in Hnd as [Hc Hnd].
    assert (c ∈ lst) as Hcl by (apply Hsub, elem_of_cons; by left).
    destruct (step_spec fuel h lst c Hi Hfuel Hcl) as (d & Hd & Hstep).
    cbn [attach_loop]. rewrite (deref_lookup _ _ _ Hd).
    cbn [mbind outcome_bind].
    destruct Hstep as [(p & p_item & Hfind & Hp & Hch & Hpn)|[Hfind Hnone]].
    + rewrite Hfind. cbn [mbind outcome_bind].
      rewrite (deref_lookup _ _ _ Hp). cbn [mbind outcome_bind].
      destruct (list_elem_of_split _ _ Hcl) as (l1 & l2 & ->).
      pose proof (inv_attach _ _ _ _ _ _ Hi Hp Hch Hpn) as Hi'.
      destruct fuel as [|fuel']; [lia|].
      rewrite (list_remove_inv fuel');
        [|apply (inv_att _ _ _ Hi')|apply (inv_nodup _ _ _ Hi)
         |apply (inv_nonroot _ _ _ Hi)].
      cbn [mbind outcome_bind].
      assert (c ∉ l1 ++ l2) as Hcn.
      { pose proof (inv_nodup _ _ _ Hi) as Hn'.
        apply NoDup_app in Hn' as (_ & H1 & H2).
        apply NoDup_cons in H2 as [H2 _].
        intros [Hin|Hin]%elem_of_app; [|done].
        apply (H1 c Hin), elem_of_cons. by left. }
      destruct (IH Hnd _ _ Hi') as (h' & lst' & Hrun & Hi'' & Hs & Hgone).
      { intros x Hx. assert (x ∈ l1 ++ c :: l2) as Hx'
          by (apply Hsub, elem_of_cons; by right).
        assert (x ≠ c) by (by intros ->).
        revert Hx'. rewrite !elem_of_app, elem_of_cons. tauto. }
      exists h', lst'. split; [done|]. split; [done|]. split.
      { etrans; [exact Hs|]. apply sublist_app; [done|]. by apply sublist_cons. }
      intros x q Hx Hxq Hq. apply elem_of_cons in Hx as [->|Hx].
      * intros Hin. apply Hcn. by apply (sublist_subseteq _ _ Hs).
      * apply (Hgone x q); [done..|]. intros Hin. apply Hq.
        revert Hin. rewrite !elem_of_app, elem_of_cons. tauto.
    + rewrite Hfind. cbn [mbind outcome_bind].
      destruct (IH Hnd _ _ Hi) as (h' & lst' & Hrun & Hi'' & Hs & Hgone).
      { intros x Hx. apply Hsub, elem_of_cons. by right. }
      exists h', lst'. split; [done|]. split; [done|]. split; [done|].
      intros x q Hx Hxq Hq. apply elem_of_cons in Hx as [->|Hx].
      * by destruct (Hq (Hnone _ Hxq)).
      * by apply (Hgone x q).
Qed.

(** While the list is not empty, some record in it has its parent placed. *)
Lemma progress h lst :
  inv rows h lst → lst ≠ [] → ∃ c p, c ∈ lst ∧ is_child rows c p ∧ p ∉ lst.
Proof using parent_before.
  intros Hi Hne.
  assert (∃ c, c ∈ lst ∧ ∀ c', c' ∈ lst → dep c ≤ dep c') as (c & Hc & Hmin).
  { clear Hi. induction lst as [|x l IH]; [done|].
    destruct l as [|y l].
    - exists x. split; [apply elem_of_cons; by left|].
      intros c' ->%list_elem_of_singleton. done.
    - destruct IH as (m & Hm & Hmin); [done|].
      destruct (decide (dep x ≤ dep m)).
      + exists x. split; [apply elem_of_cons; by left|].
        intros c' [->|Hc']%elem_of_cons; [done|].
        specialize (Hmin _ Hc'). lia.
      + exists m. split; [apply elem_of_cons; by right|].
        intros c' [->|Hc']%elem_of_cons; [lia|]. by apply Hmin. }
  pose proof (inv_nonroot _ _ _ Hi) as Hn. rewrite Forall_forall in Hn.
  specialize (Hn _ Hc). unfold loc_sat in Hn.
  destruct (rows !! c) as [r|] eqn:Hr; [|done].
  destruct (parent_before _ _ Hr Hn) as (p & Hch & Hlt).
  exists c, p. split; [done|]. split; [done|].
  intros Hp. specialize (Hmin _ Hp). lia.
Qed.

(** The [while] loop exits after at most one pass per remaining record. *)
Lemma while_loop_spec fuel :
  length rows < fuel →
  ∀ passes h lst, inv rows h lst → length lst ≤ passes →
  ∃ h', while_loop passes fuel (root_locs rows) h lst = Done (h', []) ∧
        inv rows h' [].
Proof using ids_nodup parent_before dep_bound.
  intros Hfuel. induction passes as [|passes IH]; intros h lst Hi Hlen.
  - destruct lst; [|simpl in Hlen; lia]. by exists h.
  - destruct lst as [|c0 l0] eqn:Hlst; [by exists h|].
    rewrite <- Hlst in *. assert (lst ≠ []) as Hne by (by rewrite Hlst).
    destruct (attach_loop_spec fuel lst Hfuel (inv_nodup _ _ _ Hi) h lst Hi)
      as (h' & lst' & Hrun & Hi' & Hs & Hgone); [done|].
    destruct (progress _ _ Hi Hne) as (c & p & Hc & Hch & Hp).
    pose proof (sublist_shorter _ _ c Hs Hc (Hgone c p Hc Hch Hp)) as Hlt.
    destruct (IH h' lst' Hi') as (h'' & Hrun' & Hi''); [lia|].
    exists h''. split; [|done].
    rewrite Hlst at 1. cbn [while_loop]. rewrite <- Hlst. rewrite Hrun.
    cbn [mbind outcome_bind]. done.
Qed.

(** [list_to_tree] returns on such an input, with every record placed. *)
Lemma run_spec fuel :
  length rows < fuel →
  ∃ h', list_to_tree_run fuel (alloc rows) (fresh_list rows)
          = Done (Final h' [] (root_locs rows)) ∧
        inv rows h' [].
Proof using ids_nodup parent_before dep_bound.
  intros Hfuel. unfold list_to_tree_run.
  destruct fuel as [|fuel']; [lia|].
  pose proof (roots_loop_total rows fuel' (alloc rows) (fresh_list rows) [] [])
    as Hroots.
  simpl in Hroots. rewrite Hroots;
    [|apply alloc_attached|constructor|apply fresh_list_valid].
  cbn [mbind outcome_bind].
  destruct (while_loop_spec (S fuel') Hfuel (S fuel') (alloc rows)
              (nonroot_locs rows) initial_inv) as (h' & Hrun & Hi).
  { unfold nonroot_locs. etrans; [apply length_filter|].
    rewrite length_seq. lia. }
  exists h'. split; [|done]. unfold root_locs, nonroot_locs, fresh_list in *.
  rewrite Hrun. done.
Qed.

(** [view] returns on every store the loops reach. *)
Lemma view_total h lst fuel :
  inv rows h lst →
  ∀ ls, Forall (λ l, l < length rows) ls →
        (∀ l, l ∈ ls → length rows < fuel + dep l) → 0 < fuel →
  ∃ forest, view fuel h ls = Done forest.
Proof using ids_nodup parent_before dep_bound.
  intros Hi. induction fuel as [|fuel IHf]; intros ls Hv Hfuel Hpos; [lia|].
  induction ls as [|l ls IHl]; [by exists []|].
  apply Forall_cons in Hv as [Hl Hv].
  destruct (inv_lookup _ _ _ Hi Hl) as [d Hd].
  destruct IHl as (ns & Hns); [done| |].
  { intros x Hx. apply Hfuel. by apply elem_of_cons; right. }
  rewrite view_cons, (deref_lookup _ _ _ Hd). cbn [mbind outcome_bind].
  destruct (children d) as [cs|] eqn:Hcs.
  - destruct (IHf cs) as (fc & Hfc).
    + apply Forall_forall. intros c Hc.
      assert (c ∈ kids_at d) as Hc' by (unfold kids_at; by rewrite Hcs).
      by destruct (inv_kid_deeper _ _ _ _ _ Hi Hd Hc') as [_ ?].
    + intros c Hc.
      assert (c ∈ kids_at d) as Hc' by (unfold kids_at; by rewrite Hcs).
      destruct (inv_kid_deeper _ _ _ _ _ Hi Hd Hc') as [Hlt _].
      pose proof (Hfuel l (ltac:(apply elem_of_cons; by left))). lia.
    + pose proof (Hfuel l (ltac:(apply elem_of_cons; by left))).
      pose proof (dep_bound _ Hl). lia.
    + rewrite Hfc. cbn [fmap outcome_fmap mbind outcome_bind].
      rewrite Hns. by eexists.
  - cbn [mbind outcome_bind]. rewrite Hns. by eexists.
Qed.

(** Once the list is empty, the enumeration from the roots meets every
    dict exactly once. *)
Lemma walk_once h w :
  inv rows h [] → walk h (root_locs rows) w →
  ∀ x, x < length rows → occ x w = 1.
Proof using ids_nodup parent_before.
  intros Hi Hw x. remember (dep x) as n eqn:Hn. revert x Hn.
  induction n as [n IH] using lt_wf_ind. intros x -> Hx.
  rewrite (walk_count _ _ _ _ Hw).
  destruct (lookup_lt_is_Some_2 rows x Hx) as [r Hr].
  destruct (is_nonroot r) eqn:Hnr.
  - assert (loc_sat is_nonroot rows x = true) as Hsat
      by (unfold loc_sat; by rewrite Hr).
    rewrite (occ_absent x (root_locs rows)) by (by apply nonroot_not_root).
    destruct (parent_before _ _ Hr Hnr) as (p & Hch & Hlt).
    destruct (is_child_valid _ _ Hch) as (_ & _ & Hp).
    rewrite <- (IH (dep p) Hlt p eq_refl Hp). simpl.
    clear Hw IH. induction w as [|q w IHw]; [done|].
    cbn [kid_occ]. rewrite occ_cons, IHw. f_equal.
    unfold kids_loc. destruct (h !! q) as [d|] eqn:Hq.
    + destruct (decide (q = p)) as [->|Hne].
      * apply occ_once; [by apply (inv_kids_nodup _ _ _ Hi p)|].
        apply (inv_kids _ _ _ Hi p); [done..|]. apply not_elem_of_nil.
      * apply occ_absent. intros Hin. apply Hne.
        apply (is_child_unique x); [|done]. by eapply inv_kid_child.
    + rewrite decide_False; [done|]. intros ->.
      apply lookup_ge_None in Hq.
      destruct (inv_lookup _ _ _ Hi Hp) as [d Hd].
      apply lookup_lt_Some in Hd. lia.
  - rewrite (occ_once x (root_locs rows)).
    + f_equal. clear Hw IH. induction w as [|q w IHw]; [done|].
      cbn [kid_occ]. rewrite IHw, Nat.add_0_r.
      unfold kids_loc. destruct (h !! q) as [d|] eqn:Hq; [|done].
      apply occ_absent. intros Hin.
      pose proof (inv_kid_child _ _ _ _ _ Hi Hq Hin) as Hch.
      destruct (is_child_valid _ _ Hch) as (Hsat & _ & _).
      unfold loc_sat in Hsat. rewrite Hr in Hsat. congruence.
    + apply NoDup_filter, NoDup_seq.
    + apply list_elem_of_filter. split; [|apply elem_of_seq; lia].
      apply Is_true_true. unfold loc_sat. rewrite Hr.
      unfold is_root, is_nonroot in *. by destruct (falsy (parent_id r)).
Qed.

Lemma walk_all h w :
  inv rows h [] → walk h (root_locs rows) w → w ≡ₚ fresh_list rows.
Proof using ids_nodup parent_before.
  intros Hi Hw. apply (Permutation_count_occ Nat.eq_dec). intros x.
  destruct (decide (x < length rows)) as [Hx|Hx].
  - fold (occ x w). rewrite (walk_once _ _ Hi Hw x Hx). symmetry.
    apply (occ_once x); [apply NoDup_seq|]. apply elem_of_seq. lia.
  - fold (occ x w). fold (occ x (fresh_list rows)).
    rewrite !occ_absent; [done| |].
    + intros Hin%elem_of_seq. lia.
    + intros Hin. apply (walk_valid _ _ _ _ Hw) in Hin.
      destruct (inv_att _ _ _ Hi) as [Hf _].
      rewrite <- Hf, length_fmap in Hx. lia.
Qed.

Lemma pass_shrinks fuel h lst :
  length rows < fuel → inv rows h lst → lst ≠ [] →
  ∃ h' lst',
    attach_loop fuel (root_locs rows) lst h lst = Done (h', lst') ∧
    inv rows h' lst' ∧ length lst' < length lst ∧
    ∀ c p, c ∈ lst → is_child rows c p → p ∉ lst → c ∉ lst'.
Proof using ids_nodup parent_before dep_bound.
  intros Hfuel Hi Hne.
  destruct (attach_loop_spec fuel lst Hfuel (inv_nodup _ _ _ Hi) h lst Hi)
    as (h' & lst' & Hrun & Hi' & Hs & Hgone); [done|].
  destruct (progress _ _ Hi Hne) as (c & p & Hc & Hch & Hp).
  exists h', lst'. split; [done|]. split; [done|]. split; [|done].
  exact (sublist_shorter _ _ c Hs Hc (Hgone c p Hc Hch Hp)).
Qed.

Lemma pass_state_inv fuel h lst :
  length rows < fuel → pass_state fuel rows h lst → inv rows h lst.
Proof using ids_nodup parent_before dep_bound.
  intros Hfuel. induction 1 as [|h lst h' lst' _ IH Hrun].
  - apply initial_inv.
  - destruct (attach_loop_spec fuel lst Hfuel (inv_nodup _ _ _ IH) h lst IH)
      as (h1 & lst1 & Hrun1 & Hi1 & _); [done|].
    rewrite Hrun in Hrun1. by injection Hrun1 as -> ->.
Qed.

(** The forest returned holds every row exactly once. *)
Lemma list_to_tree_lossless fuel :
  length rows < fuel →
  ∃ forest, list_to_tree fuel rows = Done forest ∧ flatten forest ≡ₚ rows.
Proof using ids_nodup parent_before dep_bound.
  intros Hfuel. destruct (run_spec fuel Hfuel) as (h' & Hrun & Hi).
  destruct (view_total h' [] fuel Hi (root_locs rows)) as (forest & Hview).
  { apply Forall_forall. intros l Hl.
    apply list_elem_of_filter in Hl as [_ Hl]. apply elem_of_seq in Hl. lia. }
  { intros l _. lia. }
  { lia. }
  exists forest. split.
  - unfold list_to_tree. rewrite Hrun. done.
  - destruct (view_walk rows _ _ _ _ (inv_att _ _ _ Hi) Hview) as (w & Hw & Hf).
    eapply row_at_Permutation; [done|]. by eapply walk_all.
Qed.

(** *** Inputs in which every record comes after its parent *)

Lemma sorted_pass fuel :
  (∀ c p, is_child rows c p → p < c) →
  length rows < fuel →
  ∀ lst h, inv rows h lst → StronglySorted lt lst → kids_sorted h lst →
  ∃ h', attach_loop fuel (root_locs rows) lst h lst = Done (h', []) ∧
        inv rows h' [] ∧ kids_sorted h' [].
Proof using ids_nodup parent_before dep_bound.
  intros Hsorted Hfuel. induction lst as [|c rest IH]; intros h Hi Hs Hk.
  - by exists h.
  - apply StronglySorted_cons in Hs as [Hc Hs]. rewrite Forall_forall in Hc.
    assert (c ∈ c :: rest) as Hin by (apply elem_of_cons; by left).
    destruct (step_spec fuel h _ c Hi Hfuel Hin) as (d & Hd & Hstep).
    cbn [attach_loop]. rewrite (deref_lookup _ _ _ Hd).
    cbn [mbind outcome_bind].
    destruct Hstep as [(p & p_item & Hfind & Hp & Hch & Hpn)|[_ Hnone]].
    + rewrite Hfind. cbn [mbind outcome_bind].
      rewrite (deref_lookup _ _ _ Hp). cbn [mbind outcome_bind].
      pose proof (inv_attach h [] rest c p p_item Hi Hp Hch Hpn) as Hi'.
      simpl in Hi'. destruct fuel as [|fuel']; [lia|].
      pose proof (list_remove_inv fuel' _ c [] rest (inv_att _ _ _ Hi')
                    (inv_nodup _ _ _ Hi) (inv_nonroot _ _ _ Hi)) as Hrm.
      rewrite !app_nil_l in Hrm. rewrite Hrm. cbn [mbind outcome_bind].
      apply IH; [done..|]. intros q dq Hq.
      assert (p < length h) as Hpl by (by eapply lookup_lt_Some).
      destruct (decide (p = q)) as [<-|Hne].
      * rewrite list_lookup_insert_eq in Hq by done. injection Hq as <-.
        rewrite kids_at_append. destruct (Hk p p_item Hp) as [Hks Hkl].
        split.
        -- apply StronglySorted_app_2; [|done|repeat constructor].
           intros x1 x2 Hx1 ->%list_elem_of_singleton. by apply Hkl.
        -- intros k c' [Hk'| ->%list_elem_of_singleton]%elem_of_app Hc'.
           ++ apply Hkl; [done|]. apply elem_of_cons. by right.
           ++ by apply Hc.
      * rewrite list_lookup_insert_ne in Hq by done.
        destruct (Hk q dq Hq) as [Hks Hkl]. split; [done|].
        intros k c' Hk' Hc'. apply Hkl; [done|]. apply elem_of_cons. by right.
    + exfalso.
      pose proof (inv_nonroot _ _ _ Hi) as Hn. rewrite Forall_forall in Hn.
      specialize (Hn _ Hin). unfold loc_sat in Hn.
      destruct (rows !! c) as [r|] eqn:Hr; [|done].
      destruct (parent_before _ _ Hr Hn) as (p & Hch & _).
      pose proof (Hsorted _ _ Hch) as Hlt.
      apply Hnone in Hch. apply elem_of_cons in Hch as [->|Hp]; [lia|].
      specialize (Hc _ Hp). lia.
Qed.

Lemma sorted_filter_seq (P : nat → Prop) `{∀ x, Decision (P x)} a n :
  StronglySorted lt (filter P (seq a n)).
Proof.
  revert a. induction n as [|n IH]; intros a; [constructor|].
  cbn [seq]. rewrite filter_cons. destruct (decide (P a)); [|apply IH].
  constructor; [apply IH|]. apply Forall_forall. intros x Hx.
  apply list_elem_of_filter in Hx as [_ Hx]. apply elem_of_seq in Hx. lia.
Qed.

(** On such an input one pass places every record, and each ['children']
    list holds the children of its dict in input order. *)
Lemma sorted_run fuel :
  (∀ c p, is_child rows c p → p < c) →
  length rows < fuel →
  ∃ h', list_to_tree_run fuel (alloc rows) (fresh_list rows)
          = Done (Final h' [] (root_locs rows)) ∧
        inv rows h' [] ∧
        ∀ p d, h' !! p = Some d →
               kids_at d = filter (λ c, is_child rows c p) (fresh_list rows).
Proof using ids_nodup parent_before dep_bound.
  intros Hsorted Hfuel.
  destruct (sorted_pass fuel Hsorted Hfuel (nonroot_locs rows) (alloc rows))
    as (h' & Hpass & Hi & Hk).
  { apply initial_inv. }
  { apply sorted_filter_seq. }
  { intros p d Hp. apply alloc_lookup in Hp as [_ Hn]. unfold kids_at.
    rewrite Hn. split; [constructor|]. intros k c Hk.
    by apply elem_of_nil in Hk. }
  exists h'. split; [|split; [done|]].
  - unfold list_to_tree_run. destruct fuel as [|fuel']; [lia|].
    pose proof (roots_loop_total rows fuel' (alloc rows) (fresh_list rows)
                  [] []) as Hroots.
    simpl in Hroots. rewrite Hroots;
      [|apply alloc_attached|constructor|apply fresh_list_valid].
    cbn [mbind outcome_bind]. unfold fresh_list.
    fold (root_locs rows). fold (nonroot_locs rows).
    destruct (nonroot_locs rows) as [|c l] eqn:Hnr.
    + simpl in Hpass. by injection Hpass as <-.
    + cbn [while_loop]. rewrite Hpass. cbn [mbind outcome_bind].
      by destruct fuel'.
  - intros p d Hp. destruct (Hk p d Hp) as [Hs _].
    apply (StronglySorted_unique_strong lt); [intros; lia|done| |].
    { apply sorted_filter_seq. }
    apply NoDup_Permutation.
    + by apply (inv_kids_nodup _ _ _ Hi p).
    + apply NoDup_filter, NoDup_seq.
    + intros c. rewrite list_elem_of_filter. split.
      * intros Hc. pose proof (inv_kid_child _ _ _ _ _ Hi Hp Hc) as Hch.
        split; [done|]. destruct (is_child_valid _ _ Hch) as (_ & Hv & _).
        apply elem_of_seq. lia.
      * intros [Hch _]. apply (inv_kids _ _ _ Hi p); [done..|].
        apply not_elem_of_nil.
Qed.
End ranked_input.

(** ** Resolvable, acyclic inputs are ranked by depth *)

Lemma parent_of_Some rows r p q :
  parent_of rows r = Some (p, q) →
  rows !! p = Some q ∧ is_nonroot r = true ∧ parent_id r = Some (id q).
Proof.
  unfold parent_of. destruct (is_nonroot r); [|done].
  destruct (parent_id r) as [z|]; [|done].
  intros (Hq & Hid & _)%list_find_Some. by rewrite Hid.
Qed.

Lemma parent_of_resolved rows r q :
  is_nonroot r = true → q ∈ rows → parent_id r = Some (id q) →
  is_Some (parent_of rows r).
Proof.
  intros Hn Hq Hp. unfold parent_of. rewrite Hn, Hp.
  by apply (list_find_elem_of _ rows q).
Qed.

Lemma ancestor_add rows k j v r :
  ancestor rows k v = Some r → ancestor rows (k + j) v = ancestor rows j r.
Proof.
  revert v. induction k as [|k IH]; intros v; simpl.
  - by intros [= ->].
  - destruct (parent_of rows v) as [[p q]|]; [apply IH|done].
Qed.

Lemma depth_mono fuel rows r d :
  depth fuel rows r = Some d → depth (S fuel) rows r = Some d.
Proof.
  revert r d. induction fuel as [|fuel IH]; intros r d; [done|].
  intros H. cbn [depth] in *. destruct (is_nonroot r); [|done].
  destruct (parent_of rows r) as [[p q]|]; [|done].
  destruct (depth fuel rows q) as [d'|] eqn:Hq; [|done].
  by rewrite (IH _ _ Hq).
Qed.

Lemma depth_lt fuel rows r d : depth fuel rows r = Some d → d < fuel.
Proof.
  revert r d. induction fuel as [|fuel IH]; intros r d; [done|].
  cbn [depth]. destruct (is_nonroot r); [|intros [= <-]; lia].
  destruct (parent_of rows r) as [[p q]|]; [|done].
  destruct (depth fuel rows q) as [d'|] eqn:Hq; [|done].
  intros [= <-]. apply IH in Hq. lia.
Qed.

(** Following at most [length rows] references from any record of a
    resolvable, acyclic input ends at a root. *)
Lemma depth_visited rows :
  resolvable rows → acyclic rows →
  ∀ fuel visited r,
    r ∈ rows → NoDup visited → visited ⊆ rows →
    (∀ v, v ∈ visited → ∃ k, 0 < k ∧ ancestor rows k v = Some r) →
    length rows ≤ length visited + fuel →
    is_Some (depth fuel rows r).
Proof.
  intros Hres Hacy. induction fuel as [|fuel IH];
    intros visited r Hr Hnd Hsub Hanc Hlen.
  - exfalso. assert (visited ≡ₚ rows) as Hperm.
    { apply submseteq_length_Permutation; [by apply NoDup_submseteq|lia]. }
    assert (r ∈ visited) as Hv by (by rewrite Hperm).
    destruct (Hanc r Hv) as (k & Hk & Hcyc). by apply (Hacy r k).
  - cbn [depth]. destruct (is_nonroot r) eqn:Hn; [|by eexists].
    destruct (Hres r Hr Hn) as (q0 & Hq0 & Hp).
    destruct (parent_of_resolved rows r q0 Hn Hq0 Hp) as [[p q] Hpq].
    rewrite Hpq. destruct (parent_of_Some _ _ _ _ Hpq) as (Hq & _ & _).
    destruct (IH (r :: visited) q) as [d Hd].
    + by eapply list_elem_of_lookup_2.
    + apply NoDup_cons. split; [|done]. intros Hv.
      destruct (Hanc r Hv) as (k & Hk & Hcyc). by apply (Hacy r k).
    + intros x [->|Hx]%elem_of_cons; [done|by apply Hsub].
    + intros v [->|Hv]%elem_of_cons.
      * exists 1. split; [lia|]. simpl. by rewrite Hpq.
      * destruct (Hanc v Hv) as (k & Hk & Hkv). exists (k + 1).
        split; [lia|]. rewrite (ancestor_add _ _ _ _ _ Hkv). simpl.
        by rewrite Hpq.
    + simpl. lia.
    + rewrite Hd. by eexists.
Qed.

Lemma depth_total rows r :
  resolvable rows → acyclic rows → r ∈ rows →
  is_Some (depth (length rows) rows r).
Proof.
  intros Hres Hacy Hr.
  apply (depth_visited rows Hres Hacy _ []); [done|constructor| | |simpl; lia].
  - intros x Hx. by apply elem_of_nil in Hx.
  - intros v Hv. by apply elem_of_nil in Hv.
Qed.

Lemma depth_at_parent rows c r :
  resolvable rows → acyclic rows →
  rows !! c = Some r → is_nonroot r = true →
  ∃ p, is_child rows c p ∧ depth_at rows p < depth_at rows c.
Proof.
  intros Hres Hacy Hc Hn.
  assert (r ∈ rows) as Hr by (by eapply list_elem_of_lookup_2).
  destruct (depth_total rows r Hres Hacy Hr) as [d Hd].
  destruct (length rows) as [|n] eqn:Hlen; [done|].
  pose proof Hd as Hd'. cbn [depth] in Hd. rewrite Hn in Hd.
  destruct (parent_of rows r) as [[p q]|] eqn:Hpq; [|done].
  destruct (depth n rows q) as [d'|] eqn:Hq; [|done].
  injection Hd as <-.
  destruct (parent_of_Some _ _ _ _ Hpq) as (Hp & _ & Hid).
  exists p. split.
  - unfold is_child. rewrite Hc, Hp. unfold owner_ok.
    unfold is_nonroot in Hn. rewrite Hn. simpl.
    by apply bool_decide_eq_true.
  - unfold depth_at. rewrite Hc, Hp, Hlen, Hd', (depth_mono _ _ _ _ Hq).
    simpl. lia.
Qed.

Lemma depth_at_bound rows c :
  resolvable rows → acyclic rows →
  c < length rows → depth_at rows c < length rows.
Proof.
  intros Hres Hacy Hc. unfold depth_at.
  destruct (lookup_lt_is_Some_2 rows c Hc) as [r Hr]. rewrite Hr.
  destruct (depth_total rows r Hres Hacy) as [d Hd];
    [by eapply list_elem_of_lookup_2|].
  rewrite Hd. simpl. by eapply depth_lt.
Qed.

Lemma depth_ancestor rows k :
  ∀ fuel r d r',
    depth fuel rows r = Some d → ancestor rows k r = Some r' →
    depth fuel rows r' = Some (d - k) ∧ k ≤ d.
Proof.
  induction k as [|k IH]; intros fuel r d r' Hd Hk.
  - injection Hk as <-. rewrite Nat.sub_0_r. split; [done|lia].
  - cbn [ancestor] in Hk.
    destruct (parent_of rows r) as [[p q]|] eqn:Hpq; [|done].
    destruct (parent_of_Some _ _ _ _ Hpq) as (_ & Hn & _).
    destruct fuel as [|fuel]; [done|]. cbn [depth] in Hd.
    rewrite Hn, Hpq in Hd.
    destruct (depth fuel rows q) as [d'|] eqn:Hq; [|done].
    injection Hd as <-.
    destruct (IH _ _ _ _ (depth_mono _ _ _ _ Hq) Hk) as [Hd' Hle].
    split; [by rewrite Hd'|lia].
Qed.

Lemma grounded_sound rows :
  grounded rows = true → resolvable rows ∧ acyclic rows.
Proof.
  intros Hg.
  assert (∀ r, r ∈ rows → ∃ d, depth (length rows) rows r = Some d) as Hd.
  { intros r Hr. pose proof (forallb_elem _ _ _ Hg Hr) as H.
    by apply bool_decide_eq_true in H. }
  split.
  - intros r Hr Hn. destruct (Hd r Hr) as [d Hdr].
    destruct (length rows) as [|n]; [done|]. cbn [depth] in Hdr.
    rewrite Hn in Hdr.
    destruct (parent_of rows r) as [[p q]|] eqn:Hpq; [|done].
    destruct (parent_of_Some _ _ _ _ Hpq) as (Hq & _ & Hid).
    exists q. split; [by eapply list_elem_of_lookup_2|done].
  - intros r k Hr Hk Hcyc. destruct (Hd r Hr) as [d Hdr].
    destruct (depth_ancestor _ _ _ _ _ _ Hdr Hcyc) as [Hd' Hle].
    rewrite Hdr in Hd'. injection Hd' as Hd'. lia.
Qed.

(** ** Theorems about resolvable, acyclic inputs *)

Lemma returns_all_rows fuel rows :
  NoDup (id <$> rows) → resolvable rows → acyclic rows →
  length rows < fuel →
  ∃ forest, list_to_tree fuel rows = Done forest ∧ flatten forest ≡ₚ rows.
Proof.
  intros Hnd Hres Hacy Hfuel.
  exact (list_to_tree_lossless rows (depth_at rows) Hnd
           (λ c r, depth_at_parent rows c r Hres Hacy)
           (λ c, depth_at_bound rows c Hres Hacy) fuel Hfuel).
Qed.

(** C1: on an input whose ids are unique (the data model) and whose parent
    references are resolvable and acyclic, [list_to_tree] returns, and the
    rows of the returned forest, flattened across all nesting levels, are
    the rows of the input, each exactly once; so are their ids. *)
Theorem materialization_is_lossless fuel rows :
  NoDup (id <$> rows) → resolvable rows → acyclic rows →
  length rows < fuel →
  ∃ forest, list_to_tree fuel rows = Done forest ∧
            flatten forest ≡ₚ rows ∧
            id <$> flatten forest ≡ₚ id <$> rows.
Proof.
  intros Hnd Hres Hacy Hfuel.
  destruct (returns_all_rows fuel rows Hnd Hres Hacy Hfuel)
    as (forest & Hrun & Hperm).
  exists forest. split; [done|]. split; [done|]. by apply fmap_Permutation.
Qed.

Lemma chain_input_good :
  NoDup (id <$> chain_input) ∧ resolvable chain_input ∧ acyclic chain_input.
Proof.
  split; [|by apply grounded_sound].
  apply (bool_decide_unpack _). by vm_compute.
Qed.

Lemma materialization_is_lossless_witness :
  ∃ forest, list_to_tree 5 chain_input = Done forest ∧
            flatten forest ≡ₚ chain_input ∧
            id <$> flatten forest ≡ₚ id <$> chain_input.
Proof.
  destruct chain_input_good as (H1 & H2 & H3).
  apply (materialization_is_lossless 5 chain_input H1 H2 H3).
  simpl. lia.
Defined.

(** Siblings are in the order in which they were attached: record 3 comes
    before record 4 in the input, but its parent is placed one pass later. *)
Example siblings_in_attachment_order :
  list_to_tree 5 late_parent_input =
  Done [Node (mk 1 None)
          (Some [Node (mk 2 (Some 1%Z))
                   (Some [leaf (mk 4 (Some 2%Z)); leaf (mk 3 (Some 2%Z))])])].
Proof. vm_compute. reflexivity. Qed.

(** The unique ids of the data model matter.  With two equal rows,
    [list.remove] takes the first of them out of the list when the second is
    attached; the second is then attached twice, and the reply to id 2 shows
    twice in the output. *)
Example duplicate_rows_are_attached_twice :
  (λ out, children <$> store out)
    <$> list_to_tree_run 7 (alloc duplicate_input) (fresh_list duplicate_input)
    = Done [None; Some [3]; None; Some [4; 4]; Some [5]; None] ∧
  (λ forest, id <$> flatten forest) <$> list_to_tree 7 duplicate_input
    = Done [1; 5; 7; 2; 9; 2; 9]%Z.
Proof. split; vm_compute; reflexivity. Qed.

Lemma kids_loc_lookup h p d : h !! p = Some d → kids_loc h p = kids_at d.
Proof. intros Hp. unfold kids_loc. by rewrite Hp. Qed.

(** Under the invariant, a record that is no longer in the list is in the
    ['children'] of the dict it names as its parent. *)
Lemma placed_is_attached rows h lst c p :
  inv rows h lst → is_child rows c p → c ∉ lst → c ∈ kids_loc h p.
Proof.
  intros Hi Hch Hc. pose proof Hch as Hv. unfold is_child in Hv.
  destruct (rows !! c) as [r|]; [|done].
  destruct (rows !! p) as [q|] eqn:Hq; [|done].
  destruct (attached_lookup_inv _ _ _ _ (inv_att _ _ _ Hi) Hq) as (d & Hd & _).
  rewrite (kids_loc_lookup _ _ _ Hd). by apply (inv_kids _ _ _ Hi p).
Qed.

(** The [while] loop on a non-empty list is one pass of its body followed
    by the loop on what the pass leaves. *)
Lemma while_loop_pass passes fuel tree h lst h' lst' :
  lst ≠ [] → attach_loop fuel tree lst h lst = Done (h', lst') →
  while_loop (S passes) fuel tree h lst = while_loop passes fuel tree h' lst'.
Proof.
  intros Hne Hrun. destruct lst as [|c0 l0] eqn:Hlst; [done|].
  rewrite <- Hlst in *. rewrite Hlst at 1. cbn [while_loop]. rewrite <- Hlst.
  by rewrite Hrun.
Qed.

(** C4: on an input with unique ids whose parent references are resolvable
    and acyclic, [list_to_tree] returns.  The first loop leaves the roots in
    [tree] and the other records in the list.  From there the [while] loop
    runs until the list is empty, and then every record is in the
    ['children'] of its parent.  Every pass of the loop over a non-empty
    list returns and leaves a strictly shorter list, from which the loop
    goes on; the pass attaches every record whose parent was placed before
    the pass, it takes a record out of the list only by attaching it to its
    parent, and it detaches nothing. *)
Theorem materialization_terminates fuel rows :
  NoDup (id <$> rows) → resolvable rows → acyclic rows →
  length rows < fuel →
  (∃ forest, list_to_tree fuel rows = Done forest) ∧
  roots_loop fuel (alloc rows) (fresh_list rows) [] (fresh_list rows)
    = Done (root_locs rows, nonroot_locs rows) ∧
  (∃ h', while_loop fuel fuel (root_locs rows) (alloc rows) (nonroot_locs rows)
           = Done (h', []) ∧
         list_to_tree_run fuel (alloc rows) (fresh_list rows)
           = Done (Final h' [] (root_locs rows)) ∧
         ∀ c p, is_child rows c p → c ∈ kids_loc h' p) ∧
  ∀ h lst, pass_state fuel rows h lst → lst ≠ [] →
    ∃ h' lst',
      attach_loop fuel (root_locs rows) lst h lst = Done (h', lst') ∧
      (∀ passes, while_loop (S passes) fuel (root_locs rows) h lst
                 = while_loop passes fuel (root_locs rows) h' lst') ∧
      length lst' < length lst ∧
      lst' `sublist_of` lst ∧
      (∀ c p, c ∈ lst → is_child rows c p → p ∉ lst →
              (c ∉ lst') ∧ c ∈ kids_loc h' p) ∧
      (∀ c, c ∈ lst → c ∉ lst' →
            ∃ p, is_child rows c p ∧ c ∈ kids_loc h' p) ∧
      (∀ p c, c ∈ kids_loc h p → c ∈ kids_loc h' p).
Proof.
  intros Hnd Hres Hacy Hfuel.
  pose proof (λ c r, depth_at_parent rows c r Hres Hacy) as Hpar.
  pose proof (λ c, depth_at_bound rows c Hres Hacy) as Hbound.
  assert (roots_loop fuel (alloc rows) (fresh_list rows) [] (fresh_list rows)
          = Done (root_locs rows, nonroot_locs rows)) as Hroots.
  { destruct fuel as [|fuel']; [lia|].
    exact (roots_loop_total rows fuel' (alloc rows) (fresh_list rows) [] []
             (alloc_attached rows) (Forall_nil_2 _) (fresh_list_valid rows)). }
  split; [|split; [exact Hroots|split]].
  - destruct (list_to_tree_lossless rows (depth_at rows) Hnd Hpar Hbound
                fuel Hfuel) as (forest & Hrun & _).
    by exists forest.
  - destruct (while_loop_spec rows (depth_at rows) Hnd Hpar Hbound fuel Hfuel
                fuel (alloc rows) (nonroot_locs rows))
      as (h' & Hwhile & Hi).
    { apply (initial_inv rows). }
    { unfold nonroot_locs. etrans; [apply length_filter|].
      rewrite length_seq. lia. }
    exists h'. split; [exact Hwhile|]. split.
    + unfold list_to_tree_run. rewrite Hroots. cbn [mbind outcome_bind].
      rewrite Hwhile. done.
    + intros c p Hch. apply (placed_is_attached rows h' [] c p Hi Hch).
      apply not_elem_of_nil.
  - intros h lst Hst Hne.
    pose proof (pass_state_inv rows (depth_at rows) Hnd Hpar Hbound
                  fuel h lst Hfuel Hst) as Hi.
    destruct (attach_loop_spec rows (depth_at rows) Hnd Hpar Hbound fuel lst
                Hfuel (inv_nodup _ _ _ Hi) h lst Hi)
      as (h' & lst' & Hrun & Hi' & Hs & Hgone); [done|].
    destruct (progress rows (depth_at rows) Hpar h lst Hi Hne)
      as (c0 & p0 & Hc0 & Hch0 & Hp0).
    exists h', lst'. split; [exact Hrun|]. split; [|split; [|split; [exact Hs|]]].
    + intros passes. by apply while_loop_pass.
    + exact (sublist_shorter _ _ c0 Hs Hc0 (Hgone c0 p0 Hc0 Hch0 Hp0)).
    + split; [|split].
      * intros c p Hc Hch Hp. pose proof (Hgone c p Hc Hch Hp) as Hout.
        split; [exact Hout|]. by apply (placed_is_attached rows h' lst').
      * intros c Hc Hout.
        pose proof (inv_nonroot _ _ _ Hi) as Hn. rewrite Forall_forall in Hn.
        specialize (Hn _ Hc). unfold loc_sat in Hn.
        destruct (rows !! c) as [r|] eqn:Hr; [|done].
        destruct (Hpar c r Hr Hn) as (p & Hch & _).
        exists p. split; [done|]. by apply (placed_is_attached rows h' lst').
      * intros p c Hc. unfold kids_loc in Hc.
        destruct (h !! p) as [d|] eqn:Hd; [|by apply elem_of_nil in Hc].
        destruct (inv_placed _ _ _ Hi _ _ _ Hd Hc) as [Hcl _].
        apply (placed_is_attached rows h' lst'); [done| |].
        -- destruct (children d) as [cs|] eqn:Hcs.
           ++ destruct (att_kids _ _ (inv_att _ _ _ Hi) _ _ _ Hd Hcs)
                as [_ Hall].
              rewrite Forall_forall in Hall. apply Hall.
              unfold kids_at in Hc. by rewrite Hcs in Hc.
           ++ unfold kids_at in Hc. rewrite Hcs in Hc.
              by apply elem_of_nil in Hc.
        -- intros Hin. apply Hcl. by apply (sublist_subseteq _ _ Hs).
Qed.

Lemma materialization_terminates_witness :
  (∃ forest, list_to_tree 5 chain_input = Done forest) ∧
  roots_loop 5 (alloc chain_input) (fresh_list chain_input) []
    (fresh_list chain_input)
    = Done (root_locs chain_input, nonroot_locs chain_input) ∧
  (∃ h', while_loop 5 5 (root_locs chain_input) (alloc chain_input)
           (nonroot_locs chain_input) = Done (h', []) ∧
         list_to_tree_run 5 (alloc chain_input) (fresh_list chain_input)
           = Done (Final h' [] (root_locs chain_input)) ∧
         ∀ c p, is_child chain_input c p → c ∈ kids_loc h' p) ∧
  ∀ h lst, pass_state 5 chain_input h lst → lst ≠ [] →
    ∃ h' lst',
      attach_loop 5 (root_locs chain_input) lst h lst = Done (h', lst') ∧
      (∀ passes, while_loop (S passes) 5 (root_locs chain_input) h lst
                 = while_loop passes 5 (root_locs chain_input) h' lst') ∧
      length lst' < length lst ∧
      lst' `sublist_of` lst ∧
      (∀ c p, c ∈ lst → is_child chain_input c p → p ∉ lst →
              (c ∉ lst') ∧ c ∈ kids_loc h' p) ∧
      (∀ c, c ∈ lst → c ∉ lst' →
            ∃ p, is_child chain_input c p ∧ c ∈ kids_loc h' p) ∧
      (∀ p c, c ∈ kids_loc h p → c ∈ kids_loc h' p).
Proof.
  destruct chain_input_good as (H1 & H2 & H3).
  apply (materialization_terminates 5 chain_input H1 H2 H3).
  simpl. lia.
Defined.

(** ** Forests in pre-order *)

Lemma forest_ind (Q : list node → Prop) :
  Q [] →
  (∀ r cs ns, Q (default [] cs) → Q ns → Q (Node r cs :: ns)) →
  ∀ forest, Q forest.
Proof.
  intros Hnil Hcons.
  assert (∀ n, Q (kids_of n)) as Hn.
  { induction n as [r|r cs IH] using node_ind'; [exact Hnil|].
    unfold kids_of. simpl. induction IH as [|c cs Hc _ IHcs]; [exact Hnil|].
    destruct c as [rc csc]. by apply Hcons. }
  induction forest as [|[r cs] ns IH]; [exact Hnil|].
  apply Hcons; [apply (Hn (Node r cs))|exact IH].
Qed.

Lemma subnodes_cons r cs ns :
  (Node r cs :: ns) ≫= subnodes =
  Node r cs :: (default [] cs ≫= subnodes) ++ (ns ≫= subnodes).
Proof. rewrite bind_cons. cbn [subnodes]. by destruct cs. Qed.

Lemma well_attached_cons owner r cs ns :
  forallb (well_attached owner) (Node r cs :: ns) = true →
  owner_ok owner r = true ∧ cs ≠ Some [] ∧
  forallb (well_attached (Some (id r))) (default [] cs) = true ∧
  forallb (well_attached owner) ns = true.
Proof.
  cbn [forallb]. intros [Hn Hns]%andb_true_iff. destruct cs as [cs|].
  - apply well_attached_Node in Hn as (Ho & Hne & Hcs).
    split; [done|]. split; [congruence|]. by split.
  - apply well_attached_leaf in Hn. by repeat split.
Qed.

Lemma ids_cons_inv r (l1 l2 : list row) :
  NoDup (id <$> r :: l1 ++ l2) →
  (id r ∉ id <$> l1) ∧ (id r ∉ id <$> l2) ∧
  NoDup (id <$> l1) ∧ NoDup (id <$> l2) ∧
  ∀ z, z ∈ id <$> l1 → z ∉ id <$> l2.
Proof.
  rewrite fmap_cons, fmap_app. intros [Hr Hnd]%NoDup_cons.
  apply not_elem_of_app in Hr as [H1 H2].
  apply NoDup_app in Hnd as (H3 & H4 & H5). by repeat split.
Qed.

Lemma owner_ok_child owner r z :
  owner_ok owner r = true →
  owner_ok (Some z) r = true ↔ owner = Some z.
Proof.
  unfold owner_ok. destruct owner as [z'|].
  - intros [Hn Hp]%andb_true_iff. rewrite Hn. simpl.
    apply bool_decide_eq_true in Hp. rewrite Hp, bool_decide_eq_true.
    split; congruence.
  - intros ->. simpl. split; done.
Qed.

(** No row of a forest names an id that does not occur in it, except the
    rows of its top level, which name their owner. *)
Lemma child_rows_absent forest :
  ∀ owner z,
    forallb (well_attached owner) forest = true →
    z ∉ id <$> flatten forest →
    child_rows z (flatten forest) =
    if decide (owner = Some z) then node_fields <$> forest else [].
Proof.
  induction forest as [|r cs ns IHcs IHns] using forest_ind;
    intros owner z Hw Hz.
  - by destruct (decide (owner = Some z)).
  - apply well_attached_cons in Hw as (Ho & _ & Hwc & Hwn).
    rewrite flatten_cons in Hz |- *. rewrite fmap_cons, fmap_app in Hz.
    apply not_elem_of_cons in Hz as [Hzr Hz].
    apply not_elem_of_app in Hz as [Hzc Hzn].
    unfold child_rows in *. rewrite filter_cons, filter_app.
    rewrite (IHcs (Some (id r)) z Hwc Hzc), (IHns owner z Hwn Hzn).
    rewrite (decide_False (P := Some (id r) = Some z)) by congruence.
    pose proof (owner_ok_child owner r z Ho) as Hiff.
    destruct (decide (owner = Some z)) as [Heq|Hne].
    + rewrite decide_True; [done|]. apply Is_true_true. by apply Hiff.
    + rewrite decide_False; [done|]. intros H%Is_true_true. by apply Hne, Hiff.
Qed.

(** The rows that name a node of the forest as their parent are the rows
    of its ['children'], in the same order. *)
Lemma child_rows_of_node forest :
  ∀ owner n,
    forallb (well_attached owner) forest = true →
    NoDup (id <$> flatten forest) →
    (∀ z, owner = Some z → z ∉ id <$> flatten forest) →
    n ∈ forest ≫= subnodes →
    child_rows (id (node_fields n)) (flatten forest) =
    node_fields <$> kids_of n.
Proof.
  induction forest as [|r cs ns IHcs IHns] using forest_ind;
    intros owner n Hw Hnd Hown Hn.
  - by apply elem_of_nil in Hn.
  - apply well_attached_cons in Hw as (Ho & _ & Hwc & Hwn).
    rewrite flatten_cons in Hnd, Hown |- *.
    destruct (ids_cons_inv _ _ _ Hnd) as (Hrc & Hrn & Hndc & Hndn & Hdisj).
    rewrite subnodes_cons in Hn.
    assert (∀ z, owner = Some z → z ≠ id r ∧
              (z ∉ id <$> flatten (default [] cs)) ∧ (z ∉ id <$> flatten ns))
      as Hown'.
    { intros z Hz. specialize (Hown z Hz).
      rewrite fmap_cons, fmap_app in Hown.
      apply not_elem_of_cons in Hown as [? Hown].
      by apply not_elem_of_app in Hown as [? ?]. }
    assert (owner_ok (Some (id (node_fields n))) r = true →
            id (node_fields n) ∉ id <$> r :: flatten (default [] cs) ++ flatten ns)
      as Hhead.
    { intros H. apply Hown. by apply (owner_ok_child owner r). }
    unfold child_rows. rewrite filter_cons, filter_app.
    fold (child_rows (id (node_fields n)) (flatten (default [] cs))).
    fold (child_rows (id (node_fields n)) (flatten ns)).
    assert (∀ G, n ∈ G ≫= subnodes → id (node_fields n) ∈ id <$> flatten G)
      as Hin.
    { intros G HG. unfold flatten. by do 2 apply list_elem_of_fmap_2. }
    apply elem_of_cons in Hn as [->|Hn]; [|apply elem_of_app in Hn as [Hn|Hn]].
    + cbn [node_fields] in *.
      rewrite decide_False.
      2:{ intros H%Is_true_true. apply (Hhead H).
          rewrite fmap_cons. apply elem_of_cons. by left. }
      rewrite (child_rows_absent _ (Some (id r)) (id r) Hwc Hrc).
      rewrite (child_rows_absent _ owner (id r) Hwn Hrn).
      rewrite decide_True by done. rewrite decide_False.
      2:{ intros Heq. by destruct (Hown' _ Heq). }
      by rewrite app_nil_r.
    + pose proof (Hin _ Hn) as Hid.
      rewrite decide_False.
      2:{ intros H%Is_true_true. apply (Hhead H).
          rewrite fmap_cons, fmap_app. apply elem_of_cons. right.
          apply elem_of_app. by left. }
      rewrite (IHcs (Some (id r)) n Hwc Hndc); [| |done].
      2:{ intros z [= <-]. done. }
      rewrite (child_rows_absent _ owner _ Hwn (Hdisj _ Hid)).
      rewrite decide_False.
      2:{ intros Heq. by destruct (Hown' _ Heq) as (_ & ? & _). }
      by rewrite app_nil_r.
    + pose proof (Hin _ Hn) as Hid.
      rewrite decide_False.
      2:{ intros H%Is_true_true. apply (Hhead H).
          rewrite fmap_cons, fmap_app. apply elem_of_cons. right.
          apply elem_of_app. by right. }
      rewrite (child_rows_absent _ (Some (id r)) _ Hwc).
      2:{ intros Hc. by apply (Hdisj _ Hc). }
      rewrite decide_False.
      2:{ intros [= Heq]. apply Hrn. by rewrite Heq. }
      rewrite (IHns owner n Hwn Hndn); [done| |done].
      intros z Hz. by destruct (Hown' _ Hz) as (_ & _ & ?).
Qed.

(** Only the top level of a returned forest holds roots. *)
Lemma root_rows_of_forest forest :
  ∀ owner,
    forallb (well_attached owner) forest = true →
    filter (λ r, is_root r) (flatten forest) =
    if owner is None then node_fields <$> forest else [].
Proof.
  induction forest as [|r cs ns IHcs IHns] using forest_ind; intros owner Hw.
  - by destruct owner.
  - apply well_attached_cons in Hw as (Ho & _ & Hwc & Hwn).
    rewrite flatten_cons, filter_cons, filter_app.
    rewrite (IHcs _ Hwc), (IHns _ Hwn). unfold owner_ok, is_root in *.
    destruct owner as [z|].
    + apply andb_true_iff in Ho as [Ho _]. rewrite decide_False; [done|].
      intros H%Is_true_true. by rewrite H in Ho.
    + rewrite decide_True; [done|]. by apply Is_true_true.
Qed.

(** In the flattened forest every row below the top level comes after the
    row it names as its parent. *)
Lemma parent_precedes forest :
  ∀ owner c r,
    forallb (well_attached owner) forest = true →
    flatten forest !! c = Some r →
    owner_ok owner r = true ∨
    ∃ p q, p < c ∧ flatten forest !! p = Some q ∧
           owner_ok (Some (id q)) r = true.
Proof.
  induction forest as [|r0 cs ns IHcs IHns] using forest_ind;
    intros owner c r Hw Hc; [done|].
  apply well_attached_cons in Hw as (Ho & _ & Hwc & Hwn).
  rewrite flatten_cons in Hc |- *. destruct c as [|c].
  { injection Hc as <-. by left. }
  rewrite lookup_cons in Hc.
  destruct (decide (c < length (flatten (default [] cs)))) as [Hlt|Hge].
  - rewrite lookup_app_l in Hc by done.
    destruct (IHcs _ _ _ Hwc Hc) as [Htop|(p & q & Hp & Hq & Hok)].
    + right. exists 0, r0. split; [lia|]. by split.
    + right. exists (S p), q. split; [lia|]. split; [|done].
      rewrite lookup_cons, lookup_app_l; [done|].
      by eapply lookup_lt_Some.
  - rewrite lookup_app_r in Hc by lia.
    destruct (IHns _ _ _ Hwn Hc) as [Htop|(p & q & Hp & Hq & Hok)].
    + by left.
    + right. exists (S (length (flatten (default [] cs)) + p)), q.
      split; [lia|]. split; [|done].
      rewrite lookup_cons, lookup_app_r by lia. rewrite <- Hq. f_equal. lia.
Qed.

Lemma forest_height_cons r cs ns :
  forest_height (Node r cs :: ns) =
  S (forest_height (default [] cs)) `max` forest_height ns.
Proof. unfold forest_height. simpl. by destruct cs. Qed.

Lemma forest_height_size forest :
  forest_height forest ≤ length (flatten forest).
Proof.
  induction forest as [|r cs ns IHcs IHns] using forest_ind; [done|].
  rewrite forest_height_cons, flatten_cons. simpl. rewrite length_app. lia.
Qed.

(** ** Nesting a flattened forest again *)

Lemma forest_height_pos forest : forest ≠ [] → 0 < forest_height forest.
Proof.
  destruct forest as [|[r cs] ns]; [done|]. intros _.
  rewrite forest_height_cons. lia.
Qed.

(** A store whose ['children'] lists hold, in input order, the children of
    each dict reads back as the forest the input was flattened from. *)
Lemma view_of_flattened forest h :
  forallb (well_attached None) forest = true →
  NoDup (id <$> flatten forest) →
  attached (flatten forest) h →
  (∀ p d, h !! p = Some d →
     kids_at d = filter (λ c, is_child (flatten forest) c p)
                   (fresh_list (flatten forest))) →
  ∀ G owner ls fuel,
    forallb (well_attached owner) G = true →
    G ≫= subnodes ⊆ forest ≫= subnodes →
    Forall2 (row_at (flatten forest)) ls (node_fields <$> G) →
    forest_height G ≤ fuel → 0 < fuel →
    view fuel h ls = Done G.
Proof.
  intros Hw Hnd Ha Hkids. set (rows := flatten forest) in *.
  induction G as [|r cs ns IHcs IHns] using forest_ind;
    intros owner ls fuel HwG Hsub Hls Hh Hfuel.
  - apply Forall2_nil_inv_r in Hls as ->. destruct fuel; [lia|done].
  - rewrite fmap_cons in Hls.
    apply Forall2_cons_inv_r in Hls as (l & ls' & Hl & Hls & ->).
    cbn [node_fields] in Hl. unfold row_at in Hl.
    apply well_attached_cons in HwG as (Ho & Hne & Hwc & Hwn).
    rewrite subnodes_cons in Hsub. rewrite forest_height_cons in Hh.
    destruct fuel as [|fuel]; [lia|].
    destruct (attached_lookup_inv _ _ _ _ Ha Hl) as (d & Hd & Hfd).
    assert (Forall2 (row_at rows) (kids_at d) (node_fields <$> default [] cs))
      as Hk.
    { rewrite (Hkids l d Hd). change (default [] cs) with (kids_of (Node r cs)).
      rewrite <- (child_rows_of_node forest None (Node r cs) Hw Hnd).
      - cbn [node_fields]. unfold child_rows.
        rewrite (list_filter_iff (λ c, is_child rows c l)
                   (λ c, loc_sat (owner_ok (Some (id r))) rows c)).
        + apply filter_fresh_rows.
        + intros c. unfold is_child, loc_sat. rewrite Hl.
          destruct (rows !! c); [|done]. by rewrite Is_true_true.
      - done.
      - apply Hsub, elem_of_cons. by left. }
    rewrite view_cons, (deref_lookup _ _ _ Hd). cbn [mbind outcome_bind].
    rewrite (IHns owner ls' (S fuel)); [|done| |done|lia|lia].
    2:{ intros x Hx. apply Hsub, elem_of_cons. right.
        apply elem_of_app. by right. }
    unfold kids_at in Hk. destruct (children d) as [ks|] eqn:Hks.
    + destruct (att_kids _ _ Ha _ _ _ Hd Hks) as [Hkne _]. simpl in Hk.
      destruct cs as [cs|].
      2:{ apply Forall2_nil_inv_r in Hk. done. }
      simpl in Hk.
      assert (cs ≠ []) as Hcne by congruence.
      pose proof (forest_height_pos cs Hcne) as Hpos.
      change (default [] (Some cs)) with cs in *.
      rewrite (IHcs (Some (id r)) ks fuel); [|done| |done|lia|lia].
      2:{ intros x Hx. apply Hsub, elem_of_cons. right.
          apply elem_of_app. by left. }
      simpl. by rewrite Hfd.
    + simpl in Hk. destruct cs as [cs|].
      * simpl in Hk. apply Forall2_nil_inv_l in Hk.
        apply fmap_nil_inv in Hk. congruence.
      * simpl. by rewrite Hfd.
Qed.

(** Materializing the flat form of a well-attached forest returns it. *)
Lemma renest_flattened fuel forest :
  forallb (well_attached None) forest = true →
  NoDup (id <$> flatten forest) →
  length (flatten forest) < fuel →
  list_to_tree fuel (flatten forest) = Done forest.
Proof.
  intros Hw Hnd Hfuel. set (rows := flatten forest) in *.
  assert (∀ c r, rows !! c = Some r → is_nonroot r = true →
                 ∃ p, is_child rows c p ∧ p < c) as Hbefore.
  { intros c r Hc Hn.
    destruct (parent_precedes forest None c r Hw Hc)
      as [Htop|(p & q & Hp & Hq & Hok)].
    - unfold owner_ok, is_nonroot in *. by rewrite Htop in Hn.
    - exists p. split; [|done]. unfold is_child. fold rows in Hq.
      by rewrite Hc, Hq. }
  assert (∀ c p, is_child rows c p → p < c) as Hsorted.
  { intros c p Hch. pose proof Hch as Hch'. unfold is_child in Hch'.
    destruct (rows !! c) as [r|] eqn:Hc; [|done].
    destruct (rows !! p) as [q|] eqn:Hq; [|done].
    apply andb_true_iff in Hch' as [Hn _].
    destruct (Hbefore c r Hc Hn) as (p' & Hch'' & Hlt).
    by rewrite (is_child_unique rows Hnd c p p' Hch Hch''). }
  destruct (sorted_run rows (λ c, c) Hnd Hbefore (λ c H, H) fuel
              Hsorted Hfuel) as (h' & Hrun & Hi & Hkids).
  unfold list_to_tree. rewrite Hrun. cbn [mbind outcome_bind store returned].
  apply (view_of_flattened forest h' Hw Hnd (inv_att _ _ _ Hi) Hkids
           forest None); [done|done| | |lia].
  - rewrite <- (root_rows_of_forest forest None Hw).
    apply filter_fresh_rows.
  - pose proof (forest_height_size forest). fold rows in H. lia.
Qed.

(** C7: on a resolvable, acyclic input with unique ids, flattening the
    returned forest and materializing the flat list again returns the same
    forest. *)
Theorem materialization_round_trip fuel rows :
  NoDup (id <$> rows) → resolvable rows → acyclic rows →
  length rows < fuel →
  ∃ forest, list_to_tree fuel rows = Done forest ∧
            list_to_tree fuel (flatten forest) = Done forest.
Proof.
  intros Hnd Hres Hacy Hfuel.
  destruct (returns_all_rows fuel rows Hnd Hres Hacy Hfuel)
    as (forest & Hrun & Hperm).
  exists forest. split; [done|].
  destruct (list_to_tree_shape _ _ _ Hrun) as [_ Hw].
  apply renest_flattened; [done| |].
  - by rewrite Hperm.
  - by rewrite (Permutation_length Hperm).
Qed.

Lemma materialization_round_trip_witness :
  ∃ forest, list_to_tree 5 chain_input = Done forest ∧
            list_to_tree 5 (flatten forest) = Done forest.
Proof.
  destruct chain_input_good as (H1 & H2 & H3).
  apply (materialization_round_trip 5 chain_input H1 H2 H3).
  simpl. lia.
Defined.

(** ** The date-bucketed listing *)

Example may_june_run :
  list_treeholes_all 3 may_june_table =
  Done [("2021-06",
         [Entry 2 "second" None "2021-06-01 08:00:00" None]);
        ("2021-05",
         [Entry 1 "first" None "2021-05-03 10:20:30"
            (Some [leaf (hole 3 "reply" (DateTime 2021 6 2 9 15 0)
                           (Some 1%Z))])])].
Proof. vm_compute. reflexivity. Qed.

Lemma bucket_loop_step date_list time_str e (g : string → list entry) :
  bucket_loop date_list time_str e ((λ d, (d, g d)) <$> date_list) =
  (λ d, (d, g d ++ if decide (time_str = d) then [e] else [])) <$> date_list.
Proof.
  induction date_list as [|d ds IH]; [done|].
  rewrite !fmap_cons. cbn [bucket_loop]. rewrite IH. f_equal.
  destruct (decide (d = time_str)) as [->|Hne].
  - by rewrite decide_True.
  - rewrite decide_False by congruence. by rewrite app_nil_r.
Qed.

Lemma bucket_fold date_list forest :
  ∀ seen,
    foldl (λ res obj,
             bucket_loop date_list
               (strftime_Ym (created_time (node_fields obj)))
               (entry_of obj) res)
      (bucket_of seen <$> date_list) forest =
    bucket_of (seen ++ forest) <$> date_list.
Proof.
  induction forest as [|obj forest IH]; intros seen.
  - by rewrite app_nil_r.
  - cbn [foldl]. unfold bucket_of at 1.
    rewrite (bucket_loop_step date_list _ _
               (λ d, entry_of <$> filter (λ o, strftime_Ym
                       (created_time (node_fields o)) = d) seen)).
    rewrite (cons_middle obj seen forest), app_assoc, <- IH. f_equal.
    apply list_fmap_ext. intros i d _. unfold bucket_of. f_equal.
    rewrite filter_app, fmap_app. f_equal.
    rewrite filter_cons, filter_nil. by destruct (decide _).
Qed.

Lemma insert_month_elem d x l : x ∈ insert_month d l ↔ x = d ∨ x ∈ l.
Proof.
  induction l as [|y l IH]; cbn [insert_month].
  - rewrite list_elem_of_singleton, elem_of_nil. tauto.
  - destruct (decide (d = y)) as [->|Hne].
    + rewrite elem_of_cons. tauto.
    + destruct (decide (newer d y)).
      * rewrite elem_of_cons. tauto.
      * rewrite !elem_of_cons, IH. tauto.
Qed.

Lemma insert_month_sorted d l :
  d_day d = 1%Z → Forall (λ x, d_day x = 1%Z) l →
  StronglySorted newer l → StronglySorted newer (insert_month d l).
Proof.
  intros Hd Hdays Hs. induction Hs as [|y l Hs IH Hy]; cbn [insert_month].
  - repeat constructor.
  - apply Forall_cons in Hdays as [Hyd Hdays].
    destruct (decide (d = y)) as [->|Hne]; [by constructor|].
    destruct (decide (newer d y)) as [Hnew|Hold].
    + constructor; [by constructor|]. constructor; [done|].
      eapply Forall_impl; [exact Hy|]. intros z Hz. unfold newer in *. lia.
    + constructor; [by apply IH|]. apply Forall_forall. intros z Hz.
      apply insert_month_elem in Hz as [->|Hz].
      * destruct d as [dy dm dd], y as [yy ym yd]. unfold newer in *.
        simpl in *. subst.
        assert (dy ≠ yy ∨ dm ≠ ym) as Hdiff.
        { destruct (decide (dy = yy)) as [->|]; [|by left].
          right. intros ->. done. }
        lia.
      * rewrite Forall_forall in Hy. by apply Hy.
Qed.

Lemma dates_month_desc_days table :
  Forall (λ x, d_day x = 1%Z) (dates_month_desc table).
Proof.
  induction table as [|r table IH]; [constructor|]. cbn [dates_month_desc foldr].
  apply Forall_forall. intros x Hx. apply insert_month_elem in Hx as [->|Hx].
  - done.
  - rewrite Forall_forall in IH. by apply IH.
Qed.

(** The buckets are distinct months, most recent first. *)
Lemma dates_month_desc_sorted table :
  StronglySorted newer (dates_month_desc table).
Proof.
  induction table as [|r table IH]; [constructor|]. cbn [dates_month_desc foldr].
  apply insert_month_sorted; [done|apply dates_month_desc_days|exact IH].
Qed.

(** Every record has its month among the buckets. *)
Lemma dates_month_desc_complete table r :
  r ∈ table → trunc_month (created_time r) ∈ dates_month_desc table.
Proof.
  induction 1 as [r table|r r' table _ IH]; cbn [dates_month_desc foldr];
    apply insert_month_elem; [by left|by right].
Qed.

Lemma digit_inj a b : digit a = digit b → (a `mod` 10 = b `mod` 10)%Z.
Proof.
  unfold digit. intros H. apply (f_equal nat_of_ascii) in H.
  pose proof (Z.mod_pos_bound a 10 eq_refl) as Ha.
  pose proof (Z.mod_pos_bound b 10 eq_refl) as Hb.
  rewrite !nat_ascii_embedding in H by lia. lia.
Qed.

Lemma pad2_inj a b :
  (0 ≤ a < 100)%Z → (0 ≤ b < 100)%Z → pad2 a = pad2 b → a = b.
Proof.
  intros Ha Hb H. unfold pad2 in H. injection H as H1 H0.
  apply digit_inj in H1, H0. Z.div_mod_to_equations. lia.
Qed.

Lemma pad4_inj a b :
  (0 ≤ a < 10000)%Z → (0 ≤ b < 10000)%Z → pad4 a = pad4 b → a = b.
Proof.
  intros Ha Hb H. unfold pad4, pad2 in H. injection H as H3 H2 H1 H0.
  apply digit_inj in H3, H2, H1, H0. Z.div_mod_to_equations. lia.
Qed.

(** The label of a date is the label of a timestamp exactly when the
    timestamp lies in the month of the date. *)
Lemma label_inj d t :
  valid_date d → valid_time t →
  strftime_Ym t = String.substring 0 7 (isoformat d) ↔ in_month d t.
Proof.
  intros [Hy Hm] [Hty Htm]. unfold in_month. split.
  - intros H. change (String.substring 0 7 (isoformat d))
      with (pad4 (d_year d) +:+ "-" +:+ pad2 (d_month d)) in H.
    unfold strftime_Ym, strftime_Y in H. rewrite decide_True in H by lia.
    assert (pad4 (year t) = pad4 (d_year d) ∧ pad2 (month t) = pad2 (d_month d))
      as [H4 H2].
    { unfold pad4, pad2 in *. simpl in H. injection H as -> -> -> -> -> ->.
      done. }
    split; [apply pad4_inj in H4|apply pad2_inj in H2]; lia.
  - intros [Hyy Hmm]. destruct d as [dy dm dd], t as [ty tm td th tmi ts].
    simpl in *. subst. unfold strftime_Ym, strftime_Y. simpl.
    rewrite decide_True by lia. reflexivity.
Qed.

Lemma filter_ext_Forall {A} (P Q : A → Prop)
    `{∀ x, Decision (P x)} `{∀ x, Decision (Q x)} (l : list A) :
  Forall (λ x, P x ↔ Q x) l → filter P l = filter Q l.
Proof.
  induction 1 as [|x l Hx _ IH]; [done|]. rewrite !filter_cons, IH.
  destruct (decide (P x)), (decide (Q x)); tauto.
Qed.

(** For a timestamp with a four-digit year the two ways in which the view
    prints a month agree: [isoformat()[:7]] of the first day of the month
    and [strftime('%Y-%m')]. *)
Lemma label_of_month t :
  valid_time t →
  String.substring 0 7 (isoformat (trunc_month t)) = strftime_Ym t.
Proof.
  intros [Hy _]. unfold strftime_Ym, strftime_Y.
  rewrite decide_True by lia. reflexivity.
Qed.

Lemma dates_month_desc_sound table d :
  d ∈ dates_month_desc table →
  ∃ r, r ∈ table ∧ d = trunc_month (created_time r).
Proof.
  induction table as [|r table IH]; cbn [dates_month_desc foldr].
  - intros Hd. by apply elem_of_nil in Hd.
  - intros [->|Hd]%insert_month_elem.
    + exists r. split; [apply elem_of_cons; by left|done].
    + destruct (IH Hd) as (r' & Hr' & ->). exists r'.
      split; [apply elem_of_cons; by right|done].
Qed.

(** Below year 1000 the two disagree, and the record is listed in no
    group: its month has a group, labelled by [isoformat], which stays
    empty. *)
Example year_999_is_in_no_group :
  list_treeholes_all 3 [hole 1 "old" (DateTime 999 5 3 10 20 30) None] =
  Done [("0999-05", [])].
Proof. vm_compute. reflexivity. Qed.

(** C8: for timestamps with a four-digit year, the listing has one group
    per month that has a record, most recent month first; the group of a
    month holds, in forest order, the top-level nodes created in that month,
    each with its subtree; and every top-level node has its month among the
    groups. *)
Theorem date_bucketed_listing fuel table forest :
  Forall (λ r, valid_time (created_time r)) table →
  list_to_tree fuel table = Done forest →
  list_treeholes_all fuel table = Done (bucket_of forest <$> date_labels table) ∧
  StronglySorted newer (dates_month_desc table) ∧
  (∀ obj, obj ∈ forest →
          strftime_Ym (created_time (node_fields obj)) ∈ date_labels table) ∧
  (∀ d, d ∈ dates_month_desc table →
        bucket_of forest (String.substring 0 7 (isoformat d)) =
        (String.substring 0 7 (isoformat d),
         entry_of <$>
           filter (λ obj, in_month d (created_time (node_fields obj)))
             forest)).
Proof.
  intros Hvalid Hrun. rewrite Forall_forall in Hvalid.
  destruct (list_to_tree_shape _ _ _ Hrun) as [Htop _].
  assert (∀ obj, obj ∈ forest → node_fields obj ∈ table) as Hin.
  { intros obj Hobj.
    apply (list_elem_of_fmap_2 node_fields) in Hobj. rewrite Htop in Hobj.
    by apply list_elem_of_filter in Hobj as [_ ?]. }
  split; [|split; [|split]].
  - unfold list_treeholes_all. rewrite Hrun. cbn [mbind outcome_bind].
    f_equal. pose proof (bucket_fold (date_labels table) forest []) as Hfold.
    rewrite app_nil_l in Hfold. by rewrite <- Hfold.
  - apply dates_month_desc_sorted.
  - intros obj Hobj. rewrite <- label_of_month by (by apply Hvalid, Hin).
    unfold date_labels.
    apply (list_elem_of_fmap_2 (λ d, String.substring 0 7 (isoformat d))).
    by apply dates_month_desc_complete, Hin.
  - intros d Hd. unfold bucket_of. f_equal. f_equal.
    apply filter_ext_Forall, Forall_forall. intros obj Hobj.
    apply label_inj; [|by apply Hvalid, Hin].
    destruct (dates_month_desc_sound _ _ Hd) as (r & Hr & ->).
    destruct (Hvalid r Hr) as [Hy Hm]. split; simpl; lia.
Qed.

Lemma date_bucketed_listing_witness :
  list_treeholes_all 3 may_june_table =
    Done [("2021-06", [Entry 2 "second" None "2021-06-01 08:00:00" None]);
          ("2021-05",
           [Entry 1 "first" None "2021-05-03 10:20:30"
              (Some [leaf (hole 3 "reply" (DateTime 2021 6 2 9 15 0)
                             (Some 1%Z))])])] ∧
  StronglySorted newer (dates_month_desc may_june_table) ∧
  (∀ obj, obj ∈ may_june_forest →
          strftime_Ym (created_time (node_fields obj))
            ∈ date_labels may_june_table) ∧
  (∀ d, d ∈ dates_month_desc may_june_table →
        bucket_of may_june_forest (String.substring 0 7 (isoformat d)) =
        (String.substring 0 7 (isoformat d),
         entry_of <$>
           filter (λ obj, in_month d (created_time (node_fields obj)))
             may_june_forest)).
Proof.
  apply (date_bucketed_listing 3 may_june_table may_june_forest).
  - repeat constructor; simpl; lia.
  - vm_compute. reflexivity.
Defined.

(** ** Dicts the search can reach *)

Lemma find_parent_reach fuel h tree item p :
  find_parent fuel h tree item = Done (Some p) → reach h tree p.
Proof.
  revert tree p. induction fuel as [|fuel IHf]; intros tree p; [done|].
  induction tree as [|q tree IHt]; [done|].
  rewrite find_parent_cons. intros H. bind_inv H. apply deref_Done in Ha.
  assert (∀ x, reach h tree x → reach h (q :: tree) x) as Hlift.
  { intros x. apply reach_mono. intros y Hy. apply elem_of_cons. by right. }
  destruct (id_matches a item).
  - injection H as <-. apply reach_top, elem_of_cons. by left.
  - destruct (children a) as [cs|] eqn:Hcs; [|by apply Hlift, IHt].
    bind_inv H. destruct a0 as [q'|]; [|by apply Hlift, IHt].
    injection H as <-.
    apply (reach_below _ _ q a); [apply elem_of_cons; by left|done|].
    unfold kids_at. rewrite Hcs. by apply IHf.
Qed.

Lemma reach_insert h ls p p_item c q :
  h !! p = Some p_item → reach h ls q →
  reach (<[p := append_child p_item c]> h) ls q.
Proof.
  intros Hp. induction 1 as [l Hl|p' d' c' _ IH Hp' Hc].
  - by apply reach_top.
  - destruct (decide (p = p')) as [<-|Hne].
    + eapply reach_kid; [exact IH| |].
      * apply list_lookup_insert_eq. by eapply lookup_lt_Some.
      * rewrite kids_at_append. apply elem_of_app. left. congruence.
    + eapply reach_kid; [exact IH| |exact Hc].
      by rewrite list_lookup_insert_ne.
Qed.

Lemma walk_top h ls w l : walk h ls w → l ∈ ls → l ∈ w.
Proof.
  induction 1 as [|l' ls d wk wr Hl _ IHk _ IHr]; intros Hin.
  - by apply elem_of_nil in Hin.
  - apply elem_of_cons in Hin as [->|Hin]; [apply elem_of_cons; by left|].
    apply elem_of_cons. right. apply elem_of_app. right. by apply IHr.
Qed.

Lemma walk_kid h ls w p d c :
  walk h ls w → p ∈ w → h !! p = Some d → c ∈ kids_at d → c ∈ w.
Proof.
  induction 1 as [|l ls d' wk wr Hl Hwk IHk _ IHr]; intros Hp Hd Hc.
  - by apply elem_of_nil in Hp.
  - apply elem_of_cons. right. apply elem_of_app.
    apply elem_of_cons in Hp as [->|Hp].
    + left. apply (walk_top _ _ _ _ Hwk). congruence.
    + apply elem_of_app in Hp as [Hp|Hp];
        [left; by apply IHk|right; by apply IHr].
Qed.

(** The pre-order enumeration meets every dict the search can reach. *)
Lemma reach_walk h ls w l : walk h ls w → reach h ls l → l ∈ w.
Proof.
  intros Hw. induction 1 as [l Hl|p d c _ IH Hp Hc].
  - by eapply walk_top.
  - by eapply walk_kid.
Qed.

(** ** No record is lost *)

(** When [list.remove] takes another dict than [item] out of the list, that
    dict has the columns of [item], which has just been attached. *)
Lemma attach_loop_rows_kept rows fuel tree snapshot :
  ∀ h lst h' lst',
    attached rows h →
    Forall (λ c, loc_sat is_nonroot rows c) snapshot →
    rows_kept rows h tree lst →
    attach_loop fuel tree snapshot h lst = Done (h', lst') →
    rows_kept rows h' tree lst'.
Proof.
  induction snapshot as [|item rest IH]; intros h lst h' lst' Ha Hs Hk H.
  - by injection H as <- <-.
  - apply Forall_cons in Hs as [Hi Hs].
    cbn [attach_loop] in H. bind_inv H. apply deref_Done in Ha0.
    bind_inv H. destruct a0 as [p|]; [|by eapply IH].
    bind_inv H. apply deref_Done in Ha2. cbn zeta in H. bind_inv H.
    assert (is_child rows item p) as Hch.
    { eapply find_parent_child; [done..| |done].
      cbv beta in Hi. rewrite (loc_sat_lookup _ _ _ _ _ Ha Ha0) in Hi.
      by apply Is_true_true. }
    pose proof (attached_insert _ _ _ _ _ Ha Ha2 Hch) as Ha'.
    eapply (IH _ _ _ _ Ha' Hs); [|exact H].
    intros l r Hl.
    assert (reach (<[p:=append_child a0 item]> h) tree item) as Hitem.
    { eapply reach_kid.
      - apply reach_insert; [done|]. by eapply find_parent_reach.
      - apply list_lookup_insert_eq. by eapply lookup_lt_Some.
      - rewrite kids_at_append. apply elem_of_app. right.
        by apply list_elem_of_singleton. }
    destruct (Hk l r Hl) as [Hin|(l' & Hr & Hl')].
    + destruct (list_remove_keeps _ _ _ _ _ l Ha3 Hin) as [?|Heq]; [by left|].
      right. exists item. split; [done|].
      apply dict_eqb_true in Heq as [->|(dl & di & Hdl & Hdi & Hf)]; [done|].
      rewrite (attached_lookup _ _ _ _ Ha' Hdi), <- Hf.
      by rewrite <- (attached_lookup _ _ _ _ Ha' Hdl).
    + right. exists l'. split; [|done]. by apply reach_insert.
Qed.

Lemma while_loop_rows_kept rows passes fuel tree :
  ∀ h lst h' lst',
    attached rows h →
    Forall (λ c, loc_sat is_nonroot rows c) lst →
    rows_kept rows h tree lst →
    while_loop passes fuel tree h lst = Done (h', lst') →
    rows_kept rows h' tree lst'.
Proof.
  induction passes as [|passes IH]; intros h lst h' lst' Ha Hl Hk H.
  - destruct lst; [by injection H as <- <-|done].
  - destruct lst as [|c0 l0] eqn:Hlst; [by injection H as <- <-|].
    rewrite <- Hlst in *. rewrite Hlst in H at 1. cbn [while_loop] in H.
    rewrite <- Hlst in H. bind_inv H. destruct a as [h1 l1].
    pose proof (attach_loop_rows_kept _ _ _ _ _ _ _ _ Ha Hl Hk Ha0) as Hk1.
    apply attach_loop_attached with (rows := rows) in Ha0 as [Ha1 Hsub];
      [|done..].
    apply (IH _ _ _ _ Ha1) in H; [done| |done].
    apply Forall_forall. intros x Hx. apply sublist_subseteq in Hsub.
    rewrite Forall_forall in Hl. by apply Hl, Hsub.
Qed.

Lemma returned_rows fuel rows forest :
  list_to_tree fuel rows = Done forest →
  ∀ r, r ∈ flatten forest ↔ r ∈ rows.
Proof.
  unfold list_to_tree. intros H. bind_inv H.
  pose proof (run_attached _ _ _ Ha) as (Hatt & Hrem & Hret).
  rewrite Hret in H.
  destruct (view_walk rows _ _ _ _ Hatt H) as (w & Hw & Hf).
  unfold list_to_tree_run in Ha. bind_inv Ha. destruct a0 as [tree lst1].
  bind_inv Ha. destruct a0 as [h' lst2]. injection Ha as <-.
  cbn [store remaining returned] in *. subst lst2.
  apply (roots_loop_spec rows _ _ _ [] []) in Ha0 as [-> ->];
    [|apply alloc_attached|constructor].
  simpl in Ha1.
  apply (while_loop_rows_kept rows) in Ha1.
  - intros r. split.
    + intros Hr. apply list_elem_of_lookup_1 in Hr as [i Hi].
      destruct (Forall2_lookup_r _ _ _ _ _ Hf Hi) as (l & _ & Hl).
      by eapply list_elem_of_lookup_2.
    + intros Hr. apply list_elem_of_lookup_1 in Hr as [l Hl].
      destruct (Ha1 l r Hl) as [Hin|(l' & Hreach & Hl')];
        [by apply elem_of_nil in Hin|].
      pose proof (reach_walk _ _ _ _ Hw Hreach) as Hin.
      apply list_elem_of_lookup_1 in Hin as [i Hi].
      destruct (Forall2_lookup_l _ _ _ _ _ Hf Hi) as (r' & Hr' & Hrow).
      unfold row_at in Hrow. rewrite Hl' in Hrow. injection Hrow as <-.
      by eapply list_elem_of_lookup_2.
  - apply alloc_attached.
  - apply Forall_forall. intros x Hx.
    by apply list_elem_of_filter in Hx as [? _].
  - intros l r Hl. unfold loc_sat.
    destruct (is_root r) eqn:Hroot.
    + right. exists l. split; [|done]. apply reach_top.
      apply list_elem_of_filter. split.
      * apply Is_true_true. unfold loc_sat. by rewrite Hl.
      * apply elem_of_seq. apply lookup_lt_Some in Hl. lia.
    + left. apply list_elem_of_filter. split.
      * apply Is_true_true. unfold loc_sat. rewrite Hl.
        unfold is_nonroot, is_root in *. by rewrite Hroot.
      * apply elem_of_seq. apply lookup_lt_Some in Hl. lia.
Qed.

(** X1: whatever the input, also one with repeated ids, a forest that
    [list_to_tree] returns holds every record of the input, and holds
    records of the input only. *)
Theorem no_record_lost fuel rows forest :
  list_to_tree fuel rows = Done forest →
  rows ⊆ flatten forest ∧ flatten forest ⊆ rows.
Proof.
  intros H. pose proof (returned_rows _ _ _ H) as Hrows.
  split; intros r Hr; by apply Hrows.
Qed.

Lemma no_record_lost_witness :
  duplicate_input ⊆ flatten duplicate_forest ∧
  flatten duplicate_forest ⊆ duplicate_input.
Proof.
  apply (no_record_lost 7 duplicate_input duplicate_forest).
  vm_compute. reflexivity.
Defined.

(** ** Runs never raise *)

Lemma no_raise_bind {A B} (m : outcome A) (k : A → outcome B) :
  no_raise m → (∀ a, m = Done a → no_raise (k a)) → no_raise (m ≫= k).
Proof.
  intros Hm Hk e. destruct m as [a|e'|]; simpl.
  - by apply Hk.
  - by destruct (Hm e').
  - done.
Qed.

Lemma no_raise_Done {A} (a : A) : no_raise (Done a).
Proof. intros e. done. Qed.

Lemma attached_length rows h : attached rows h → length h = length rows.
Proof. intros [<- _]. by rewrite length_fmap. Qed.

Lemma attached_deref rows h l :
  attached rows h → l < length rows → ∃ d, h !! l = Some d.
Proof.
  intros Ha Hl. apply lookup_lt_is_Some_2. by rewrite (attached_length _ _ Ha).
Qed.

Lemma attached_kids_valid rows h p d cs :
  attached rows h → h !! p = Some d → children d = Some cs →
  Forall (λ c, c < length rows) cs.
Proof.
  intros Ha Hp Hcs. destruct (att_kids _ _ Ha _ _ _ Hp Hcs) as [_ Hall].
  eapply Forall_impl; [exact Hall|]. intros c Hc. unfold is_child in Hc.
  destruct (rows !! c) eqn:Hr; [|done]. by eapply lookup_lt_Some.
Qed.

Lemma dict_eqb_no_raise rows fuel h :
  attached rows h →
  ∀ a b, a < length rows → b < length rows → no_raise (dict_eqb fuel h a b).
Proof.
  intros Ha. induction fuel as [|fuel IH]; intros a b Hla Hlb.
  - simpl. by destruct (bool_decide (a = b)).
  - simpl. destruct (bool_decide (a = b)); [apply no_raise_Done|].
    destruct (attached_deref _ _ _ Ha Hla) as [da Hda].
    destruct (attached_deref _ _ _ Ha Hlb) as [db Hdb].
    rewrite (deref_lookup _ _ _ Hda), (deref_lookup _ _ _ Hdb).
    cbn [mbind outcome_bind].
    destruct (bool_decide (fields da = fields db)); [|apply no_raise_Done].
    destruct (children da) as [ca|] eqn:Hca, (children db) as [cb|] eqn:Hcb;
      try apply no_raise_Done.
    destruct (bool_decide (length ca = length cb)); [|apply no_raise_Done].
    pose proof (attached_kids_valid _ _ _ _ _ Ha Hda Hca) as Hva.
    pose proof (attached_kids_valid _ _ _ _ _ Ha Hdb Hcb) as Hvb.
    clear Hca Hcb. revert cb Hvb.
    induction Hva as [|x ca Hx _ IHa]; intros cb Hvb; [apply no_raise_Done|].
    destruct Hvb as [|y cb Hy Hvb]; [apply no_raise_Done|].
    apply no_raise_bind; [by apply IH|]. intros [] _; [|apply no_raise_Done].
    by apply IHa.
Qed.

(** [list.remove(item)] on a list that holds [item] finds an element equal
    to it: no [ValueError]. *)
Lemma list_remove_no_raise rows fuel h item kept rest :
  attached rows h → item < length rows →
  Forall (λ c, c < length rows) kept →
  no_raise (list_remove fuel h item (kept ++ item :: rest)).
Proof.
  intros Ha Hi Hk. induction Hk as [|y kept Hy _ IH].
  - cbn [app list_remove]. rewrite dict_eqb_refl. apply no_raise_Done.
  - cbn [app list_remove]. apply no_raise_bind.
    + by eapply dict_eqb_no_raise.
    + intros [] _; [apply no_raise_Done|].
      apply no_raise_bind; [exact IH|]. intros ? _. apply no_raise_Done.
Qed.

(** The element it removes is [item] or stands before it, so the part of
    the list that the loop has not visited yet stays as it is. *)
Lemma list_remove_shape fuel h item kept rest r (P : loc → Prop) :
  Forall P kept → P item →
  list_remove fuel h item (kept ++ item :: rest) = Done r →
  ∃ kept', r = kept' ++ rest ∧ Forall P kept'.
Proof.
  intros Hk Hi. revert r. induction Hk as [|y kept Hy Hk IH]; intros r H.
  - cbn [app list_remove] in H. rewrite dict_eqb_refl in H. simpl in H.
    injection H as <-. by exists [].
  - cbn [app list_remove] in H. bind_inv H. destruct a.
    + injection H as <-. exists (kept ++ [item]).
      split; [by rewrite <- app_assoc|].
      apply Forall_app. by split; [|constructor].
    + bind_inv H. injection H as <-.
      destruct (IH _ Ha0) as (kept' & -> & Hk').
      exists (y :: kept'). split; [done|]. by constructor.
Qed.

Lemma nonroot_loc_valid rows c : loc_sat is_nonroot rows c → c < length rows.
Proof.
  unfold loc_sat. destruct (rows !! c) eqn:Hc; [|done].
  intros _. by eapply lookup_lt_Some.
Qed.

Lemma root_locs_valid rows : Forall (λ c, c < length rows) (root_locs rows).
Proof.
  apply Forall_forall. intros l Hl.
  apply list_elem_of_filter in Hl as [_ Hl]. apply elem_of_seq in Hl. lia.
Qed.

Lemma roots_loop_no_raise rows fuel h snapshot :
  attached rows h →
  ∀ tree kept,
    Forall (λ c, c < length rows) kept →
    Forall (λ c, c < length rows) snapshot →
    no_raise (roots_loop fuel h snapshot tree (kept ++ snapshot)).
Proof.
  intros Ha. induction snapshot as [|item rest IH]; intros tree kept Hk Hs.
  - apply no_raise_Done.
  - apply Forall_cons in Hs as [Hi Hs]. cbn [roots_loop].
    destruct (attached_deref _ _ _ Ha Hi) as [d Hd].
    rewrite (deref_lookup _ _ _ Hd). cbn [mbind outcome_bind].
    destruct (falsy (parent_id (fields d))).
    + apply no_raise_bind; [by eapply list_remove_no_raise|].
      intros r Hr.
      apply (list_remove_shape _ _ _ _ _ _ (λ c, c < length rows)) in Hr
        as (kept' & -> & Hk'); [|done..].
      by apply IH.
    + rewrite (cons_middle item), app_assoc. apply IH; [|done].
      apply Forall_app. by split; [|constructor].
Qed.

Lemma find_parent_no_raise rows fuel h item :
  attached rows h →
  ∀ tree, Forall (λ c, c < length rows) tree →
          no_raise (find_parent fuel h tree item).
Proof.
  intros Ha. induction fuel as [|fuel IHf]; intros tree Ht; [done|].
  induction Ht as [|p tree Hp _ IHt]; [apply no_raise_Done|].
  rewrite find_parent_cons.
  destruct (attached_deref _ _ _ Ha Hp) as [d Hd].
  rewrite (deref_lookup _ _ _ Hd). cbn [mbind outcome_bind].
  destruct (id_matches d item); [apply no_raise_Done|].
  destruct (children d) as [cs|] eqn:Hcs; [|exact IHt].
  apply no_raise_bind.
  - apply IHf. by eapply attached_kids_valid.
  - intros [q|] _; [apply no_raise_Done|exact IHt].
Qed.

Lemma attach_loop_no_raise rows fuel tree snapshot :
  Forall (λ c, c < length rows) tree →
  ∀ h kept,
    attached rows h →
    Forall (λ c, c < length rows) kept →
    Forall (λ c, loc_sat is_nonroot rows c) snapshot →
    no_raise (attach_loop fuel tree snapshot h (kept ++ snapshot)).
Proof.
  intros Ht. induction snapshot as [|item rest IH]; intros h kept Ha Hk Hs.
  - apply no_raise_Done.
  - apply Forall_cons in Hs as [Hi Hs]. cbn [attach_loop].
    pose proof (nonroot_loc_valid _ _ Hi) as Hv.
    destruct (attached_deref _ _ _ Ha Hv) as [d Hd].
    rewrite (deref_lookup _ _ _ Hd). cbn [mbind outcome_bind].
    apply no_raise_bind; [by eapply find_parent_no_raise|].
    intros [p|] Hfind.
    + pose proof Hfind as Hfind'.
      apply find_parent_sound in Hfind' as (p_item & Hp & _).
      rewrite (deref_lookup _ _ _ Hp). cbn [mbind outcome_bind]. cbn zeta.
      assert (attached rows (<[p := append_child p_item item]> h)) as Ha'.
      { apply attached_insert; [done..|].
        eapply find_parent_child; [done..| |done].
        cbv beta in Hi. rewrite (loc_sat_lookup _ _ _ _ _ Ha Hd) in Hi.
        by apply Is_true_true. }
      apply no_raise_bind; [by eapply list_remove_no_raise|].
      intros r Hr.
      apply (list_remove_shape _ _ _ _ _ _ (λ c, c < length rows)) in Hr
        as (kept' & -> & Hk'); [|done..].
      by apply IH.
    + rewrite (cons_middle item), app_assoc. apply IH; [done| |done].
      apply Forall_app. by split; [|constructor].
Qed.

Lemma while_loop_no_raise rows passes fuel tree :
  Forall (λ c, c < length rows) tree →
  ∀ h lst,
    attached rows h →
    Forall (λ c, loc_sat is_nonroot rows c) lst →
    no_raise (while_loop passes fuel tree h lst).
Proof.
  intros Ht. induction passes as [|passes IH]; intros h lst Ha Hl.
  - by destruct lst.
  - destruct lst as [|c0 l0] eqn:Hlst; [apply no_raise_Done|].
    rewrite <- Hlst in *. rewrite Hlst at 1. cbn [while_loop]. rewrite <- Hlst.
    apply no_raise_bind.
    + apply (attach_loop_no_raise rows fuel tree lst Ht h []);
        [done|constructor|done].
    + intros [h1 l1] Hrun.
      apply attach_loop_attached with (rows := rows) in Hrun as [Ha1 Hsub];
        [|done..].
      apply IH; [done|]. apply Forall_forall. intros x Hx.
      apply sublist_subseteq in Hsub. rewrite Forall_forall in Hl.
      by apply Hl, Hsub.
Qed.

Lemma view_no_raise rows fuel h :
  attached rows h →
  ∀ ls, Forall (λ c, c < length rows) ls → no_raise (view fuel h ls).
Proof.
  intros Ha. induction fuel as [|fuel IHf]; intros ls Hls; [done|].
  induction Hls as [|l ls Hl _ IHl]; [apply no_raise_Done|].
  rewrite view_cons.
  destruct (attached_deref _ _ _ Ha Hl) as [d Hd].
  rewrite (deref_lookup _ _ _ Hd). cbn [mbind outcome_bind].
  apply no_raise_bind.
  - destruct (children d) as [cs|] eqn:Hcs; [|apply no_raise_Done].
    pose proof (IHf cs (attached_kids_valid _ _ _ _ _ Ha Hd Hcs)) as Hn.
    intros e. destruct (view fuel h cs) as [?|e'|]; simpl; try done.
    by destruct (Hn e').
  - intros cs _. apply no_raise_bind; [exact IHl|].
    intros ? _. apply no_raise_Done.
Qed.

Lemma run_no_raise fuel rows :
  no_raise (list_to_tree_run fuel (alloc rows) (fresh_list rows)).
Proof.
  unfold list_to_tree_run. apply no_raise_bind.
  - apply (roots_loop_no_raise rows fuel (alloc rows) (fresh_list rows)
             (alloc_attached rows) [] []); [constructor|apply fresh_list_valid].
  - intros [tree lst1] Hroots.
    apply (roots_loop_spec rows _ _ _ [] []) in Hroots as [-> ->];
      [|apply alloc_attached|constructor].
    apply no_raise_bind.
    + apply (while_loop_no_raise rows).
      * apply root_locs_valid.
      * apply alloc_attached.
      * apply Forall_forall. intros x Hx.
        by apply list_elem_of_filter in Hx as [? _].
    + intros [h' lst2] _. apply no_raise_Done.
Qed.

Lemma list_to_tree_no_raise fuel rows : no_raise (list_to_tree fuel rows).
Proof.
  unfold list_to_tree. apply no_raise_bind; [apply run_no_raise|].
  intros out Hrun. apply run_attached in Hrun as (Ha & _ & ->).
  apply (view_no_raise rows); [done|apply root_locs_valid].
Qed.

(** X2: [list_to_tree] never raises.  Although it removes items from the
    list while it iterates over a copy of it, [list.remove(item)] always
    finds an element equal to [item] (no [ValueError]), and every dict it
    dereferences exists; a call returns or does not come back. *)
Theorem list_to_tree_never_raises fuel rows e :
  list_to_tree fuel rows ≠ Raised e.
Proof. apply list_to_tree_no_raise. Qed.

(** X3: a record whose truthy [parent_id] is the id of no record of the
    list keeps [list_to_tree] from returning, whatever else the list holds:
    the call neither returns nor raises, for any step budget. *)
Theorem dangling_parent_runs_forever fuel rows r z :
  r ∈ rows → parent_id r = Some z → z ≠ 0%Z → z ∉ id <$> rows →
  list_to_tree fuel rows = OutOfFuel.
Proof.
  intros Hr Hp Hz0 Hz. destruct (list_to_tree fuel rows) as [forest|e|] eqn:H.
  - by destruct (dangling_parent_never_returns fuel rows r z forest).
  - by destruct (list_to_tree_no_raise fuel rows e).
  - done.
Qed.

Lemma dangling_parent_witness : list_to_tree 20 stray_reply_input = OutOfFuel.
Proof.
  apply (dangling_parent_runs_forever 20 stray_reply_input
           (mk 3 (Some 99%Z)) 99).
  - apply (bool_decide_unpack _). vm_compute. reflexivity.
  - reflexivity.
  - lia.
  - apply (bool_decide_unpack _). vm_compute. reflexivity.
Defined.

(** ** The inputs on which [list_to_tree] returns *)

Lemma same_id_same_row rows q q' :
  NoDup (id <$> rows) → q ∈ rows → q' ∈ rows → id q = id q' → q = q'.
Proof.
  intros Hnd [l Hl]%list_elem_of_lookup_1 [l' Hl']%list_elem_of_lookup_1 Hid.
  pose proof (same_id_same_loc rows Hnd _ _ _ _ Hl Hl' Hid) as ->. congruence.
Qed.

Lemma depth_child rows r q k d :
  NoDup (id <$> rows) → q ∈ rows →
  is_nonroot r = true → parent_id r = Some (id q) →
  depth k rows q = Some d → depth (S k) rows r = Some (S d).
Proof.
  intros Hnd Hq Hn Hp Hd. cbn [depth]. rewrite Hn.
  destruct (parent_of_resolved rows r q Hn Hq Hp) as [[p q'] Hpq].
  rewrite Hpq. destruct (parent_of_Some _ _ _ _ Hpq) as (Hq' & _ & Hid).
  assert (q' = q) as ->.
  { apply (same_id_same_row rows); [done|by eapply list_elem_of_lookup_2|done|].
    congruence. }
  by rewrite Hd.
Qed.

(** Every row of a well-attached forest made of rows of the input is a
    finite number of parent references away from a root. *)
Lemma forest_depth rows forest :
  NoDup (id <$> rows) →
  ∀ owner,
    forallb (well_attached owner) forest = true →
    (∀ r, r ∈ flatten forest → r ∈ rows) →
    (∀ z, owner = Some z →
          ∃ q k d, q ∈ rows ∧ id q = z ∧ depth k rows q = Some d) →
    ∀ r, r ∈ flatten forest → ∃ k d, depth k rows r = Some d.
Proof.
  intros Hnd. induction forest as [|r0 cs ns IHcs IHns] using forest_ind;
    intros owner Hw Hsub Hown r Hr.
  - by apply elem_of_nil in Hr.
  - apply well_attached_cons in Hw as (Ho & _ & Hwc & Hwn).
    rewrite flatten_cons in Hsub, Hr.
    assert (∃ k d, depth k rows r0 = Some d) as (k0 & d0 & Hd0).
    { unfold owner_ok in Ho. destruct owner as [z|].
      - apply andb_true_iff in Ho as [Hn Hp]. apply bool_decide_eq_true in Hp.
        destruct (Hown z eq_refl) as (q & k & d & Hq & <- & Hd).
        exists (S k), (S d). by apply (depth_child rows r0 q).
      - exists 1, 0. cbn [depth]. unfold is_nonroot. by rewrite Ho. }
    apply elem_of_cons in Hr as [->|Hr]; [by exists k0, d0|].
    apply elem_of_app in Hr as [Hr|Hr].
    + apply (IHcs (Some (id r0))); [done| | |done].
      * intros x Hx. apply Hsub, elem_of_cons. right. apply elem_of_app.
        by left.
      * intros z [= <-]. exists r0, k0, d0. split; [|done].
        apply Hsub, elem_of_cons. by left.
    + apply (IHns owner); [done| |done|done].
      intros x Hx. apply Hsub, elem_of_cons. right. apply elem_of_app.
      by right.
Qed.

Lemma depth_resolvable_acyclic rows :
  (∀ r, r ∈ rows → ∃ k d, depth k rows r = Some d) →
  resolvable rows ∧ acyclic rows.
Proof.
  intros Hd. split.
  - intros r Hr Hn. destruct (Hd r Hr) as (k & d & Hdr).
    destruct k as [|k]; [done|]. cbn [depth] in Hdr. rewrite Hn in Hdr.
    destruct (parent_of rows r) as [[p q]|] eqn:Hpq; [|done].
    destruct (parent_of_Some _ _ _ _ Hpq) as (Hq & _ & Hid).
    exists q. split; [by eapply list_elem_of_lookup_2|done].
  - intros r k Hr Hk Hcyc. destruct (Hd r Hr) as (k' & d & Hdr).
    destruct (depth_ancestor _ _ _ _ _ _ Hdr Hcyc) as [Hd' Hle].
    rewrite Hdr in Hd'. injection Hd' as Hd'. lia.
Qed.

Lemma returns_only_on_forests fuel rows forest :
  NoDup (id <$> rows) → list_to_tree fuel rows = Done forest →
  resolvable rows ∧ acyclic rows.
Proof.
  intros Hnd Hrun. apply depth_resolvable_acyclic. intros r Hr.
  destruct (list_to_tree_shape _ _ _ Hrun) as [_ Hw].
  pose proof (returned_rows _ _ _ Hrun) as Hrows.
  apply (forest_depth rows forest Hnd None Hw).
  - intros x Hx. by apply Hrows.
  - done.
  - by apply Hrows.
Qed.

(** X4: on an input with unique ids, [list_to_tree] returns (for some step
    budget) exactly when the parent references of the input are resolvable
    and acyclic; on every other such input it does not come back. *)
Theorem returns_iff_resolvable_acyclic rows :
  NoDup (id <$> rows) →
  (∃ fuel forest, list_to_tree fuel rows = Done forest) ↔
  resolvable rows ∧ acyclic rows.
Proof.
  intros Hnd. split.
  - intros (fuel & forest & Hrun). by eapply returns_only_on_forests.
  - intros [Hres Hacy].
    destruct (returns_all_rows (S (length rows)) rows Hnd Hres Hacy)
      as (forest & Hrun & _); [lia|].
    by exists (S (length rows)), forest.
Qed.

Lemma returns_iff_witness :
  (∃ fuel forest, list_to_tree fuel chain_input = Done forest) ↔
  resolvable chain_input ∧ acyclic chain_input.
Proof.
  apply (returns_iff_resolvable_acyclic chain_input).
  apply (bool_decide_unpack _). vm_compute. reflexivity.
Defined.

(** ** The shape of a returned forest *)

(** X5: the top level of a returned forest holds the records whose
    [parent_id] is falsy, all of them and no other record, in the order of
    the input. *)
Theorem top_level_in_input_order fuel rows forest :
  list_to_tree fuel rows = Done forest →
  node_fields <$> forest = filter (λ r, is_root r) rows.
Proof. intros H. by destruct (list_to_tree_shape _ _ _ H). Qed.

Lemma top_level_witness :
  node_fields <$> newest_first_forest
  = filter (λ r, is_root r) newest_first_input.
Proof.
  apply (top_level_in_input_order 6 newest_first_input newest_first_forest).
  vm_compute. reflexivity.
Defined.

Lemma well_attached_no_empty forest :
  ∀ owner, forallb (well_attached owner) forest = true →
           Forall (λ n, node_children n ≠ Some []) (forest ≫= subnodes).
Proof.
  induction forest as [|r cs ns IHcs IHns] using forest_ind; intros owner Hw.
  - constructor.
  - apply well_attached_cons in Hw as (_ & Hne & Hwc & Hwn).
    rewrite subnodes_cons. constructor; [done|]. apply Forall_app.
    split; [by eapply IHcs|by eapply IHns].
Qed.

(** X6: in a returned forest a node has a ['children'] key only when it
    has a child: no node, at any nesting level, carries an empty
    ['children'] list. *)
Theorem children_key_is_never_empty fuel rows forest :
  list_to_tree fuel rows = Done forest →
  Forall (λ n, node_children n ≠ Some []) (forest ≫= subnodes).
Proof.
  intros H. destruct (list_to_tree_shape _ _ _ H) as [_ Hw].
  by eapply well_attached_no_empty.
Qed.

Lemma children_key_witness :
  Forall (λ n, node_children n ≠ Some []) (chain_forest ≫= subnodes).
Proof.
  apply (children_key_is_never_empty 3 chain_input chain_forest).
  vm_compute. reflexivity.
Defined.

(** ** [find_parent] finds the first match in pre-order *)

(** X7: on a forest that can be read within the recursion budget,
    [find_parent] returns.  It returns the first dict, in depth-first
    pre-order, whose id equals the [parent_id] of [item], and [None] exactly
    when no dict of the forest has that id. *)
Theorem find_parent_returns_first_match fuel h item :
  ∀ tree forest,
    view fuel h tree = Done forest →
    ∃ res, find_parent fuel h tree item = Done res ∧
      match res with
      | Some p => ∃ d, h !! p = Some d ∧
          head (filter (λ r, Some (id r) = parent_id (fields item))
                  (flatten forest)) = Some (fields d)
      | None => filter (λ r, Some (id r) = parent_id (fields item))
                  (flatten forest) = []
      end.
Proof.
  induction fuel as [|fuel IHf]; intros tree forest; [done|].
  revert forest. induction tree as [|p ps IHt]; intros forest H.
  - rewrite view_nil in H. injection H as <-. by exists None.
  - rewrite view_cons in H. bind_inv H. pose proof Ha as Hd.
    apply deref_Done in Hd. bind_inv H. bind_inv H. injection H as <-.
    destruct (IHt _ Ha1) as (res & Hres & Hspec).
    rewrite find_parent_cons, Ha. cbn [mbind outcome_bind].
    rewrite flatten_cons, filter_cons. unfold id_matches.
    destruct (decide (Some (id (fields a)) = parent_id (fields item)))
      as [Heq|Hne].
    + rewrite bool_decide_eq_true_2 by done. exists (Some p).
      split; [done|]. by exists a.
    + rewrite bool_decide_eq_false_2 by done. rewrite filter_app.
      destruct (children a) as [cs|] eqn:Hcs.
      * apply fmap_Done in Ha0 as (fc & Hfc & ->).
        destruct (IHf _ _ Hfc) as (res' & Hres' & Hspec').
        rewrite Hres'. cbn [mbind outcome_bind]. simpl.
        destruct res' as [q|].
        -- exists (Some q). split; [done|]. destruct Hspec' as (d & Hq & Hh).
           exists d. split; [done|].
           destruct (filter _ (flatten fc)); [done|]. done.
        -- exists res. split; [done|]. rewrite Hspec'. done.
      * injection Ha0 as <-. exists res. split; [done|]. done.
Qed.

Lemma find_parent_witness :
  ∃ res, find_parent 3 chain_store [0; 3] (Dict (mk 9 (Some 3%Z)) None)
         = Done res ∧
    match res with
    | Some p => ∃ d, chain_store !! p = Some d ∧
        head (filter (λ r, Some (id r)
                           = parent_id (fields (Dict (mk 9 (Some 3%Z)) None)))
                (flatten chain_forest)) = Some (fields d)
    | None => filter (λ r, Some (id r)
                           = parent_id (fields (Dict (mk 9 (Some 3%Z)) None)))
                (flatten chain_forest) = []
    end.
Proof.
  apply (find_parent_returns_first_match 3 chain_store
           (Dict (mk 9 (Some 3%Z)) None) [0; 3] chain_forest).
  vm_compute. reflexivity.
Defined.

(** ** The order of siblings *)

Lemma view_kids rows fuel h :
  attached rows h →
  ∀ ls forest n,
    view fuel h ls = Done forest → n ∈ forest ≫= subnodes →
    ∃ l d, h !! l = Some d ∧ fields d = node_fields n ∧
           Forall2 (row_at rows) (kids_at d) (node_fields <$> kids_of n).
Proof.
  intros Ha. induction fuel as [|fuel IHf]; intros ls forest n; [done|].
  revert forest. induction ls as [|l ls IHl]; intros forest H Hn.
  - rewrite view_nil in H. injection H as <-. by apply elem_of_nil in Hn.
  - rewrite view_cons in H. bind_inv H. apply deref_Done in Ha0.
    bind_inv H. bind_inv H. injection H as <-.
    rewrite subnodes_cons in Hn.
    apply elem_of_cons in Hn as [->|Hn]; [|apply elem_of_app in Hn as [Hn|Hn]].
    + exists l, a. split; [done|]. split; [done|]. unfold kids_at, kids_of.
      destruct (children a) as [cs|].
      * apply fmap_Done in Ha1 as (fc & Hfc & ->). simpl.
        by eapply view_fields.
      * injection Ha1 as <-. constructor.
    + destruct (children a) as [cs|].
      * apply fmap_Done in Ha1 as (fc & Hfc & ->). by eapply IHf.
      * injection Ha1 as <-. by apply elem_of_nil in Hn.
    + by eapply IHl.
Qed.

(** When the ['children'] lists of the store are in input order, so are
    the children of every node read from it. *)
Lemma kids_in_input_order rows fuel h ls forest :
  attached rows h →
  (∀ p d, h !! p = Some d →
     kids_at d = filter (λ c, is_child rows c p) (fresh_list rows)) →
  view fuel h ls = Done forest →
  ∀ n, n ∈ forest ≫= subnodes →
       node_fields <$> kids_of n = child_rows (id (node_fields n)) rows.
Proof.
  intros Ha Hkids Hview n Hn.
  destruct (view_kids rows fuel h Ha _ _ _ Hview Hn) as (l & d & Hd & Hf & Hk).
  pose proof (attached_lookup _ _ _ _ Ha Hd) as Hl.
  eapply row_at_functional; [exact Hk|].
  rewrite (Hkids l d Hd), <- Hf. unfold child_rows.
  rewrite (list_filter_iff (λ c, is_child rows c l)
             (λ c, loc_sat (owner_ok (Some (id (fields d)))) rows c)).
  - apply filter_fresh_rows.
  - intros c. unfold is_child, loc_sat. rewrite Hl.
    destruct (rows !! c); [|done]. by rewrite Is_true_true.
Qed.

Lemma resolved_child rows c r :
  resolvable rows → rows !! c = Some r → is_nonroot r = true →
  ∃ p, is_child rows c p.
Proof.
  intros Hres Hc Hn.
  destruct (Hres r (list_elem_of_lookup_2 _ _ _ Hc) Hn) as (q & Hq & Hp).
  apply list_elem_of_lookup_1 in Hq as [p Hq]. exists p.
  unfold is_child. rewrite Hc, Hq. unfold owner_ok.
  unfold is_nonroot in Hn. rewrite Hn. simpl. by apply bool_decide_eq_true.
Qed.

(** X8: on an input with unique ids and resolvable parent references in
    which every record is listed after the record it replies to,
    [list_to_tree] returns, and every level of the forest is in input
    order: the top level holds the roots in input order, and the children
    of every node are the records that name it as parent, in input order. *)
Theorem parent_first_keeps_input_order fuel rows :
  NoDup (id <$> rows) → resolvable rows →
  (∀ c p, is_child rows c p → p < c) →
  length rows < fuel →
  ∃ forest, list_to_tree fuel rows = Done forest ∧
    node_fields <$> forest = filter (λ r, is_root r) rows ∧
    ∀ n, n ∈ forest ≫= subnodes →
         node_fields <$> kids_of n = child_rows (id (node_fields n)) rows.
Proof.
  intros Hnd Hres Hsorted Hfuel.
  assert (∀ c r, rows !! c = Some r → is_nonroot r = true →
                 ∃ p, is_child rows c p ∧ p < c) as Hbefore.
  { intros c r Hc Hn. destruct (resolved_child rows c r Hres Hc Hn) as [p Hch].
    exists p. split; [done|]. by apply Hsorted. }
  destruct (sorted_run rows (λ c, c) Hnd Hbefore (λ c H, H) fuel
              Hsorted Hfuel) as (h' & Hrun & Hi & Hkids).
  destruct (view_total rows (λ c, c) Hnd Hbefore (λ c H, H) h' [] fuel Hi
              (root_locs rows)) as (forest & Hview).
  { apply root_locs_valid. }
  { intros l _. lia. }
  { lia. }
  assert (list_to_tree fuel rows = Done forest) as Hret.
  { unfold list_to_tree. rewrite Hrun. done. }
  exists forest. split; [done|]. split.
  - by destruct (list_to_tree_shape _ _ _ Hret).
  - by apply (kids_in_input_order rows fuel h' (root_locs rows) forest
                (inv_att _ _ _ Hi) Hkids Hview).
Qed.

Lemma is_child_in_range rows c p :
  is_child rows c p → c < length rows ∧ p < length rows.
Proof.
  unfold is_child. destruct (rows !! c) eqn:Hc; [|done].
  destruct (rows !! p) eqn:Hp; [|done]. intros _.
  split; by eapply lookup_lt_Some.
Qed.

Lemma parent_first_witness :
  ∃ forest, list_to_tree 5 chain_input = Done forest ∧
    node_fields <$> forest = filter (λ r, is_root r) chain_input ∧
    ∀ n, n ∈ forest ≫= subnodes →
         node_fields <$> kids_of n = child_rows (id (node_fields n)) chain_input.
Proof.
  apply (parent_first_keeps_input_order 5 chain_input).
  - apply (bool_decide_unpack _). vm_compute. reflexivity.
  - by apply grounded_sound.
  - intros c p Hch. destruct (is_child_in_range _ _ _ Hch) as [Hc Hp].
    simpl in Hc, Hp.
    destruct c as [|[|[|[|c]]]]; [..|lia];
      destruct p as [|[|[|[|p]]]]; try lia; by vm_compute in Hch.
  - simpl. lia.
Defined.

(** *** Inputs in which every reply comes before its parent *)

Lemma sorted_sublist (l' l : list loc) :
  l' `sublist_of` l → StronglySorted lt l → StronglySorted lt l'.
Proof.
  induction 1 as [|x l1 l2 Hs IH|x l1 l2 Hs IH]; intros Hl.
  - constructor.
  - apply StronglySorted_cons in Hl as [Hx Hl]. constructor; [by apply IH|].
    apply Forall_forall. intros y Hy. rewrite Forall_forall in Hx.
    by apply Hx, (sublist_subseteq _ _ Hs).
  - apply StronglySorted_cons in Hl as [_ Hl]. by apply IH.
Qed.

Section replies_first.
Variable rows : list row.
Variable dep : loc → nat.
Hypothesis ids_nodup : NoDup (id <$> rows).
Hypothesis parent_before : ∀ c r,
  rows !! c = Some r → is_nonroot r = true →
  ∃ p, is_child rows c p ∧ dep p < dep c.
Hypothesis dep_bound : ∀ c, c < length rows → dep c < length rows.
Hypothesis child_first : ∀ c p, is_child rows c p → c < p.

(** One pass over the list [lst0], of which [seen] has been visited and
    [rest] is still to come; [kept] holds the visited records that were
    skipped.  A skipped record waits for a parent that was in the list when
    the pass began, and only dicts placed before the pass get children. *)
Lemma child_first_pass fuel lst0 :
  length rows < fuel → StronglySorted lt lst0 →
  ∀ rest seen kept h,
    lst0 = seen ++ rest → kept ⊆ seen →
    inv rows h (kept ++ rest) →
    (∀ p d, h !! p = Some d → StronglySorted lt (kids_at d)) →
    (∀ p d k c, h !! p = Some d → k ∈ kids_at d → c ∈ rest →
                is_child rows c p → k < c) →
    (∀ c p, c ∈ kept → is_child rows c p → p ∈ lst0) →
    (∀ p d, h !! p = Some d → kids_at d ≠ [] → p ∉ lst0) →
    ∃ h' lst',
      attach_loop fuel (root_locs rows) rest h (kept ++ rest)
        = Done (h', lst') ∧
      inv_between rows h' lst'.
Proof using ids_nodup parent_before dep_bound child_first.
  intros Hfuel Hs0. induction rest as [|c rest IH];
    intros seen kept h Hl0 Hkd Hi Hsort Hord Hwait Hold.
  - exists h, (kept ++ []). split; [done|]. split; [done..|].
    intros p d c Hp Hne Hc Hch. rewrite app_nil_r in Hc.
    apply (Hold p d Hp Hne). by apply (Hwait c).
  - assert (c ∈ kept ++ c :: rest) as Hin.
    { apply elem_of_app. right. apply elem_of_cons. by left. }
    assert (∀ x, x ∈ kept ++ c :: rest → x ∈ lst0) as Hsub.
    { intros x. rewrite Hl0, !elem_of_app. intros [Hx|Hx]; [|by right].
      left. by apply Hkd. }
    assert (∀ x, x ∈ rest → c < x) as Hafter.
    { intros x Hx. rewrite Hl0 in Hs0. apply StronglySorted_app_1_r in Hs0.
      apply StronglySorted_cons in Hs0 as [Hc _]. rewrite Forall_forall in Hc.
      by apply Hc. }
    assert (∀ x, x ∈ seen → x < c) as Hbefore.
    { intros x Hx. rewrite Hl0 in Hs0.
      apply (StronglySorted_app_1_elem_of _ _ _ _ _ Hs0 Hx).
      apply elem_of_cons. by left. }
    destruct (step_spec rows dep ids_nodup parent_before dep_bound
                fuel h _ c Hi Hfuel Hin) as (d & Hd & Hstep).
    cbn [attach_loop]. rewrite (deref_lookup _ _ _ Hd).
    cbn [mbind outcome_bind].
    destruct Hstep as [(p & p_item & Hfind & Hp & Hch & Hpn)|[Hfind Hnone]].
    + rewrite Hfind. cbn [mbind outcome_bind].
      rewrite (deref_lookup _ _ _ Hp). cbn [mbind outcome_bind].
      pose proof (inv_attach rows ids_nodup h kept rest c p p_item Hi Hp Hch Hpn)
        as Hi'.
      destruct fuel as [|fuel']; [lia|].
      rewrite (list_remove_inv rows ids_nodup fuel' _ c kept rest
                 (inv_att _ _ _ Hi') (inv_nodup _ _ _ Hi) (inv_nonroot _ _ _ Hi)).
      cbn [mbind outcome_bind].
      assert (p < length h) as Hpl by (by eapply lookup_lt_Some).
      assert (p ∉ lst0) as Hp0.
      { intros Hp0. rewrite Hl0 in Hp0.
        apply elem_of_app in Hp0 as [Hp0|Hp0].
        - specialize (Hbefore _ Hp0). specialize (child_first _ _ Hch). lia.
        - apply Hpn. apply elem_of_app. by right. }
      apply (IH (seen ++ [c]) kept); [by rewrite <- app_assoc| |done|..].
      * intros x Hx. apply elem_of_app. left. by apply Hkd.
      * intros q dq Hq. destruct (decide (p = q)) as [<-|Hne].
        -- rewrite list_lookup_insert_eq in Hq by done. injection Hq as <-.
           rewrite kids_at_append.
           apply StronglySorted_app_2; [|by eapply Hsort|repeat constructor].
           intros x1 x2 Hx1 ->%list_elem_of_singleton.
           apply (Hord p p_item); [done..|apply elem_of_cons; by left|done].
        -- rewrite list_lookup_insert_ne in Hq by done. by eapply Hsort.
      * intros q dq k c' Hq Hk Hc' Hch'.
        destruct (decide (p = q)) as [<-|Hne].
        -- rewrite list_lookup_insert_eq in Hq by done. injection Hq as <-.
           rewrite kids_at_append in Hk.
           apply elem_of_app in Hk as [Hk| ->%list_elem_of_singleton].
           ++ apply (Hord p p_item); [done..|apply elem_of_cons; by right|done].
           ++ by apply Hafter.
        -- rewrite list_lookup_insert_ne in Hq by done.
           apply (Hord q dq); [done..|apply elem_of_cons; by right|done].
      * done.
      * intros q dq Hq Hne'. destruct (decide (p = q)) as [<-|Hne]; [done|].
        rewrite list_lookup_insert_ne in Hq by done. by eapply Hold.
    + rewrite Hfind. cbn [mbind outcome_bind].
      rewrite (cons_middle c kept rest), app_assoc.
      apply (IH (seen ++ [c]) (kept ++ [c]));
        [by rewrite <- app_assoc| | |done|..].
      * intros x [Hx| ->%list_elem_of_singleton]%elem_of_app;
          apply elem_of_app; [left; by apply Hkd|right].
        by apply list_elem_of_singleton.
      * by rewrite <- app_assoc.
      * intros q dq k c' Hq Hk Hc' Hch'.
        apply (Hord q dq); [done..|apply elem_of_cons; by right|done].
      * intros c' q [Hc'| ->%list_elem_of_singleton]%elem_of_app Hch'.
        -- by apply (Hwait c').
        -- by apply Hsub, Hnone.
      * done.
Qed.

Lemma child_first_while fuel :
  length rows < fuel →
  ∀ passes h lst,
    inv_between rows h lst → StronglySorted lt lst → length lst ≤ passes →
    ∃ h', while_loop passes fuel (root_locs rows) h lst = Done (h', []) ∧
          inv_between rows h' [].
Proof using ids_nodup parent_before dep_bound child_first.
  intros Hfuel. induction passes as [|passes IH]; intros h lst Hb Hs Hlen.
  - destruct lst; [|simpl in Hlen; lia]. by exists h.
  - destruct lst as [|c0 l0] eqn:Hlst; [by exists h|].
    rewrite <- Hlst in *. assert (lst ≠ []) as Hne by (by rewrite Hlst).
    destruct Hb as [Hi Hsort Hcomp].
    destruct (child_first_pass fuel lst Hfuel Hs lst [] [] h)
      as (h' & lst' & Hrun & Hb'); [done|done|done|done| | | |].
    { intros p d k c Hp Hk Hc Hch. destruct (Hcomp p d c Hp); [|done..].
      intros Hnil. rewrite Hnil in Hk. by apply elem_of_nil in Hk. }
    { intros c p Hc. by apply elem_of_nil in Hc. }
    { intros p d Hp Hk Hin. destruct (kids_at d) as [|k ks] eqn:Hks; [done|].
      destruct (inv_placed _ _ _ Hi p d k Hp) as [_ Hpn]; [|done].
      rewrite Hks. apply elem_of_cons. by left. }
    simpl in Hrun.
    destruct (pass_shrinks rows dep ids_nodup parent_before dep_bound
                fuel h lst Hfuel Hi Hne)
      as (h1 & lst1 & Hrun1 & _ & Hlt & _).
    rewrite Hrun in Hrun1. injection Hrun1 as <- <-.
    pose proof (attach_loop_attached rows _ _ _ _ _ _ _
                  (inv_att _ _ _ Hi)
                  (Forall_impl _ _ _ (inv_nonroot _ _ _ Hi)
                     (λ x Hx, Is_true_true_2 _ Hx)) Hrun) as [_ Hsub].
    destruct (IH h' lst' Hb') as (h'' & Hrun' & Hb'');
      [by eapply sorted_sublist|lia|].
    exists h''. split; [|done].
    rewrite Hlst at 1. cbn [while_loop]. rewrite <- Hlst. rewrite Hrun.
    cbn [mbind outcome_bind]. done.
Qed.

(** On such an input the records are attached one nesting level per pass,
    and still every ['children'] list ends up in input order. *)
Lemma child_first_run fuel :
  length rows < fuel →
  ∃ h', list_to_tree_run fuel (alloc rows) (fresh_list rows)
          = Done (Final h' [] (root_locs rows)) ∧
        inv rows h' [] ∧
        ∀ p d, h' !! p = Some d →
               kids_at d = filter (λ c, is_child rows c p) (fresh_list rows).
Proof using ids_nodup parent_before dep_bound child_first.
  intros Hfuel.
  destruct (child_first_while fuel Hfuel fuel (alloc rows) (nonroot_locs rows))
    as (h' & Hrun & [Hi Hsort _]).
  { split.
    - apply (initial_inv rows).
    - intros p d Hp. apply alloc_lookup in Hp as [_ Hn]. unfold kids_at.
      rewrite Hn. constructor.
    - intros p d c Hp Hk. apply alloc_lookup in Hp as [_ Hn].
      unfold kids_at in Hk. by rewrite Hn in Hk. }
  { apply sorted_filter_seq. }
  { unfold nonroot_locs. etrans; [apply length_filter|].
    rewrite length_seq. lia. }
  exists h'. split; [|split; [done|]].
  - unfold list_to_tree_run. destruct fuel as [|fuel']; [lia|].
    pose proof (roots_loop_total rows fuel' (alloc rows) (fresh_list rows)
                  [] []) as Hroots.
    simpl in Hroots. rewrite Hroots;
      [|apply alloc_attached|constructor|apply fresh_list_valid].
    cbn [mbind outcome_bind]. unfold root_locs, nonroot_locs, fresh_list in *.
    rewrite Hrun. done.
  - intros p d Hp.
    apply (StronglySorted_unique_strong lt); [intros; lia|by eapply Hsort| |].
    { apply sorted_filter_seq. }
    apply NoDup_Permutation.
    + by apply (inv_kids_nodup _ _ _ Hi p).
    + apply NoDup_filter, NoDup_seq.
    + intros c. rewrite list_elem_of_filter. split.
      * intros Hc.
        pose proof (inv_kid_child rows _ _ _ _ _ Hi Hp Hc) as Hch.
        split; [done|]. destruct (is_child_valid rows _ _ Hch) as (_ & Hv & _).
        apply elem_of_seq. lia.
      * intros [Hch _]. apply (inv_kids _ _ _ Hi p); [done..|].
        apply not_elem_of_nil.
Qed.
End replies_first.

(** X9: on an input with unique ids and resolvable parent references in
    which every reply is listed before the record it replies to (a list of
    comments ordered newest first, as [list_comments_all] passes it),
    [list_to_tree] returns and every level of the forest is in input order
    as well, although a reply is attached one pass after its parent. *)
Theorem replies_first_keeps_input_order fuel rows :
  NoDup (id <$> rows) → resolvable rows →
  (∀ c p, is_child rows c p → c < p) →
  length rows < fuel →
  ∃ forest, list_to_tree fuel rows = Done forest ∧
    node_fields <$> forest = filter (λ r, is_root r) rows ∧
    ∀ n, n ∈ forest ≫= subnodes →
         node_fields <$> kids_of n = child_rows (id (node_fields n)) rows.
Proof.
  intros Hnd Hres Hfirst Hfuel.
  set (dep := λ c : loc, length rows - 1 - c).
  assert (∀ c r, rows !! c = Some r → is_nonroot r = true →
                 ∃ p, is_child rows c p ∧ dep p < dep c) as Hbefore.
  { intros c r Hc Hn. destruct (resolved_child rows c r Hres Hc Hn) as [p Hch].
    exists p. split; [done|]. specialize (Hfirst _ _ Hch).
    destruct (is_child_in_range _ _ _ Hch) as [_ Hp]. unfold dep. lia. }
  assert (∀ c, c < length rows → dep c < length rows) as Hbound.
  { intros c Hc. unfold dep. lia. }
  destruct (child_first_run rows dep Hnd Hbefore Hbound Hfirst fuel Hfuel)
    as (h' & Hrun & Hi & Hkids).
  destruct (view_total rows dep Hnd Hbefore Hbound h' [] fuel Hi
              (root_locs rows)) as (forest & Hview).
  { apply root_locs_valid. }
  { intros l _. lia. }
  { lia. }
  assert (list_to_tree fuel rows = Done forest) as Hret.
  { unfold list_to_tree. rewrite Hrun. done. }
  exists forest. split; [done|]. split.
  - by destruct (list_to_tree_shape _ _ _ Hret).
  - by apply (kids_in_input_order rows fuel h' (root_locs rows) forest
                (inv_att _ _ _ Hi) Hkids Hview).
Qed.

Lemma replies_first_witness :
  ∃ forest, list_to_tree 6 newest_first_input = Done forest ∧
    node_fields <$> forest = filter (λ r, is_root r) newest_first_input ∧
    ∀ n, n ∈ forest ≫= subnodes →
         node_fields <$> kids_of n
         = child_rows (id (node_fields n)) newest_first_input.
Proof.
  apply (replies_first_keeps_input_order 6 newest_first_input).
  - apply (bool_decide_unpack _). vm_compute. reflexivity.
  - by apply grounded_sound.
  - intros c p Hch. destruct (is_child_in_range _ _ _ Hch) as [Hc Hp].
    simpl in Hc, Hp.
    destruct c as [|[|[|[|[|c]]]]]; [..|lia];
      destruct p as [|[|[|[|[|p]]]]]; try lia; by vm_compute in Hch.
  - simpl. lia.
Defined.

Example newest_first_run :
  list_to_tree 6 newest_first_input = Done newest_first_forest.
Proof. vm_compute. reflexivity. Qed.

(** ** The archive of posts *)

Lemma date_label_inj d d' :
  valid_date d → valid_date d' →
  String.substring 0 7 (isoformat d) = String.substring 0 7 (isoformat d') →
  d_year d = d_year d' ∧ d_month d = d_month d'.
Proof.
  intros [Hy Hm] [Hy' Hm'] H.
  change (pad4 (d_year d) +:+ "-" +:+ pad2 (d_month d)
          = pad4 (d_year d') +:+ "-" +:+ pad2 (d_month d')) in H.
  assert (pad4 (d_year d) = pad4 (d_year d') ∧
          pad2 (d_month d) = pad2 (d_month d')) as [H4 H2].
  { unfold pad4, pad2 in *. simpl in H. injection H as -> -> -> -> -> ->.
    done. }
  split; [apply pad4_inj in H4|apply pad2_inj in H2]; lia.
Qed.

(** X10: [list_archive_dates] gives dates of distinct months (of the years
    a [datetime.date] can hold) distinct labels, so that a label names one
    month. *)
Theorem list_archive_dates_distinct dates :
  Forall valid_date dates →
  NoDup ((λ d, (d_year d, d_month d)) <$> dates) →
  NoDup (list_archive_dates dates).
Proof.
  unfold list_archive_dates.
  induction 1 as [|d dates Hd Hds IH]; [constructor|].
  rewrite !fmap_cons. intros [Hnew Hnd]%NoDup_cons. apply NoDup_cons.
  split; [|by apply IH]. intros Hin. apply Hnew.
  apply list_elem_of_fmap in Hin as (d' & Heq & Hd').
  apply list_elem_of_fmap. exists d'. split; [|done].
  rewrite Forall_forall in Hds.
  destruct (date_label_inj d d' Hd (Hds _ Hd') Heq) as [-> ->]. done.
Qed.

Lemma list_archive_dates_witness : NoDup (list_archive_dates march_april).
Proof.
  apply (list_archive_dates_distinct march_april).
  - repeat constructor; simpl; lia.
  - apply (bool_decide_unpack _). vm_compute. reflexivity.
Defined.

Lemma archive_loop_step date_list time_str e (g : string → list archive_entry) :
  archive_loop date_list time_str e ((λ d, (d, g d)) <$> date_list) =
  (λ d, (d, g d ++ if decide (time_str = d) then [e] else [])) <$> date_list.
Proof.
  induction date_list as [|d ds IH]; [done|].
  rewrite !fmap_cons. cbn [archive_loop]. rewrite IH. f_equal.
  destruct (decide (d = time_str)) as [->|Hne].
  - by rewrite decide_True.
  - rewrite decide_False by congruence. by rewrite app_nil_r.
Qed.

Lemma archive_fold date_list posts :
  ∀ seen,
    foldl (λ res p,
             archive_loop date_list (strftime_Ym (p_created_time p))
               (archive_entry_of p) res)
      ((λ d, (d, archive_entry_of <$> labelled d seen)) <$> date_list) posts =
    (λ d, (d, archive_entry_of <$> labelled d (seen ++ posts))) <$> date_list.
Proof.
  induction posts as [|p posts IH]; intros seen.
  - by rewrite app_nil_r.
  - cbn [foldl].
    rewrite (archive_loop_step date_list _ _
               (λ d, archive_entry_of <$> labelled d seen)).
    rewrite (cons_middle p seen posts), app_assoc, <- IH. f_equal.
    apply list_fmap_ext. intros i d _. f_equal. unfold labelled.
    rewrite filter_app, fmap_app. f_equal.
    rewrite filter_cons, filter_nil. by destruct (decide _).
Qed.

(** The loops of [list_archive] as a comprehension: the group of a label
    holds the posts whose month prints as that label. *)
Lemma list_archive_by_label dates posts :
  list_archive dates posts =
  (λ d, (d, archive_entry_of <$> labelled d posts)) <$> list_archive_dates dates.
Proof.
  unfold list_archive. cbv zeta. fold (list_archive_dates dates).
  pose proof (archive_fold (list_archive_dates dates) posts []) as Hfold.
  rewrite app_nil_l in Hfold. rewrite <- Hfold. done.
Qed.

(** X11: [list_archive] returns one group per date of its [dates] query,
    in the order of the query, labelled ["YYYY-MM"]; the group of a date
    holds the entries of the posts created in the year and month of that
    date, in the order of [post_list], and nothing else.  The labels are
    made by [isoformat] and the months of the posts by [strftime]: the two
    agree on dates a [datetime.date] can hold and timestamps whose year has
    four digits. *)
Theorem list_archive_groups_by_month dates posts :
  Forall valid_date dates →
  Forall (λ p, valid_time (p_created_time p)) posts →
  list_archive dates posts =
  (λ d, (String.substring 0 7 (isoformat d),
         archive_entry_of <$>
           filter (λ p, in_month d (p_created_time p)) posts)) <$> dates.
Proof.
  intros Hd Hp. rewrite list_archive_by_label. unfold list_archive_dates.
  rewrite <- list_fmap_compose. apply Forall_fmap_ext_1.
  eapply Forall_impl; [exact Hd|]. intros d Hvd. cbn. f_equal. f_equal.
  unfold labelled. apply filter_ext_Forall.
  eapply Forall_impl; [exact Hp|]. intros p Hvp. by apply label_inj.
Qed.

Lemma list_archive_groups_witness :
  list_archive march_april four_posts =
  [("2021-04", [ArchiveEntry 2 "b" "2021-04-01 00:00:01"]);
   ("2021-03", [ArchiveEntry 1 "a" "2021-03-05 12:00:00";
                ArchiveEntry 4 "d" "2021-03-31 23:59:59"])].
Proof.
  etrans; [apply (list_archive_groups_by_month march_april four_posts)|].
  - repeat constructor; simpl; lia.
  - repeat constructor; simpl; lia.
  - vm_compute. reflexivity.
Defined.

Lemma filter_split_Permutation {A} (P Q : A → Prop)
    `{∀ x, Decision (P x)} `{∀ x, Decision (Q x)} (l : list A) :
  (∀ x, P x → Q x → False) →
  filter (λ x, P x ∨ Q x) l ≡ₚ filter P l ++ filter Q l.
Proof.
  intros Hdisj. induction l as [|x l IH]; [done|]. rewrite !filter_cons.
  destruct (decide (P x)) as [HP|HP], (decide (Q x)) as [HQ|HQ].
  - by destruct (Hdisj x).
  - rewrite decide_True by (by left). simpl. by rewrite IH.
  - rewrite decide_True by (by right). rewrite IH.
    by rewrite Permutation_middle.
  - rewrite decide_False by tauto. done.
Qed.

Lemma groups_partition labels posts :
  NoDup labels →
  mjoin ((λ d, archive_entry_of <$> labelled d posts) <$> labels) ≡ₚ
  archive_entry_of <$>
    filter (λ p, strftime_Ym (p_created_time p) ∈ labels) posts.
Proof.
  induction 1 as [|d labels Hd _ IH].
  - simpl. rewrite (filter_none _ posts); [done|].
    apply Forall_forall. intros p _. apply not_elem_of_nil.
  - rewrite fmap_cons. simpl. rewrite IH, <- fmap_app. apply fmap_Permutation.
    unfold labelled. rewrite <- filter_split_Permutation.
    + rewrite (filter_ext_Forall
                 (λ p, strftime_Ym (p_created_time p) = d ∨
                       strftime_Ym (p_created_time p) ∈ labels)
                 (λ p, strftime_Ym (p_created_time p) ∈ d :: labels)); [done|].
      apply Forall_forall. intros p _. by rewrite elem_of_cons.
    + intros p -> Hin. done.
Qed.

(** X12: when the labels of the dates are distinct, the groups of
    [list_archive] together hold every post whose month label is among
    them exactly once, and no other post: a post is never listed twice, and
    a post of a month that is not among the dates is left out. *)
Theorem list_archive_places_each_post_once dates posts :
  NoDup (list_archive_dates dates) →
  mjoin (snd <$> list_archive dates posts) ≡ₚ
  archive_entry_of <$>
    filter (λ p, strftime_Ym (p_created_time p) ∈ list_archive_dates dates)
      posts.
Proof.
  intros Hnd. rewrite list_archive_by_label, <- list_fmap_compose.
  by apply groups_partition.
Qed.

Lemma list_archive_places_witness :
  mjoin (snd <$> list_archive march_april four_posts) ≡ₚ
  archive_entry_of <$>
    filter (λ p, strftime_Ym (p_created_time p)
                 ∈ list_archive_dates march_april) four_posts.
Proof.
  apply (list_archive_places_each_post_once march_april four_posts).
  apply (bool_decide_unpack _). vm_compute. reflexivity.
Defined.

(** ** [format_comments] *)

Lemma new_dic_spec c :
  new_dic c = match missing_key c with
              | Some k => inl (KeyError k)
              | None => inr (childless c)
              end.
Proof.
  unfold new_dic, missing_key, required_keys, getitem, childless, dict_get.
  rewrite !filter_cons, filter_nil.
  destruct (c !! "id") as [v1|] eqn:H1.
  2:{ by rewrite decide_True. }
  rewrite decide_False by done.
  destruct (c !! "name") as [v2|] eqn:H2.
  2:{ by rewrite decide_True. }
  rewrite decide_False by done.
  destruct (c !! "content") as [v3|] eqn:H3.
  2:{ by rewrite decide_True. }
  rewrite decide_False by done.
  destruct (c !! "post_id") as [v4|] eqn:H4.
  2:{ by rewrite decide_True. }
  rewrite decide_False by done. done.
Qed.

(** With [tmp_list] empty the inner loop has nothing to visit: a reply is
    created and attached nowhere. *)
Lemma format_loop_spec comment_list :
  ∀ h formated_list seen,
    Forall (λ c, missing_key c = None) comment_list →
    Forall2 (λ l c, h !! l = Some (childless c)) formated_list seen →
    ∃ fl,
      format_loop comment_list h formated_list [] =
        inr (h ++ (childless <$> comment_list), fl) ∧
      Forall2 (λ l c, (h ++ (childless <$> comment_list)) !! l
                      = Some (childless c))
        fl (seen ++ filter top_level comment_list).
Proof.
  induction comment_list as [|c rest IH]; intros h fl seen Hall Hfl.
  - exists fl. cbn [format_loop fmap list_fmap].
    rewrite filter_nil, !app_nil_r. by split.
  - apply Forall_cons in Hall as [Hc Hall]. cbn [format_loop].
    rewrite new_dic_spec, Hc. cbn zeta.
    change (c_parent_id (childless c)) with (dict_get c "parent_id").
    assert (Forall2 (λ l c0, (h ++ [childless c]) !! l = Some (childless c0))
              fl seen) as Hfl'.
    { eapply Forall2_impl; [exact Hfl|]. intros l c0 Hl. cbv beta in *.
      rewrite lookup_app_l; [done|]. apply lookup_lt_Some in Hl. exact Hl. }
    assert (h ++ (childless <$> c :: rest)
            = (h ++ [childless c]) ++ (childless <$> rest)) as ->
      by (by rewrite fmap_cons, <- app_assoc).
    rewrite filter_cons.
    destruct (truthy (dict_get c "parent_id")) eqn:Ht.
    + cbn [append_reply]. rewrite decide_False.
      2:{ unfold top_level. by rewrite Ht. }
      by apply IH.
    + rewrite decide_True by done.
      rewrite (cons_middle c seen), app_assoc. apply IH; [done|].
      apply Forall2_app; [done|]. constructor; [|constructor].
      by rewrite lookup_app_r, Nat.sub_diag.
Qed.

(** X13: on comments that have the keys it indexes, [format_comments]
    returns one dict per comment whose [parent_id] is falsy or missing, in
    input order, each with an empty ['children'] list.  Every reply is
    dropped: its dict is created and attached to no dict, because nothing
    is ever appended to [tmp_list]. *)
Theorem format_comments_keeps_top_level_only comment_list :
  Forall (λ c, missing_key c = None) comment_list →
  ∃ h formated_list,
    format_comments comment_list = inr (h, formated_list) ∧
    h = childless <$> comment_list ∧
    Forall2 (λ l c, h !! l = Some (childless c))
      formated_list (filter top_level comment_list).
Proof.
  intros Hall.
  destruct (format_loop_spec comment_list [] [] [] Hall) as (fl & Hrun & Hfl);
    [constructor|].
  exists (childless <$> comment_list), fl. by repeat split.
Qed.

Lemma format_comments_witness :
  ∃ h formated_list,
    format_comments thread = inr (h, formated_list) ∧
    h = childless <$> thread ∧
    Forall2 (λ l c, h !! l = Some (childless c))
      formated_list (filter top_level thread).
Proof.
  apply (format_comments_keeps_top_level_only thread).
  repeat constructor.
Defined.

(** The reply of [thread] is in no ['children'] list and not in the list
    returned. *)
Example thread_run :
  format_comments thread =
  inr ([CDict (PyInt 1) (PyStr "ann") (PyStr "first") PyNone (PyInt 7) [];
        CDict (PyInt 2) (PyStr "bob") (PyStr "reply") (PyInt 1) (PyInt 7) [];
        CDict (PyInt 3) (PyStr "cy") (PyStr "second") PyNone (PyInt 7) []],
       [0; 2]).
Proof. vm_compute. reflexivity. Qed.

Lemma format_loop_error comment_list k :
  ∀ h formated_list,
    format_loop comment_list h formated_list [] = inl (KeyError k) ↔
    ∃ pre c post,
      comment_list = pre ++ c :: post ∧
      Forall (λ c, missing_key c = None) pre ∧ missing_key c = Some k.
Proof.
  induction comment_list as [|c rest IH]; intros h fl.
  - split; [done|]. intros (pre & c & post & Heq & _). by destruct pre.
  - cbn [format_loop]. rewrite new_dic_spec.
    destruct (missing_key c) as [k'|] eqn:Hc.
    + split.
      * intros [= ->]. exists [], c, rest. by repeat split.
      * intros (pre & c' & post & Heq & Hpre & Hk). destruct pre as [|x pre].
        -- injection Heq as <- <-. congruence.
        -- injection Heq as <- ->. apply Forall_cons in Hpre as [Hx _].
           congruence.
    + cbn zeta. change (c_parent_id (childless c)) with (dict_get c "parent_id").
      assert ((∃ pre c0 post, rest = pre ++ c0 :: post ∧
                 Forall (λ c, missing_key c = None) pre ∧
                 missing_key c0 = Some k) ↔
              (∃ pre c0 post, c :: rest = pre ++ c0 :: post ∧
                 Forall (λ c, missing_key c = None) pre ∧
                 missing_key c0 = Some k)) as Hshift.
      { split.
        - intros (pre & c0 & post & -> & Hpre & Hk).
          exists (c :: pre), c0, post. split; [done|]. split; [|done].
          by constructor.
        - intros (pre & c0 & post & Heq & Hpre & Hk). destruct pre as [|x pre].
          + injection Heq as <- <-. congruence.
          + injection Heq as <- ->. apply Forall_cons in Hpre as [_ Hpre].
            by exists pre, c0, post. }
      rewrite <- Hshift.
      destruct (truthy (dict_get c "parent_id")); apply IH.
Qed.

(** X14: [format_comments] raises [KeyError(k)] exactly when some comment
    lacks one of the keys ['id'], ['name'], ['content'], ['post_id']: [k] is
    the first of these keys that the first such comment lacks.  Replies are
    checked too, although they are dropped; a missing ['parent_id'] raises
    nothing. *)
Theorem format_comments_key_error comment_list k :
  format_comments comment_list = inl (KeyError k) ↔
  ∃ pre c post,
    comment_list = pre ++ c :: post ∧
    Forall (λ c, missing_key c = None) pre ∧ missing_key c = Some k.
Proof. apply format_loop_error. Qed.
